(** * SHA3 hash engine of the SQLite [shathree] extension

    A shallow embedding of [sqlite3/shathree.c]: the Keccak-f[1600]
    permutation [KeccakF1600Step], the sponge [SHA3Init] / [SHA3Update] /
    [SHA3Final], and the two SQL functions [sha3Func] and [sha3QueryFunc],
    followed by the properties proved about them. *)

From Stdlib Require Import Strings.String Strings.Ascii Strings.Byte.
From Stdlib Require Import ZArith List Bool Lia.
From Stdlib Require Import DecimalString.
From Stdlib Require DecimalFacts DecimalPos DecimalZ.
From Stdlib Require Import Btauto.
From coqutil Require Import Z.bitblast.
Import ListNotations.
Local Open Scope Z_scope.

(** ** 64-bit words ([u64]) *)

Module U64.

Definition modulus : Z := 2 ^ 64.

(** A value of C type [u64]. *)
Definition in_range (a : Z) : Prop := 0 <= a < modulus.

(** [~a] on a [u64]. *)
Definition not64 (a : Z) : Z := Z.lnot a mod modulus.

(** [# define ROL64(a,x) ((a<<x)|(a>>(64-x)))], the left shift wrapping
    around at 64 bits as it does on a [u64]. *)
Definition ROL64 (a x : Z) : Z :=
  Z.lor (Z.shiftl a x mod modulus) (Z.shiftr a (64 - x)).

End U64.
Export U64.

Declare Scope u64_scope.
Delimit Scope u64_scope with u64.
Infix ".^" := Z.lxor (at level 50, left associativity) : u64_scope.
Infix ".&" := Z.land (at level 40, left associativity) : u64_scope.
Local Open Scope u64_scope.

(** ** The Keccak state [p->u.s[25]] *)

(** [p->u.s[k]] read, and an array written at an index; the lanes are a list
    of 25 words. *)
Definition ld (s : list Z) (k : nat) : Z := nth k s 0.

Fixpoint st {A : Type} (s : list A) (k : nat) (v : A) : list A :=
  match s, k with
  | [], _ => []
  | _ :: s', O => v :: s'
  | a :: s', S k' => a :: st s' k' v
  end.

(** The round constants [RC[]] of [KeccakF1600Step]. *)
Definition RC : list Z :=
  [ 0x0000000000000001;  0x0000000000008082;
    0x800000000000808a;  0x8000000080008000;
    0x000000000000808b;  0x0000000080000001;
    0x8000000080008081;  0x8000000000008009;
    0x000000000000008a;  0x0000000000000088;
    0x0000000080008009;  0x000000008000000a;
    0x000000008000808b;  0x800000000000008b;
    0x8000000000008089;  0x8000000000008003;
    0x8000000000008002;  0x8000000000000080;
    0x000000000000800a;  0x800000008000000a;
    0x8000000080008081;  0x8000000000008080;
    0x0000000080000001;  0x8000000080008008 ].

Definition RC_at (i : nat) : Z := nth i RC 0.

(** The macros [DTAyx], naming [p->u.s[5*y+x]]. *)
Definition DTA00 : nat := 0.
Definition DTA01 : nat := 1.
Definition DTA02 : nat := 2.
Definition DTA03 : nat := 3.
Definition DTA04 : nat := 4.
Definition DTA10 : nat := 5.
Definition DTA11 : nat := 6.
Definition DTA12 : nat := 7.
Definition DTA13 : nat := 8.
Definition DTA14 : nat := 9.
Definition DTA20 : nat := 10.
Definition DTA21 : nat := 11.
Definition DTA22 : nat := 12.
Definition DTA23 : nat := 13.
Definition DTA24 : nat := 14.
Definition DTA30 : nat := 15.
Definition DTA31 : nat := 16.
Definition DTA32 : nat := 17.
Definition DTA33 : nat := 18.
Definition DTA34 : nat := 19.
Definition DTA40 : nat := 20.
Definition DTA41 : nat := 21.
Definition DTA42 : nat := 22.
Definition DTA43 : nat := 23.
Definition DTA44 : nat := 24.

(** The body of the loop of [KeccakF1600Step], one definition per round. *)
Definition KeccakRound0 (i : nat) (s : list Z) : list Z :=
  let DTC0 := ld s DTA00 .^ ld s DTA10 .^ ld s DTA20 .^ ld s DTA30 .^ ld s DTA40 in
  let DTC1 := ld s DTA01 .^ ld s DTA11 .^ ld s DTA21 .^ ld s DTA31 .^ ld s DTA41 in
  let DTC2 := ld s DTA02 .^ ld s DTA12 .^ ld s DTA22 .^ ld s DTA32 .^ ld s DTA42 in
  let DTC3 := ld s DTA03 .^ ld s DTA13 .^ ld s DTA23 .^ ld s DTA33 .^ ld s DTA43 in
  let DTC4 := ld s DTA04 .^ ld s DTA14 .^ ld s DTA24 .^ ld s DTA34 .^ ld s DTA44 in
  let DTD0 := DTC4 .^ ROL64 DTC1 1 in
  let DTD1 := DTC0 .^ ROL64 DTC2 1 in
  let DTD2 := DTC1 .^ ROL64 DTC3 1 in
  let DTD3 := DTC2 .^ ROL64 DTC4 1 in
  let DTD4 := DTC3 .^ ROL64 DTC0 1 in
  let DTB0 := ld s DTA00 .^ DTD0 in
  let DTB1 := ROL64 (ld s DTA11 .^ DTD1) 44 in
  let DTB2 := ROL64 (ld s DTA22 .^ DTD2) 43 in
  let DTB3 := ROL64 (ld s DTA33 .^ DTD3) 21 in
  let DTB4 := ROL64 (ld s DTA44 .^ DTD4) 14 in
  let s := st s DTA00 (DTB0 .^ (not64 DTB1 .& DTB2)) in
  let s := st s DTA00 (ld s DTA00 .^ RC_at i) in
  let s := st s DTA11 (DTB1 .^ (not64 DTB2 .& DTB3)) in
  let s := st s DTA22 (DTB2 .^ (not64 DTB3 .& DTB4)) in
  let s := st s DTA33 (DTB3 .^ (not64 DTB4 .& DTB0)) in
  let s := st s DTA44 (DTB4 .^ (not64 DTB0 .& DTB1)) in
  let DTB2 := ROL64 (ld s DTA20 .^ DTD0) 3 in
  let DTB3 := ROL64 (ld s DTA31 .^ DTD1) 45 in
  let DTB4 := ROL64 (ld s DTA42 .^ DTD2) 61 in
  let DTB0 := ROL64 (ld s DTA03 .^ DTD3) 28 in
  let DTB1 := ROL64 (ld s DTA14 .^ DTD4) 20 in
  let s := st s DTA20 (DTB0 .^ (not64 DTB1 .& DTB2)) in
  let s := st s DTA31 (DTB1 .^ (not64 DTB2 .& DTB3)) in
  let s := st s DTA42 (DTB2 .^ (not64 DTB3 .& DTB4)) in
  let s := st s DTA03 (DTB3 .^ (not64 DTB4 .& DTB0)) in
  let s := st s DTA14 (DTB4 .^ (not64 DTB0 .& DTB1)) in
  let DTB4 := ROL64 (ld s DTA40 .^ DTD0) 18 in
  let DTB0 := ROL64 (ld s DTA01 .^ DTD1) 1 in
  let DTB1 := ROL64 (ld s DTA12 .^ DTD2) 6 in
  let DTB2 := ROL64 (ld s DTA23 .^ DTD3) 25 in
  let DTB3 := ROL64 (ld s DTA34 .^ DTD4) 8 in
  let s := st s DTA40 (DTB0 .^ (not64 DTB1 .& DTB2)) in
  let s := st s DTA01 (DTB1 .^ (not64 DTB2 .& DTB3)) in
  let s := st s DTA12 (DTB2 .^ (not64 DTB3 .& DTB4)) in
  let s := st s DTA23 (DTB3 .^ (not64 DTB4 .& DTB0)) in
  let s := st s DTA34 (DTB4 .^ (not64 DTB0 .& DTB1)) in
  let DTB1 := ROL64 (ld s DTA10 .^ DTD0) 36 in
  let DTB2 := ROL64 (ld s DTA21 .^ DTD1) 10 in
  let DTB3 := ROL64 (ld s DTA32 .^ DTD2) 15 in
  let DTB4 := ROL64 (ld s DTA43 .^ DTD3) 56 in
  let DTB0 := ROL64 (ld s DTA04 .^ DTD4) 27 in
  let s := st s DTA10 (DTB0 .^ (not64 DTB1 .& DTB2)) in
  let s := st s DTA21 (DTB1 .^ (not64 DTB2 .& DTB3)) in
  let s := st s DTA32 (DTB2 .^ (not64 DTB3 .& DTB4)) in
  let s := st s DTA43 (DTB3 .^ (not64 DTB4 .& DTB0)) in
  let s := st s DTA04 (DTB4 .^ (not64 DTB0 .& DTB1)) in
  let DTB3 := ROL64 (ld s DTA30 .^ DTD0) 41 in
  let DTB4 := ROL64 (ld s DTA41 .^ DTD1) 2 in
  let DTB0 := ROL64 (ld s DTA02 .^ DTD2) 62 in
  let DTB1 := ROL64 (ld s DTA13 .^ DTD3) 55 in
  let DTB2 := ROL64 (ld s DTA24 .^ DTD4) 39 in
  let s := st s DTA30 (DTB0 .^ (not64 DTB1 .& DTB2)) in
  let s := st s DTA41 (DTB1 .^ (not64 DTB2 .& DTB3)) in
  let s := st s DTA02 (DTB2 .^ (not64 DTB3 .& DTB4)) in
  let s := st s DTA13 (DTB3 .^ (not64 DTB4 .& DTB0)) in
  let s := st s DTA24 (DTB4 .^ (not64 DTB0 .& DTB1)) in
  s.

Definition KeccakRound1 (i : nat) (s : list Z) : list Z :=
  let DTC0 := ld s DTA00 .^ ld s DTA20 .^ ld s DTA40 .^ ld s DTA10 .^ ld s DTA30 in
  let DTC1 := ld s DTA11 .^ ld s DTA31 .^ ld s DTA01 .^ ld s DTA21 .^ ld s DTA41 in
  let DTC2 := ld s DTA22 .^ ld s DTA42 .^ ld s DTA12 .^ ld s DTA32 .^ ld s DTA02 in
  let DTC3 := ld s DTA33 .^ ld s DTA03 .^ ld s DTA23 .^ ld s DTA43 .^ ld s DTA13 in
  let DTC4 := ld s DTA44 .^ ld s DTA14 .^ ld s DTA34 .^ ld s DTA04 .^ ld s DTA24 in
  let DTD0 := DTC4 .^ ROL64 DTC1 1 in
  let DTD1 := DTC0 .^ ROL64 DTC2 1 in
  let DTD2 := DTC1 .^ ROL64 DTC3 1 in
  let DTD3 := DTC2 .^ ROL64 DTC4 1 in
  let DTD4 := DTC3 .^ ROL64 DTC0 1 in
  let DTB0 := ld s DTA00 .^ DTD0 in
  let DTB1 := ROL64 (ld s DTA31 .^ DTD1) 44 in
  let DTB2 := ROL64 (ld s DTA12 .^ DTD2) 43 in
  let DTB3 := ROL64 (ld s DTA43 .^ DTD3) 21 in
  let DTB4 := ROL64 (ld s DTA24 .^ DTD4) 14 in
  let s := st s DTA00 (DTB0 .^ (not64 DTB1 .& DTB2)) in
  let s := st s DTA00 (ld s DTA00 .^ RC_at (i + 1)%nat) in
  let s := st s DTA31 (DTB1 .^ (not64 DTB2 .& DTB3)) in
  let s := st s DTA12 (DTB2 .^ (not64 DTB3 .& DTB4)) in
  let s := st s DTA43 (DTB3 .^ (not64 DTB4 .& DTB0)) in
  let s := st s DTA24 (DTB4 .^ (not64 DTB0 .& DTB1)) in
  let DTB2 := ROL64 (ld s DTA40 .^ DTD0) 3 in
  let DTB3 := ROL64 (ld s DTA21 .^ DTD1) 45 in
  let DTB4 := ROL64 (ld s DTA02 .^ DTD2) 61 in
  let DTB0 := ROL64 (ld s DTA33 .^ DTD3) 28 in
  let DTB1 := ROL64 (ld s DTA14 .^ DTD4) 20 in
  let s := st s DTA40 (DTB0 .^ (not64 DTB1 .& DTB2)) in
  let s := st s DTA21 (DTB1 .^ (not64 DTB2 .& DTB3)) in
  let s := st s DTA02 (DTB2 .^ (not64 DTB3 .& DTB4)) in
  let s := st s DTA33 (DTB3 .^ (not64 DTB4 .& DTB0)) in
  let s := st s DTA14 (DTB4 .^ (not64 DTB0 .& DTB1)) in
  let DTB4 := ROL64 (ld s DTA30 .^ DTD0) 18 in
  let DTB0 := ROL64 (ld s DTA11 .^ DTD1) 1 in
  let DTB1 := ROL64 (ld s DTA42 .^ DTD2) 6 in
  let DTB2 := ROL64 (ld s DTA23 .^ DTD3) 25 in
  let DTB3 := ROL64 (ld s DTA04 .^ DTD4) 8 in
  let s := st s DTA30 (DTB0 .^ (not64 DTB1 .& DTB2)) in
  let s := st s DTA11 (DTB1 .^ (not64 DTB2 .& DTB3)) in
  let s := st s DTA42 (DTB2 .^ (not64 DTB3 .& DTB4)) in
  let s := st s DTA23 (DTB3 .^ (not64 DTB4 .& DTB0)) in
  let s := st s DTA04 (DTB4 .^ (not64 DTB0 .& DTB1)) in
  let DTB1 := ROL64 (ld s DTA20 .^ DTD0) 36 in
  let DTB2 := ROL64 (ld s DTA01 .^ DTD1) 10 in
  let DTB3 := ROL64 (ld s DTA32 .^ DTD2) 15 in
  let DTB4 := ROL64 (ld s DTA13 .^ DTD3) 56 in
  let DTB0 := ROL64 (ld s DTA44 .^ DTD4) 27 in
  let s := st s DTA20 (DTB0 .^ (not64 DTB1 .& DTB2)) in
  let s := st s DTA01 (DTB1 .^ (not64 DTB2 .& DTB3)) in
  let s := st s DTA32 (DTB2 .^ (not64 DTB3 .& DTB4)) in
  let s := st s DTA13 (DTB3 .^ (not64 DTB4 .& DTB0)) in
  let s := st s DTA44 (DTB4 .^ (not64 DTB0 .& DTB1)) in
  let DTB3 := ROL64 (ld s DTA10 .^ DTD0) 41 in
  let DTB4 := ROL64 (ld s DTA41 .^ DTD1) 2 in
  let DTB0 := ROL64 (ld s DTA22 .^ DTD2) 62 in
  let DTB1 := ROL64 (ld s DTA03 .^ DTD3) 55 in
  let DTB2 := ROL64 (ld s DTA34 .^ DTD4) 39 in
  let s := st s DTA10 (DTB0 .^ (not64 DTB1 .& DTB2)) in
  let s := st s DTA41 (DTB1 .^ (not64 DTB2 .& DTB3)) in
  let s := st s DTA22 (DTB2 .^ (not64 DTB3 .& DTB4)) in
  let s := st s DTA03 (DTB3 .^ (not64 DTB4 .& DTB0)) in
  let s := st s DTA34 (DTB4 .^ (not64 DTB0 .& DTB1)) in
  s.

Definition KeccakRound2 (i : nat) (s : list Z) : list Z :=
  let DTC0 := ld s DTA00 .^ ld s DTA40 .^ ld s DTA30 .^ ld s DTA20 .^ ld s DTA10 in
  let DTC1 := ld s DTA31 .^ ld s DTA21 .^ ld s DTA11 .^ ld s DTA01 .^ ld s DTA41 in
  let DTC2 := ld s DTA12 .^ ld s DTA02 .^ ld s DTA42 .^ ld s DTA32 .^ ld s DTA22 in
  let DTC3 := ld s DTA43 .^ ld s DTA33 .^ ld s DTA23 .^ ld s DTA13 .^ ld s DTA03 in
  let DTC4 := ld s DTA24 .^ ld s DTA14 .^ ld s DTA04 .^ ld s DTA44 .^ ld s DTA34 in
  let DTD0 := DTC4 .^ ROL64 DTC1 1 in
  let DTD1 := DTC0 .^ ROL64 DTC2 1 in
  let DTD2 := DTC1 .^ ROL64 DTC3 1 in
  let DTD3 := DTC2 .^ ROL64 DTC4 1 in
  let DTD4 := DTC3 .^ ROL64 DTC0 1 in
  let DTB0 := ld s DTA00 .^ DTD0 in
  let DTB1 := ROL64 (ld s DTA21 .^ DTD1) 44 in
  let DTB2 := ROL64 (ld s DTA42 .^ DTD2) 43 in
  let DTB3 := ROL64 (ld s DTA13 .^ DTD3) 21 in
  let DTB4 := ROL64 (ld s DTA34 .^ DTD4) 14 in
  let s := st s DTA00 (DTB0 .^ (not64 DTB1 .& DTB2)) in
  let s := st s DTA00 (ld s DTA00 .^ RC_at (i + 2)%nat) in
  let s := st s DTA21 (DTB1 .^ (not64 DTB2 .& DTB3)) in
  let s := st s DTA42 (DTB2 .^ (not64 DTB3 .& DTB4)) in
  let s := st s DTA13 (DTB3 .^ (not64 DTB4 .& DTB0)) in
  let s := st s DTA34 (DTB4 .^ (not64 DTB0 .& DTB1)) in
  let DTB2 := ROL64 (ld s DTA30 .^ DTD0) 3 in
  let DTB3 := ROL64 (ld s DTA01 .^ DTD1) 45 in
  let DTB4 := ROL64 (ld s DTA22 .^ DTD2) 61 in
  let DTB0 := ROL64 (ld s DTA43 .^ DTD3) 28 in
  let DTB1 := ROL64 (ld s DTA14 .^ DTD4) 20 in
  let s := st s DTA30 (DTB0 .^ (not64 DTB1 .& DTB2)) in
  let s := st s DTA01 (DTB1 .^ (not64 DTB2 .& DTB3)) in
  let s := st s DTA22 (DTB2 .^ (not64 DTB3 .& DTB4)) in
  let s := st s DTA43 (DTB3 .^ (not64 DTB4 .& DTB0)) in
  let s := st s DTA14 (DTB4 .^ (not64 DTB0 .& DTB1)) in
  let DTB4 := ROL64 (ld s DTA10 .^ DTD0) 18 in
  let DTB0 := ROL64 (ld s DTA31 .^ DTD1) 1 in
  let DTB1 := ROL64 (ld s DTA02 .^ DTD2) 6 in
  let DTB2 := ROL64 (ld s DTA23 .^ DTD3) 25 in
  let DTB3 := ROL64 (ld s DTA44 .^ DTD4) 8 in
  let s := st s DTA10 (DTB0 .^ (not64 DTB1 .& DTB2)) in
  let s := st s DTA31 (DTB1 .^ (not64 DTB2 .& DTB3)) in
  let s := st s DTA02 (DTB2 .^ (not64 DTB3 .& DTB4)) in
  let s := st s DTA23 (DTB3 .^ (not64 DTB4 .& DTB0)) in
  let s := st s DTA44 (DTB4 .^ (not64 DTB0 .& DTB1)) in
  let DTB1 := ROL64 (ld s DTA40 .^ DTD0) 36 in
  let DTB2 := ROL64 (ld s DTA11 .^ DTD1) 10 in
  let DTB3 := ROL64 (ld s DTA32 .^ DTD2) 15 in
  let DTB4 := ROL64 (ld s DTA03 .^ DTD3) 56 in
  let DTB0 := ROL64 (ld s DTA24 .^ DTD4) 27 in
  let s := st s DTA40 (DTB0 .^ (not64 DTB1 .& DTB2)) in
  let s := st s DTA11 (DTB1 .^ (not64 DTB2 .& DTB3)) in
  let s := st s DTA32 (DTB2 .^ (not64 DTB3 .& DTB4)) in
  let s := st s DTA03 (DTB3 .^ (not64 DTB4 .& DTB0)) in
  let s := st s DTA24 (DTB4 .^ (not64 DTB0 .& DTB1)) in
  let DTB3 := ROL64 (ld s DTA20 .^ DTD0) 41 in
  let DTB4 := ROL64 (ld s DTA41 .^ DTD1) 2 in
  let DTB0 := ROL64 (ld s DTA12 .^ DTD2) 62 in
  let DTB1 := ROL64 (ld s DTA33 .^ DTD3) 55 in
  let DTB2 := ROL64 (ld s DTA04 .^ DTD4) 39 in
  let s := st s DTA20 (DTB0 .^ (not64 DTB1 .& DTB2)) in
  let s := st s DTA41 (DTB1 .^ (not64 DTB2 .& DTB3)) in
  let s := st s DTA12 (DTB2 .^ (not64 DTB3 .& DTB4)) in
  let s := st s DTA33 (DTB3 .^ (not64 DTB4 .& DTB0)) in
  let s := st s DTA04 (DTB4 .^ (not64 DTB0 .& DTB1)) in
  s.

Definition KeccakRound3 (i : nat) (s : list Z) : list Z :=
  let DTC0 := ld s DTA00 .^ ld s DTA30 .^ ld s DTA10 .^ ld s DTA40 .^ ld s DTA20 in
  let DTC1 := ld s DTA21 .^ ld s DTA01 .^ ld s DTA31 .^ ld s DTA11 .^ ld s DTA41 in
  let DTC2 := ld s DTA42 .^ ld s DTA22 .^ ld s DTA02 .^ ld s DTA32 .^ ld s DTA12 in
  let DTC3 := ld s DTA13 .^ ld s DTA43 .^ ld s DTA23 .^ ld s DTA03 .^ ld s DTA33 in
  let DTC4 := ld s DTA34 .^ ld s DTA14 .^ ld s DTA44 .^ ld s DTA24 .^ ld s DTA04 in
  let DTD0 := DTC4 .^ ROL64 DTC1 1 in
  let DTD1 := DTC0 .^ ROL64 DTC2 1 in
  let DTD2 := DTC1 .^ ROL64 DTC3 1 in
  let DTD3 := DTC2 .^ ROL64 DTC4 1 in
  let DTD4 := DTC3 .^ ROL64 DTC0 1 in
  let DTB0 := ld s DTA00 .^ DTD0 in
  let DTB1 := ROL64 (ld s DTA01 .^ DTD1) 44 in
  let DTB2 := ROL64 (ld s DTA02 .^ DTD2) 43 in
  let DTB3 := ROL64 (ld s DTA03 .^ DTD3) 21 in
  let DTB4 := ROL64 (ld s DTA04 .^ DTD4) 14 in
  let s := st s DTA00 (DTB0 .^ (not64 DTB1 .& DTB2)) in
  let s := st s DTA00 (ld s DTA00 .^ RC_at (i + 3)%nat) in
  let s := st s DTA01 (DTB1 .^ (not64 DTB2 .& DTB3)) in
  let s := st s DTA02 (DTB2 .^ (not64 DTB3 .& DTB4)) in
  let s := st s DTA03 (DTB3 .^ (not64 DTB4 .& DTB0)) in
  let s := st s DTA04 (DTB4 .^ (not64 DTB0 .& DTB1)) in
  let DTB2 := ROL64 (ld s DTA10 .^ DTD0) 3 in
  let DTB3 := ROL64 (ld s DTA11 .^ DTD1) 45 in
  let DTB4 := ROL64 (ld s DTA12 .^ DTD2) 61 in
  let DTB0 := ROL64 (ld s DTA13 .^ DTD3) 28 in
  let DTB1 := ROL64 (ld s DTA14 .^ DTD4) 20 in
  let s := st s DTA10 (DTB0 .^ (not64 DTB1 .& DTB2)) in
  let s := st s DTA11 (DTB1 .^ (not64 DTB2 .& DTB3)) in
  let s := st s DTA12 (DTB2 .^ (not64 DTB3 .& DTB4)) in
  let s := st s DTA13 (DTB3 .^ (not64 DTB4 .& DTB0)) in
  let s := st s DTA14 (DTB4 .^ (not64 DTB0 .& DTB1)) in
  let DTB4 := ROL64 (ld s DTA20 .^ DTD0) 18 in
  let DTB0 := ROL64 (ld s DTA21 .^ DTD1) 1 in
  let DTB1 := ROL64 (ld s DTA22 .^ DTD2) 6 in
  let DTB2 := ROL64 (ld s DTA23 .^ DTD3) 25 in
  let DTB3 := ROL64 (ld s DTA24 .^ DTD4) 8 in
  let s := st s DTA20 (DTB0 .^ (not64 DTB1 .& DTB2)) in
  let s := st s DTA21 (DTB1 .^ (not64 DTB2 .& DTB3)) in
  let s := st s DTA22 (DTB2 .^ (not64 DTB3 .& DTB4)) in
  let s := st s DTA23 (DTB3 .^ (not64 DTB4 .& DTB0)) in
  let s := st s DTA24 (DTB4 .^ (not64 DTB0 .& DTB1)) in
  let DTB1 := ROL64 (ld s DTA30 .^ DTD0) 36 in
  let DTB2 := ROL64 (ld s DTA31 .^ DTD1) 10 in
  let DTB3 := ROL64 (ld s DTA32 .^ DTD2) 15 in
  let DTB4 := ROL64 (ld s DTA33 .^ DTD3) 56 in
  let DTB0 := ROL64 (ld s DTA34 .^ DTD4) 27 in
  let s := st s DTA30 (DTB0 .^ (not64 DTB1 .& DTB2)) in
  let s := st s DTA31 (DTB1 .^ (not64 DTB2 .& DTB3)) in
  let s := st s DTA32 (DTB2 .^ (not64 DTB3 .& DTB4)) in
  let s := st s DTA33 (DTB3 .^ (not64 DTB4 .& DTB0)) in
  let s := st s DTA34 (DTB4 .^ (not64 DTB0 .& DTB1)) in
  let DTB3 := ROL64 (ld s DTA40 .^ DTD0) 41 in
  let DTB4 := ROL64 (ld s DTA41 .^ DTD1) 2 in
  let DTB0 := ROL64 (ld s DTA42 .^ DTD2) 62 in
  let DTB1 := ROL64 (ld s DTA43 .^ DTD3) 55 in
  let DTB2 := ROL64 (ld s DTA44 .^ DTD4) 39 in
  let s := st s DTA40 (DTB0 .^ (not64 DTB1 .& DTB2)) in
  let s := st s DTA41 (DTB1 .^ (not64 DTB2 .& DTB3)) in
  let s := st s DTA42 (DTB2 .^ (not64 DTB3 .& DTB4)) in
  let s := st s DTA43 (DTB3 .^ (not64 DTB4 .& DTB0)) in
  let s := st s DTA44 (DTB4 .^ (not64 DTB0 .& DTB1)) in
  s.

(** One iteration of [for(i=0; i<24; i+=4)]: four rounds, each leaving the
    lanes in a permuted arrangement that the next one reads back. *)
Definition KeccakF1600_body (i : nat) (s : list Z) : list Z :=
  KeccakRound3 i (KeccakRound2 i (KeccakRound1 i (KeccakRound0 i s))).

(** [for(i=0; i<24; i+=4){ ... }] *)
Fixpoint KeccakF1600_for (fuel i : nat) (s : list Z) : list Z :=
  match fuel with
  | O => s
  | S fuel' =>
      if (i <? 24)%nat then KeccakF1600_for fuel' (i + 4) (KeccakF1600_body i s)
      else s
  end.

Definition KeccakF1600_lanes (s : list Z) : list Z := KeccakF1600_for 24 0 s.

(** ** Keccak-f[1600], round by round

    The permutation as the specification words it: 24 rounds, each of Theta,
    Rho, Pi, Chi and Iota, over lanes addressed by coordinates [(x, y)] with
    lane [(x, y)] stored at index [5*y + x]. *)

Module Spec.

(** Rotation of a 64-bit lane to the left by [n] bit positions. *)
Definition rotateLeft (a n : Z) : Z :=
  (a * 2 ^ n) mod 2 ^ 64 + a / 2 ^ (64 - n).

(** The rotation offsets of Rho, row-major as lane [5*y + x]. *)
Definition offsets : list Z :=
  [  0;  1; 62; 28; 27;
    36; 44;  6; 55; 20;
     3; 10; 43; 25; 39;
    41; 45; 15; 21;  8;
    18;  2; 61; 56; 14 ].

(** The 24 round constants of Iota, in round order. *)
Definition round_constants : list Z :=
  [ 0x0000000000000001; 0x0000000000008082; 0x800000000000808a;
    0x8000000080008000; 0x000000000000808b; 0x0000000080000001;
    0x8000000080008081; 0x8000000000008009; 0x000000000000008a;
    0x0000000000000088; 0x0000000080008009; 0x000000008000000a;
    0x000000008000808b; 0x800000000000008b; 0x8000000000008089;
    0x8000000000008003; 0x8000000000008002; 0x8000000000000080;
    0x000000000000800a; 0x800000008000000a; 0x8000000080008081;
    0x8000000000008080; 0x0000000080000001; 0x8000000080008008 ].

Definition lane (s : list Z) (x y : nat) : Z := nth (5 * y + x) s 0.

(** The state whose lane [(x, y)] is [f x y]. *)
Definition from_lanes (f : nat -> nat -> Z) : list Z :=
  map (fun k => f (k mod 5)%nat (k / 5)%nat) (seq 0 25).

Section Rounds.

(** The rounds are written over the rotation they use, so that they can be
    instantiated with [rotateLeft] and with the macro of the code. *)
Variable rot : Z -> Z -> Z.

Definition parity (s : list Z) (x : nat) : Z :=
  lane s x 0 .^ lane s x 1 .^ lane s x 2 .^ lane s x 3 .^ lane s x 4.

Definition theta_D (s : list Z) (x : nat) : Z :=
  parity s ((x + 4) mod 5) .^ rot (parity s ((x + 1) mod 5)) 1.

Definition theta (s : list Z) : list Z :=
  from_lanes (fun x y => lane s x y .^ theta_D s x).

Definition rho (s : list Z) : list Z :=
  from_lanes (fun x y => rot (lane s x y) (nth (5 * y + x) offsets 0)).

Definition pi (s : list Z) : list Z :=
  from_lanes (fun x y => lane s ((x + 3 * y) mod 5) x).

Definition chi (s : list Z) : list Z :=
  from_lanes (fun x y =>
    lane s x y .^ (not64 (lane s ((x + 1) mod 5) y) .& lane s ((x + 2) mod 5) y)).

Definition iota (rc : Z) (s : list Z) : list Z :=
  from_lanes (fun x y =>
    match x, y with
    | O, O => lane s x y .^ rc
    | _, _ => lane s x y
    end).

Definition round (rc : Z) (s : list Z) : list Z :=
  iota rc (chi (pi (rho (theta s)))).

Definition rounds (rcs : list Z) (s : list Z) : list Z :=
  fold_left (fun s rc => round rc s) rcs s.

End Rounds.

(** Keccak-f[1600]. *)
Definition keccak_f (s : list Z) : list Z :=
  rounds rotateLeft round_constants s.

End Spec.

(** The rotation the unrolled code performs at each position: none at lane
    (0,0), whose offset is 0, and [ROL64] elsewhere. *)
Definition rol (a n : Z) : Z := if n =? 0 then a else ROL64 a n.

(** Where the lanes sit after each of the four rounds of the loop body:
    entry [k] is the index [5*y + x] of the lane held in [p->u.s[k]]. *)
Definition arrangement (r : nat) : list nat :=
  match r with
  | 1 => [0; 11; 22; 8; 19; 15; 1; 12; 23; 9; 5; 16; 2; 13; 24;
          20; 6; 17; 3; 14; 10; 21; 7; 18; 4]
  | 2 => [0; 16; 7; 23; 14; 20; 11; 2; 18; 9; 15; 6; 22; 13; 4;
          10; 1; 17; 8; 24; 5; 21; 12; 3; 19]
  | 3 => [0; 6; 12; 18; 24; 10; 16; 22; 3; 9; 20; 1; 7; 13; 19;
          5; 11; 17; 23; 4; 15; 21; 2; 8; 14]
  | _ => seq 0 25
  end%nat.

Definition arrange (r : nat) (s : list Z) : list Z :=
  map (fun k => nth k s 0) (arrangement r).

(** A 1600-bit state: 25 lanes of 64 bits. *)
Definition state_ok (s : list Z) : Prop :=
  length s = 25%nat /\ Forall in_range s.

(** ** Build configuration

    [SHA3_BYTEORDER] is fixed when the file is compiled: 1234 and 4321 claim
    the byte order of the host, 0 leaves it to a test at run time.  A
    platform is a setting of the macro together with the byte order of the
    host it runs on; the two static settings are only used on a host of
    that byte order. *)
Inductive platform : Type :=
  | Static_1234     (* SHA3_BYTEORDER==1234, little-endian host *)
  | Static_4321     (* SHA3_BYTEORDER==4321, big-endian host *)
  | Runtime_little  (* SHA3_BYTEORDER==0, little-endian host *)
  | Runtime_big.    (* SHA3_BYTEORDER==0, big-endian host *)

Definition SHA3_BYTEORDER (pf : platform) : Z :=
  match pf with
  | Static_1234 => 1234
  | Static_4321 => 4321
  | Runtime_little | Runtime_big => 0
  end.

Definition big_endian (pf : platform) : bool :=
  match pf with
  | Static_1234 | Runtime_little => false
  | Static_4321 | Runtime_big => true
  end.

(** ** C data *)

(** Arithmetic on [unsigned int]. *)
Definition u32 (z : Z) : Z := z mod 2 ^ 32.

(** An [unsigned char] of input as a number. *)
Definition byte_val (b : byte) : Z := Z.of_N (Byte.to_N b).

(** A [const unsigned char *]: the null pointer, or the bytes found from the
    address on, together with whether the address is a multiple of 8. *)
Inductive cptr : Type :=
  | NULL
  | Ptr (aligned : bool) (mem : list byte).

(** Whether the address is a multiple of 8, the test on [aData] that opens
    the first loop of [SHA3Update]. *)
Definition aligned8 (a : cptr) : bool :=
  match a with NULL => true | Ptr al _ => al end.

Definition bytes_of (a : cptr) : list byte :=
  match a with NULL => [] | Ptr _ m => m end.

(** [a[i]] *)
Definition deref (a : cptr) (i : Z) : Z :=
  byte_val (nth (Z.to_nat i) (bytes_of a) x00).

(** ** The hash context *)

(** [struct SHA3Context].  The union [u] is kept as its 25 lanes [u.s[]],
    which are the first 200 bytes of [u.x[]], and the other 1400 bytes of
    [u.x[]].  [nStep] is not in the structure: it counts the calls of
    [KeccakF1600Step] made on the context. *)
Record SHA3Context : Type := mkSHA3Context {
  u_s : list Z;
  u_x_hi : list Z;
  nRate : Z;
  nLoaded : Z;
  ixMask : Z;
  nStep : nat
}.

Definition set_u_s (p : SHA3Context) (s : list Z) : SHA3Context :=
  mkSHA3Context s (u_x_hi p) (nRate p) (nLoaded p) (ixMask p) (nStep p).

Definition set_u_x_hi (p : SHA3Context) (h : list Z) : SHA3Context :=
  mkSHA3Context (u_s p) h (nRate p) (nLoaded p) (ixMask p) (nStep p).

Definition set_nRate (p : SHA3Context) (v : Z) : SHA3Context :=
  mkSHA3Context (u_s p) (u_x_hi p) v (nLoaded p) (ixMask p) (nStep p).

Definition set_nLoaded (p : SHA3Context) (v : Z) : SHA3Context :=
  mkSHA3Context (u_s p) (u_x_hi p) (nRate p) v (ixMask p) (nStep p).

Definition set_ixMask (p : SHA3Context) (v : Z) : SHA3Context :=
  mkSHA3Context (u_s p) (u_x_hi p) (nRate p) (nLoaded p) v (nStep p).

(** Byte [j] of a lane, counted from the least significant one. *)
Definition lane_byte (w j : Z) : Z := Z.shiftr w (8 * j) .& 0xff.

Definition lane_set_byte (w j v : Z) : Z :=
  Z.lor (w .& Z.lnot (Z.shiftl 0xff (8 * j))) (Z.shiftl v (8 * j)).

(** The place within its lane of the byte at address [k] of [u.x[]]. *)
Definition byte_pos (pf : platform) (k : Z) : Z :=
  if big_endian pf then 7 - k mod 8 else k mod 8.

(** [p->u.x[k]] read ... *)
Definition x_get (pf : platform) (p : SHA3Context) (k : Z) : Z :=
  if k <? 200 then lane_byte (ld (u_s p) (Z.to_nat (k / 8))) (byte_pos pf k)
  else nth (Z.to_nat (k - 200)) (u_x_hi p) 0.

(** ... and written. *)
Definition x_set (pf : platform) (p : SHA3Context) (k v : Z) : SHA3Context :=
  if k <? 200 then
    let j := Z.to_nat (k / 8) in
    set_u_s p (st (u_s p) j (lane_set_byte (ld (u_s p) j) (byte_pos pf k) v))
  else set_u_x_hi p (st (u_x_hi p) (Z.to_nat (k - 200)) v).

(** The eight bytes from [a[i]] on, taken as one [u64] of the host. *)
Definition load_u64 (pf : platform) (a : cptr) (i : Z) : Z :=
  fold_right (fun j w => Z.lor (Z.shiftl (deref a (i + j)) (8 * byte_pos pf j)) w)
    0 [0; 1; 2; 3; 4; 5; 6; 7].

(** [n] bytes of [u.x[]] from offset [k] on, as the caller of [SHA3Final]
    copies them out. *)
Definition x_read (pf : platform) (p : SHA3Context) (k n : Z) : list Z :=
  map (fun j => x_get pf p (k + Z.of_nat j)) (seq 0 (Z.to_nat n)).

(** [KeccakF1600Step(p)] *)
Definition KeccakF1600Step (p : SHA3Context) : SHA3Context :=
  mkSHA3Context (KeccakF1600_lanes (u_s p)) (u_x_hi p) (nRate p) (nLoaded p)
    (ixMask p) (S (nStep p)).

(** ** The sponge *)

Section HashEngine.

Variable pf : platform.

(** Whether the local buffer of the given C name lies on an 8-byte
    boundary; the compiler decides. *)
Variable local_aligned : string -> bool.

(** [SHA3Init(p, iSize)], from the [memset] on. *)
Definition SHA3Init (iSize : Z) : SHA3Context :=
  let p := mkSHA3Context (repeat 0 25) (repeat 0 1400) 0 0 0 0 in
  let p :=
    if (128 <=? iSize) && (iSize <=? 512) then
      set_nRate p (u32 (Z.quot (1600 - ((iSize + 31) .& Z.lnot 31) * 2) 8))
    else
      set_nRate p (u32 (Z.quot (1600 - 2 * 256) 8)) in
  if SHA3_BYTEORDER pf =? 1234 then p
  else if SHA3_BYTEORDER pf =? 4321 then set_ixMask p 7
  else if big_endian pf then set_ixMask p 7 else set_ixMask p 0.

(** One turn of the first loop of [SHA3Update], [w] being the word read
    from the input. *)
Definition SHA3Update_word (p : SHA3Context) (w : Z) : SHA3Context :=
  let k := Z.to_nat (nLoaded p / 8) in
  let p := set_u_s p (st (u_s p) k (ld (u_s p) k .^ w)) in
  let p := set_nLoaded p (u32 (nLoaded p + 8)) in
  if nRate p <=? nLoaded p then set_nLoaded (KeccakF1600Step p) 0 else p.

(** The first loop of [SHA3Update]: whole words. *)
Fixpoint SHA3Update_words (fuel : nat) (p : SHA3Context) (aData : cptr)
    (nData i : Z) : SHA3Context * Z :=
  match fuel with
  | O => (p, i)
  | S fuel' =>
      if u32 (i + 7) <? nData then
        SHA3Update_words fuel' (SHA3Update_word p (load_u64 pf aData i)) aData
          nData (u32 (i + 8))
      else (p, i)
  end.

(** The index of the byte that takes the next byte of input. *)
Definition next_index (p : SHA3Context) : Z :=
  if SHA3_BYTEORDER pf =? 1234 then nLoaded p
  else if SHA3_BYTEORDER pf =? 4321 then Z.lxor (nLoaded p) 0x07
  else Z.lxor (nLoaded p) (ixMask p).

(** One turn of the second loop of [SHA3Update]. *)
Definition SHA3Update_byte (p : SHA3Context) (b : Z) : SHA3Context :=
  let k := next_index p in
  let p := x_set pf p k (x_get pf p k .^ b) in
  let p := set_nLoaded p (u32 (nLoaded p + 1)) in
  if nLoaded p =? nRate p then set_nLoaded (KeccakF1600Step p) 0 else p.

(** The second loop of [SHA3Update]: byte by byte. *)
Fixpoint SHA3Update_bytes (fuel : nat) (p : SHA3Context) (aData : cptr)
    (nData i : Z) : SHA3Context :=
  match fuel with
  | O => p
  | S fuel' =>
      if i <? nData then
        SHA3Update_bytes fuel' (SHA3Update_byte p (deref aData i)) aData nData
          (u32 (i + 1))
      else p
  end.

(** [SHA3Update(p, aData, nData)] *)
Definition SHA3Update (p : SHA3Context) (aData : cptr) (nData : Z)
    : SHA3Context :=
  let i := 0 in
  let '(p, i) :=
    if SHA3_BYTEORDER pf =? 1234 then
      if (nLoaded p mod 8 =? 0) && aligned8 aData then
        SHA3Update_words (Z.to_nat nData) p aData nData i
      else (p, i)
    else (p, i) in
  SHA3Update_bytes (Z.to_nat nData) p aData nData i.

(** The loop of [SHA3Final] that copies the hash behind the rate. *)
Fixpoint SHA3Final_copy (fuel : nat) (p : SHA3Context) (i : Z) : SHA3Context :=
  match fuel with
  | O => p
  | S fuel' =>
      if i <? nRate p then
        SHA3Final_copy fuel'
          (x_set pf p (i + nRate p) (x_get pf p (Z.lxor i (ixMask p))))
          (u32 (i + 1))
      else p
  end.

(** The padding at the head of [SHA3Final]. *)
Definition SHA3Final_pad (p : SHA3Context) : SHA3Context :=
  if nLoaded p =? u32 (nRate p - 1) then
    let c1 := Ptr (local_aligned "c1") [x86] in
    SHA3Update p c1 1
  else
    let c2 := Ptr (local_aligned "c2") [x06] in
    let c3 := Ptr (local_aligned "c3") [x80] in
    let p := SHA3Update p c2 1 in
    let p := set_nLoaded p (u32 (nRate p - 1)) in
    SHA3Update p c3 1.

(** [SHA3Final(p)]: the context it leaves and the offset in [u.x[]] of the
    pointer it returns, [&p->u.x[p->nRate]]. *)
Definition SHA3Final (p : SHA3Context) : SHA3Context * Z :=
  let p := SHA3Final_pad p in
  let p := SHA3Final_copy (Z.to_nat (nRate p)) p 0 in
  (p, nRate p).

(** The hash a caller obtains: [n] bytes at the pointer [SHA3Final]
    returns. *)
Definition SHA3Final_bytes (p : SHA3Context) (n : Z) : list Z :=
  let '(p, h) := SHA3Final p in x_read pf p h n.

(** A hash fed with a sequence of buffers, one call of [SHA3Update] each. *)
Definition SHA3Update_all (p : SHA3Context) (chunks : list (bool * list byte))
    : SHA3Context :=
  fold_left
    (fun p c => SHA3Update p (Ptr (fst c) (snd c)) (Z.of_nat (length (snd c))))
    chunks p.

(** [SHA3Init], [SHA3Update] per buffer, [SHA3Final]: the hash of [iSize]
    bits of the buffers taken together. *)
Definition sha3_of_chunks (iSize : Z) (chunks : list (bool * list byte))
    : list Z :=
  SHA3Final_bytes (SHA3Update_all (SHA3Init iSize) chunks) (iSize / 8).

End HashEngine.

(** ** The sponge as the specification words it *)

Module Sponge.

(** The rate in bytes for an output of [size] bits. *)
Definition rate (size : Z) : Z := (1600 - 2 * size) / 8.

(** Byte [j] of the state, independent of the byte order of the host: lanes
    in order, each from its least significant byte. *)
Definition state_byte (s : list Z) (j : Z) : Z :=
  lane_byte (ld s (Z.to_nat (j / 8))) (j mod 8).

(** XOR the byte [b] into byte [n] of the state. *)
Definition xor_byte (s : list Z) (n b : Z) : list Z :=
  let k := Z.to_nat (n / 8) in
  st s k (ld s k .^ Z.shiftl b (8 * (n mod 8))).

(** Absorb one byte: XOR it in at the buffered count and advance; when the
    count reaches the rate, permute and start again from 0. *)
Definition absorb_byte (p : SHA3Context) (b : Z) : SHA3Context :=
  let s := xor_byte (u_s p) (nLoaded p) b in
  if nLoaded p + 1 =? nRate p then
    mkSHA3Context (KeccakF1600_lanes s) (u_x_hi p) (nRate p) 0 (ixMask p)
      (S (nStep p))
  else
    mkSHA3Context s (u_x_hi p) (nRate p) (nLoaded p + 1) (ixMask p) (nStep p).

Definition absorb (p : SHA3Context) (data : list byte) : SHA3Context :=
  fold_left (fun p b => absorb_byte p (byte_val b)) data p.

(** The padding of finalize: 0x86 in the last byte of the block when only
    that byte is free, else 0x06 at the buffered count and 0x80 in the last
    byte; then the permutation. *)
Definition pad (p : SHA3Context) : SHA3Context :=
  if nLoaded p =? nRate p - 1 then absorb_byte p 0x86
  else absorb_byte (set_nLoaded (absorb_byte p 0x06) (nRate p - 1)) 0x80.

(** The digest: the first [n] bytes of the state. *)
Definition squeeze (s : list Z) (n : Z) : list Z :=
  map (fun j => state_byte s (Z.of_nat j)) (seq 0 (Z.to_nat n)).

End Sponge.

Definition is_byte (b : Z) : Prop := 0 <= b < 256.

Definition valid_size (size : Z) : Prop :=
  size = 224 \/ size = 256 \/ size = 384 \/ size = 512.

(** A rate that [SHA3Init] can set: a whole number of lanes within the
    state. *)
Definition rate_ok (r : Z) : Prop := 0 < r <= 200 /\ r mod 8 = 0.

(** The mask that turns an index into the address of its byte on the host. *)
Definition host_mask (pf : platform) : Z := if big_endian pf then 7 else 0.

(** The state of a hash in progress between two calls. *)
Definition ctx_ok (pf : platform) (p : SHA3Context) : Prop :=
  state_ok (u_s p) /\
  length (u_x_hi p) = 1400%nat /\
  rate_ok (nRate p) /\
  0 <= nLoaded p < nRate p /\
  ixMask p = host_mask pf.

(** The union [u] has its 25 lanes and its 1600 bytes. *)
Definition mem_ok (p : SHA3Context) : Prop :=
  length (u_s p) = 25%nat /\ length (u_x_hi p) = 1400%nat.

(** The bound on the count of loaded bytes that every call keeps. *)
Definition loaded_ok (p : SHA3Context) : Prop :=
  0 <= nLoaded p < nRate p /\ nRate p < 2 ^ 32.

(** A buffer as [SHA3Update] takes it: its length fits [unsigned int]. *)
Definition chunk_ok (c : bool * list byte) : Prop :=
  Z.of_nat (length (snd c)) < 2 ^ 32.

(** Bytes written as hexadecimal digits, two per byte. *)
Definition hex_digit (c : ascii) : Z :=
  let n := Z.of_nat (nat_of_ascii c) in
  if n <? 58 then n - 48 else n - 87.

Fixpoint hex_bytes (s : string) : list Z :=
  match s with
  | String a (String b r) => (16 * hex_digit a + hex_digit b) :: hex_bytes r
  | _ => []
  end.

(** The published SHA3 digests of the empty input and of "abc". *)
Module Digest.

Definition sha3_224_empty : list Z :=
  hex_bytes ("6b4e03423667dbb73b6e15454f0eb1abd4597f9a1b078e3f5b5a6bc7").

Definition sha3_224_abc : list Z :=
  hex_bytes ("e642824c3f8cf24ad09234ee7d3c766fc9a3a5168d0c94ad73b46fdf").

Definition sha3_256_empty : list Z :=
  hex_bytes ("a7ffc6f8bf1ed76651c14756a061d662f580ff4de43b49fa82d80a4b80f8434a").

Definition sha3_256_abc : list Z :=
  hex_bytes ("3a985da74fe225b2045c172d6bd390bd855f086e3e9d525b46bfe24511431532").

Definition sha3_384_empty : list Z :=
  hex_bytes ("0c63a75b845e4f7d01107d852e4c2485c51a50aaaa94fc61995e71bbee983a2a" ++
             "c3713831264adb47fb6bd1e058d5f004").

Definition sha3_384_abc : list Z :=
  hex_bytes ("ec01498288516fc926459f58e2c6ad8df9b473cb0fc08c2596da7cf0e49be4b2" ++
             "98d88cea927ac7f539f1edf228376d25").

Definition sha3_512_empty : list Z :=
  hex_bytes ("a69f73cca23a9ac5c8b567dc185a756e97c982164fe25859e0d1dcc1475c80a6" ++
             "15b2123af1f5f94c11e3e9402c3ac558f500199d95b6d3e301758586281dcd26").

Definition sha3_512_abc : list Z :=
  hex_bytes ("b751850b1a57168a5693cd924b6b096e08f621827444f70d884f5d0240d2712e" ++
             "10e116e9192af3c91a7ec57647e3934057340b4cf408d5a56592f8274eec53f0").

End Digest.

(** ** The SQL functions

    What the functions see of SQLite is what its interface returns. *)

Inductive sqlite_type : Type :=
  | SQLITE_INTEGER
  | SQLITE_FLOAT
  | SQLITE_TEXT
  | SQLITE_BLOB
  | SQLITE_NULL.

(** An argument ([sqlite3_value]) or a column of the current row, by the
    results of [sqlite3_value_type], [_bytes], [_int] (the C [int] that
    SQLite makes of the value), [_int64], [_double] (its 8 bytes as a
    [u64]), [_blob] and [_text], and of their [sqlite3_column_]
    namesakes. *)
Record sqlite3_value : Type := mk_value {
  value_type : sqlite_type;
  value_bytes : Z;
  value_int : Z;
  value_int64 : Z;
  value_double : Z;
  value_blob : cptr;
  value_text : cptr
}.

Definition null_value : sqlite3_value :=
  mk_value SQLITE_NULL 0 0 0 0 NULL NULL.

(** A prepared statement: [sqlite3_sql], [sqlite3_stmt_readonly],
    [sqlite3_column_count], and the rows that [sqlite3_step] yields before
    it returns something else than [SQLITE_ROW], taken to be finitely
    many. *)
Record sqlite3_stmt : Type := mk_stmt {
  stmt_sql : cptr;
  stmt_readonly : bool;
  stmt_column_count : Z;
  stmt_rows : list (list sqlite3_value)
}.

(** [sqlite3_prepare_v2(db, zSql, -1, &pStmt, &zSql)]: an error code with
    the new [zSql] and [sqlite3_errmsg(db)], or [SQLITE_OK] with a
    statement and the new [zSql], or [SQLITE_OK] with no statement
    ([pStmt] is 0) and the new [zSql], which is what SQLite returns for a
    text that holds no SQL: blanks, a comment, a semicolon. *)
Inductive prepared : Type :=
  | PrepareError (zTail : cptr) (errmsg : list byte)
  | PrepareOk (pStmt : sqlite3_stmt) (zTail : cptr)
  | PrepareNone (zTail : cptr).

(** The database connection, by what preparing a text returns. *)
Record sqlite3 : Type := mk_db {
  sqlite3_prepare_v2 : list byte -> prepared
}.

(** What a function leaves in its [sqlite3_context]: nothing (the SQL value
    NULL), an error ([sqlite3_result_error]) or a blob
    ([sqlite3_result_blob]); or, when the call does not come back, the
    fault that ends it: a null pointer handed to [strlen]. *)
Inductive sql_result : Type :=
  | ResultNull
  | ResultError (msg : list byte)
  | ResultBlob (b : list Z)
  | Fault.

(** The result of a call, and its local [cx] if [SHA3Init] was called. *)
Record outcome : Type := mk_outcome {
  res : sql_result;
  hash : option SHA3Context
}.

(** The result of a call that returns. *)
Definition res_of (o : option outcome) : option sql_result :=
  match o with
  | None => None
  | Some o => Some (res o)
  end.

(** The calls of [KeccakF1600Step] made during a call. *)
Definition permutations (o : outcome) : nat :=
  match hash o with
  | None => 0
  | Some cx => nStep cx
  end.

(** [(unsigned char)z] *)
Definition byte_of_Z (z : Z) : byte :=
  match Byte.of_N (Z.to_N (z mod 256)) with
  | Some b => b
  | None => x00
  end.

(** [strlen] *)
Definition strlen (z : cptr) : Z := Z.of_nat (length (bytes_of z)).

(** The text of [%d]. *)
Definition decimal (n : Z) : list byte :=
  list_byte_of_string (NilZero.string_of_int (Z.to_int n)).

(** [sqlite3_vsnprintf(size, zBuf, zFormat, n)] for the formats in use, a
    text around one [%d]: the text written to [zBuf], cut to fit. *)
Fixpoint format_d (zFormat : list byte) (n : Z) : list byte :=
  match zFormat with
  | "%"%byte :: "d"%byte :: rest => decimal n ++ rest
  | c :: rest => c :: format_d rest n
  | [] => []
  end.

Definition sqlite3_vsnprintf (size : Z) (zFormat : string) (n : Z) : list byte :=
  firstn (Z.to_nat (size - 1)) (format_d (list_byte_of_string zFormat) n).

(** [sqlite3_mprintf] of the two error messages. *)
Definition error_sql_statement (zSql : cptr) (errmsg : list byte) : list byte :=
  list_byte_of_string "error SQL statement [" ++ bytes_of zSql
    ++ list_byte_of_string "]: " ++ errmsg.

Definition non_query (sql : cptr) : list byte :=
  list_byte_of_string "non-query: [" ++ bytes_of sql ++ list_byte_of_string "]".

Definition size_error : list byte :=
  list_byte_of_string ("SHA3 size should be one of: 224 256 " ++ "384 512").

(** The loop [for(j=8; j>=1; j--){ x[j] = u & 0xff; u >>= 8; }]. *)
Fixpoint fill_x (fuel : nat) (x : list byte) (u j : Z) : list byte :=
  match fuel with
  | O => x
  | S fuel' =>
      if 1 <=? j then
        fill_x fuel' (st x (Z.to_nat j) (byte_of_Z (u .& 0xff)))
          (Z.shiftr u 8) (j - 1)
      else x
  end.

(** The array [x[9]] of the cases [SQLITE_INTEGER] and [SQLITE_FLOAT], for
    the 64 bits [v] copied into [u] and the letter put in [x[0]]. *)
Definition segment_x (letter : byte) (v : Z) : list byte :=
  let u := v mod U64.modulus in
  let x := fill_x 8 (repeat x00 9) u 8 in
  st x 0 letter.

(** The value that bytes spell when the first is the most significant. *)
Definition big_endian_value (bs : list byte) : Z :=
  fold_left (fun acc b => acc * 256 + byte_val b) bs 0.

Section SqlFunctions.

Variable pf : platform.
Variable local_aligned : string -> bool.

(** [hash_step_vformat(p, zFormat, n)] *)
Definition hash_step_vformat (p : SHA3Context) (zFormat : string) (n : Z)
    : SHA3Context :=
  let zBuf := Ptr (local_aligned "zBuf") (sqlite3_vsnprintf 50 zFormat n) in
  let n := strlen zBuf in
  SHA3Update pf p zBuf (u32 n).

(** The [switch] on the type of column [i]. *)
Definition hash_column (cx : SHA3Context) (col : sqlite3_value) : SHA3Context :=
  match value_type col with
  | SQLITE_NULL =>
      SHA3Update pf cx (Ptr (local_aligned "N") ["N"%byte]) 1
  | SQLITE_INTEGER =>
      let v := value_int64 col in
      let x := segment_x "I"%byte v in
      SHA3Update pf cx (Ptr (local_aligned "x") x) 9
  | SQLITE_FLOAT =>
      let r := value_double col in
      let x := segment_x "F"%byte r in
      SHA3Update pf cx (Ptr (local_aligned "x") x) 9
  | SQLITE_TEXT =>
      let n2 := value_bytes col in
      let z2 := value_text col in
      let cx := hash_step_vformat cx "T%d:" n2 in
      SHA3Update pf cx z2 (u32 n2)
  | SQLITE_BLOB =>
      let n2 := value_bytes col in
      let z2 := value_blob col in
      let cx := hash_step_vformat cx "B%d:" n2 in
      SHA3Update pf cx z2 (u32 n2)
  end.

(** One turn of [while( SQLITE_ROW==sqlite3_step(pStmt) )]. *)
Definition hash_row (nCol : Z) (cx : SHA3Context) (row : list sqlite3_value)
    : SHA3Context :=
  let cx := SHA3Update pf cx (Ptr (local_aligned "R") ["R"%byte]) 1 in
  fold_left (fun cx i => hash_column cx (nth i row null_value))
    (seq 0 (Z.to_nat nCol)) cx.

(** A read-only statement hashed: its text, then its rows. *)
Definition hash_statement (cx : SHA3Context) (pStmt : sqlite3_stmt)
    : SHA3Context :=
  let nCol := stmt_column_count pStmt in
  let z := stmt_sql pStmt in
  let n := strlen z in
  let cx := hash_step_vformat cx "S%d:" n in
  let cx := SHA3Update pf cx z (u32 n) in
  fold_left (hash_row nCol) (stmt_rows pStmt) cx.

(** [while( zSql[0] ){ ... }] of [sha3QueryFunc]: the error or the fault
    that ends the call, or the context after the last statement; [None]
    when the fuel runs out first.  With no statement, [rc] is 0 and
    [sqlite3_stmt_readonly(0)] is true, so the two [if] are passed;
    [sqlite3_sql(0)] is 0, and [strlen(z)] faults. *)
Fixpoint sha3Query_loop (fuel : nat) (db : sqlite3) (cx : SHA3Context)
    (zSql : cptr) : option (sql_result * SHA3Context + SHA3Context) :=
  match fuel with
  | O => None
  | S fuel' =>
      match bytes_of zSql with
      | [] => Some (inr cx)
      | _ :: _ =>
          match sqlite3_prepare_v2 db (bytes_of zSql) with
          | PrepareError zSql errmsg =>
              Some (inl (ResultError (error_sql_statement zSql errmsg), cx))
          | PrepareOk pStmt zSql =>
              if negb (stmt_readonly pStmt) then
                Some (inl (ResultError (non_query (stmt_sql pStmt)), cx))
              else
                sha3Query_loop fuel' db (hash_statement cx pStmt) zSql
          | PrepareNone zSql => Some (inl (Fault, cx))
          end
      end
  end.

(** [iSize!=224 && iSize!=256 && iSize!=384 && iSize!=512] *)
Definition bad_size (iSize : Z) : bool :=
  negb (iSize =? 224) && negb (iSize =? 256) && negb (iSize =? 384)
  && negb (iSize =? 512).

(** [sha3Func(context, argc, argv)] *)
Definition sha3Func (argc : Z) (argv : list sqlite3_value) : outcome :=
  let eType := value_type (nth 0 argv null_value) in
  let nByte := value_bytes (nth 0 argv null_value) in
  let iSize :=
    if argc =? 1 then 256 else value_int (nth 1 argv null_value) in
  if negb (argc =? 1) && bad_size iSize then
    mk_outcome (ResultError size_error) None
  else
    match eType with
    | SQLITE_NULL => mk_outcome ResultNull None
    | _ =>
        let cx := SHA3Init pf iSize in
        let cx :=
          match eType with
          | SQLITE_BLOB =>
              SHA3Update pf cx (value_blob (nth 0 argv null_value)) (u32 nByte)
          | _ =>
              SHA3Update pf cx (value_text (nth 0 argv null_value)) (u32 nByte)
          end in
        let '(cx, h) := SHA3Final pf local_aligned cx in
        mk_outcome (ResultBlob (x_read pf cx h (Z.quot iSize 8))) (Some cx)
    end.

(** [sha3QueryFunc(context, argc, argv)], [db] being the connection of the
    context. *)
Definition sha3QueryFunc (fuel : nat) (db : sqlite3) (argc : Z)
    (argv : list sqlite3_value) : option outcome :=
  let zSql := value_text (nth 0 argv null_value) in
  let iSize :=
    if argc =? 1 then 256 else value_int (nth 1 argv null_value) in
  if negb (argc =? 1) && bad_size iSize then
    Some (mk_outcome (ResultError size_error) None)
  else
    match zSql with
    | NULL => Some (mk_outcome ResultNull None)
    | Ptr _ _ =>
        let cx := SHA3Init pf iSize in
        match sha3Query_loop fuel db cx zSql with
        | None => None
        | Some (inl (r, cx)) => Some (mk_outcome r (Some cx))
        | Some (inr cx) =>
            let '(cx, h) := SHA3Final pf local_aligned cx in
            Some (mk_outcome (ResultBlob (x_read pf cx h (Z.quot iSize 8)))
                    (Some cx))
        end
    end.

End SqlFunctions.

(** The statements that [sha3QueryFunc] prepares one after the other from
    [zSql], and the text left after them. *)
Fixpoint prepares (db : sqlite3) (zSql : cptr) (stmts : list sqlite3_stmt)
    (rest : cptr) : Prop :=
  match stmts with
  | [] => zSql = rest
  | pStmt :: stmts' =>
      bytes_of zSql <> [] /\
      exists zTail,
        sqlite3_prepare_v2 db (bytes_of zSql) = PrepareOk pStmt zTail /\
        prepares db zTail stmts' rest
  end.

(** Arguments as SQLite passes them: a text, a blob and an integer. *)
Definition text_value (al : bool) (data : list byte) : sqlite3_value :=
  mk_value SQLITE_TEXT (Z.of_nat (length data)) 0 0 0 NULL (Ptr al data).

Definition blob_value (al : bool) (data : list byte) : sqlite3_value :=
  mk_value SQLITE_BLOB (Z.of_nat (length data)) 0 0 0 (Ptr al data) NULL.

Definition int_value (n : Z) : sqlite3_value :=
  mk_value SQLITE_INTEGER 0 n n 0 NULL NULL.

(** [(int)v] of a 64-bit integer [v]: its low 32 bits as a signed number,
    which is what [sqlite3_value_int] returns for an SQL integer. *)
Definition int_of_int64 (v : Z) : Z := (v + 2 ^ 31) mod 2 ^ 32 - 2 ^ 31.

(** The SQL integer [v] as a size argument, of which the functions ask
    [sqlite3_value_int] only. *)
Definition integer_value (v : Z) : sqlite3_value :=
  mk_value SQLITE_INTEGER 0 (int_of_int64 v) v 0 NULL NULL.

(** A connection for examples: every byte of the text is a statement of its
    own, without rows, read-only when the byte is an S. *)
Definition example_db : sqlite3 :=
  mk_db (fun zSql =>
    match zSql with
    | [] => PrepareError NULL []
    | c :: rest =>
        PrepareOk
          (mk_stmt (Ptr false [c]) (Byte.eqb c "S"%byte) 0 [])
          (Ptr false rest)
    end).

(** ** SHA3 over the permutation of the specification

    The hash as a function of the size and of the bytes alone: the sponge
    of the specification over [Spec.keccak_f], without a context and
    without a platform. *)

Module Reference.

(** The state and the count of buffered bytes. *)
Definition sponge : Type := (list Z * Z)%type.

Definition init : sponge := (repeat 0 25, 0).

Definition absorb_byte (rate : Z) (st : sponge) (b : Z) : sponge :=
  let s := Sponge.xor_byte (fst st) (snd st) b in
  if snd st + 1 =? rate then (Spec.keccak_f s, 0) else (s, snd st + 1).

Definition absorb (rate : Z) (st : sponge) (data : list byte) : sponge :=
  fold_left (fun st b => absorb_byte rate st (byte_val b)) data st.

Definition pad (rate : Z) (st : sponge) : sponge :=
  if snd st =? rate - 1 then absorb_byte rate st 0x86
  else absorb_byte rate (fst (absorb_byte rate st 0x06), rate - 1) 0x80.

Definition sha3 (size : Z) (data : list byte) : list Z :=
  let rate := Sponge.rate size in
  Sponge.squeeze (fst (pad rate (absorb rate init data))) (size / 8).

End Reference.

(** ** The stream of bytes of a query

    What [sha3QueryFunc] feeds to the hash for the statements it runs, read
    off its loop: for each statement an S segment and its rows, for each
    row an R and one segment per column. *)

Module Canonical.

(** A letter, a number in decimal and a colon. *)
Definition counted (letter : byte) (n : Z) : list byte :=
  letter :: decimal n ++ [":"%byte].

Definition value (col : sqlite3_value) : list byte :=
  match value_type col with
  | SQLITE_NULL => ["N"%byte]
  | SQLITE_INTEGER => segment_x "I"%byte (value_int64 col)
  | SQLITE_FLOAT => segment_x "F"%byte (value_double col)
  | SQLITE_TEXT => counted "T"%byte (value_bytes col) ++ bytes_of (value_text col)
  | SQLITE_BLOB => counted "B"%byte (value_bytes col) ++ bytes_of (value_blob col)
  end.

Definition row (nCol : Z) (r : list sqlite3_value) : list byte :=
  "R"%byte :: flat_map (fun i => value (nth i r null_value)) (seq 0 (Z.to_nat nCol)).

Definition statement (pStmt : sqlite3_stmt) : list byte :=
  counted "S"%byte (strlen (stmt_sql pStmt))
  ++ bytes_of (stmt_sql pStmt)
  ++ flat_map (row (stmt_column_count pStmt)) (stmt_rows pStmt).

Definition stream (stmts : list sqlite3_stmt) : list byte :=
  flat_map statement stmts.

End Canonical.

(** The number of bytes SQLite reports for a text or a blob is that of the
    buffer it hands out, and fits an [int]. *)
Definition value_wf (col : sqlite3_value) : Prop :=
  match value_type col with
  | SQLITE_TEXT =>
      value_bytes col = Z.of_nat (length (bytes_of (value_text col))) /\
      value_bytes col < 2 ^ 31
  | SQLITE_BLOB =>
      value_bytes col = Z.of_nat (length (bytes_of (value_blob col))) /\
      value_bytes col < 2 ^ 31
  | _ => True
  end.

(** The text of a statement is shorter than [2^31] bytes, so that its
    length fits the [int n], and its rows are as above. *)
Definition stmt_wf (pStmt : sqlite3_stmt) : Prop :=
  strlen (stmt_sql pStmt) < 2 ^ 31 /\
  Forall (Forall value_wf) (stmt_rows pStmt).

(** The buffer of its first argument that [sha3Func] hashes: the blob of a
    blob, the text of every other type. *)
Definition hashed_bytes (X : sqlite3_value) : cptr :=
  match value_type X with
  | SQLITE_BLOB => value_blob X
  | _ => value_text X
  end.

(** Preparing a statement uses up some of the text. *)
Definition consumes (db : sqlite3) : Prop :=
  forall zSql pStmt zTail,
    sqlite3_prepare_v2 db zSql = PrepareOk pStmt zTail ->
    (length (bytes_of zTail) < length zSql)%nat.

(** The number that decimal digits spell. *)
Definition parse_decimal (digits : list byte) : option Z :=
  option_map Z.of_int (NilZero.int_of_string (string_of_list_byte digits)).

(** ** Registration *)

Section Registration.

(** [SQLITE_OK], and [sqlite3_create_function(db, zName, nArg, ...)] by the
    code it returns. *)
Variable SQLITE_OK : Z.
Variable sqlite3_create_function : string -> Z -> Z.

(** [sqlite3_shathree_init(db, pzErrMsg, pApi)]: the code it returns and the
    functions it tried to register, in order. *)
Definition sqlite3_shathree_init : Z * list (string * Z) :=
  let rc := SQLITE_OK in
  let rc := sqlite3_create_function "sha3" 1 in
  let calls := [("sha3"%string, 1)] in
  let '(rc, calls) :=
    if rc =? SQLITE_OK then
      (sqlite3_create_function "sha3" 2, calls ++ [("sha3"%string, 2)])
    else (rc, calls) in
  let '(rc, calls) :=
    if rc =? SQLITE_OK then
      (sqlite3_create_function "sha3_query" 1,
       calls ++ [("sha3_query"%string, 1)])
    else (rc, calls) in
  let '(rc, calls) :=
    if rc =? SQLITE_OK then
      (sqlite3_create_function "sha3_query" 2,
       calls ++ [("sha3_query"%string, 2)])
    else (rc, calls) in
  (rc, calls).

End Registration.

(** The four registrations of [sqlite3_shathree_init]. *)
Definition registrations : list (string * Z) :=
  [("sha3", 1); ("sha3", 2); ("sha3_query", 1); ("sha3_query", 2)]%string.

(** A connection for examples with rows: every byte of the text is a
    read-only statement of three columns and one row, an integer, a text
    and a NULL, but for the byte E, which does not compile, and for a
    blank, which is no statement. *)
Definition example_rows_db : sqlite3 :=
  mk_db (fun zSql =>
    match zSql with
    | [] => PrepareError NULL []
    | c :: rest =>
        if Byte.eqb c "E"%byte then
          PrepareError (Ptr false rest) (list_byte_of_string "syntax error")
        else if Byte.eqb c " "%byte then PrepareNone (Ptr false rest)
        else
          PrepareOk
            (mk_stmt (Ptr false [c]) true 3
               [[int_value 1; text_value false ["x"%byte]; null_value]])
            (Ptr false rest)
    end).
(** * Properties *)

(** ** Words *)

Lemma in_range_mod a : in_range a <-> a mod modulus = a.
Proof.
  unfold in_range, modulus. split; intros H.
  - apply Z.mod_small; exact H.
  - rewrite <- H. apply Z.mod_pos_bound. reflexivity.
Qed.

Lemma in_range_0 : in_range 0.
Proof. unfold in_range, modulus. lia. Qed.

Lemma in_range_lxor a b : in_range a -> in_range b -> in_range (a .^ b).
Proof.
  rewrite !in_range_mod. unfold modulus. intros Ha Hb.
  rewrite <- Ha, <- Hb. Z.bitblast.
Qed.

Lemma in_range_land a b : in_range a -> in_range b -> in_range (a .& b).
Proof.
  rewrite !in_range_mod. unfold modulus. intros Ha Hb.
  rewrite <- Ha, <- Hb. Z.bitblast.
Qed.

Lemma in_range_not64 a : in_range (not64 a).
Proof. unfold not64, in_range, modulus. apply Z.mod_pos_bound. reflexivity. Qed.

Lemma in_range_ROL64 a n : in_range a -> 0 < n < 64 -> in_range (ROL64 a n).
Proof.
  rewrite !in_range_mod. unfold ROL64, modulus. intros Ha Hn.
  rewrite <- Ha. Z.bitblast.
Qed.

Lemma in_range_rol a n : in_range a -> 0 <= n < 64 -> in_range (rol a n).
Proof.
  intros Ha Hn. unfold rol. destruct (Z.eqb_spec n 0) as [->|Hne].
  - exact Ha.
  - apply in_range_ROL64; [exact Ha | lia].
Qed.

(** On 64-bit words the macro [ROL64] is the rotation of the specification. *)
Lemma rotateLeft_rol a n :
  in_range a -> 0 <= n < 64 -> Spec.rotateLeft a n = rol a n.
Proof.
  intros Ha Hn. unfold Spec.rotateLeft, rol.
  destruct (Z.eqb_spec n 0) as [->|Hne].
  - unfold in_range, modulus in Ha. change (2 ^ 0) with 1. change (64 - 0) with 64.
    rewrite Z.mul_1_r, Z.mod_small, Z.div_small by exact Ha. lia.
  - unfold ROL64, modulus.
    rewrite Z.shiftl_mul_pow2, Z.shiftr_div_pow2 by lia.
    symmetry. apply Z.or_to_plus.
    apply in_range_mod in Ha. unfold modulus in Ha. rewrite <- Ha.
    rewrite <- Z.shiftl_mul_pow2, <- !Z.shiftr_div_pow2 by lia.
    Z.bitblast.
    match goal with
    | |- context [Z.testbit a ?l] =>
        rewrite (Z.testbit_neg_r a l) by lia
    end.
    reflexivity.
Qed.

(** Bit [i] of a rotated lane is bit [i - n] (modulo 64) of the lane. *)
Lemma rotateLeft_testbit a n i :
  in_range a -> 0 <= n < 64 -> 0 <= i < 64 ->
  Z.testbit (Spec.rotateLeft a n) i = Z.testbit a ((i - n) mod 64).
Proof.
  intros Ha Hn Hi. rewrite rotateLeft_rol by assumption. unfold rol.
  destruct (Z.eqb_spec n 0) as [->|Hne].
  - rewrite Z.sub_0_r, Z.mod_small by lia. reflexivity.
  - unfold ROL64, modulus.
    rewrite Z.lor_spec, Z.testbit_mod_pow2, Z.shiftr_spec by lia.
    destruct (Z.lt_ge_cases i n) as [Hlt|Hge].
    + replace ((i - n) mod 64) with (i + (64 - n))
        by (apply Z.mod_unique with (q := -1); lia).
      rewrite Z.shiftl_spec_low by lia.
      replace (i <? 64) with true by (symmetry; apply Z.ltb_lt; lia).
      reflexivity.
    + rewrite (Z.mod_small (i - n)) by lia.
      rewrite Z.shiftl_spec by lia.
      replace (i <? 64) with true by (symmetry; apply Z.ltb_lt; lia).
      apply in_range_mod in Ha. unfold modulus in Ha.
      rewrite <- Ha at 2. rewrite Z.testbit_mod_pow2 by lia.
      replace (i + (64 - n) <? 64) with false by (symmetry; apply Z.ltb_ge; lia).
      rewrite orb_false_r. reflexivity.
Qed.

(** ** The permutation *)

Ltac list25 s H :=
  do 25 (destruct s as [|? s]; [discriminate H|]);
  destruct s; [clear H|discriminate H].

(** One unrolled round against one round of the specification, by evaluating
    both on 25 lanes that stay symbolic. *)
Ltac round_by_evaluation s H :=
  match goal with
  | |- context [RC_at ?i] => generalize (RC_at i); intros ?rc
  end;
  list25 s H;
  cbv -[Z.lxor Z.land not64 ROL64]; reflexivity.

Lemma arrange_round0 i s :
  length s = 25%nat ->
  KeccakRound0 i (arrange 0 s) = arrange 1 (Spec.round rol (RC_at i) s).
Proof. intros H. cbv beta delta [KeccakRound0]. round_by_evaluation s H. Qed.

Lemma arrange_round1 i s :
  length s = 25%nat ->
  KeccakRound1 i (arrange 1 s) = arrange 2 (Spec.round rol (RC_at (i + 1)) s).
Proof. intros H. cbv beta delta [KeccakRound1]. round_by_evaluation s H. Qed.

Lemma arrange_round2 i s :
  length s = 25%nat ->
  KeccakRound2 i (arrange 2 s) = arrange 3 (Spec.round rol (RC_at (i + 2)) s).
Proof. intros H. cbv beta delta [KeccakRound2]. round_by_evaluation s H. Qed.

Lemma arrange_round3 i s :
  length s = 25%nat ->
  KeccakRound3 i (arrange 3 s) = arrange 4 (Spec.round rol (RC_at (i + 3)) s).
Proof. intros H. cbv beta delta [KeccakRound3]. round_by_evaluation s H. Qed.

Lemma arrange_identity s : length s = 25%nat -> arrange 0 s = s.
Proof. intros H. list25 s H. reflexivity. Qed.

Lemma length_from_lanes f : length (Spec.from_lanes f) = 25%nat.
Proof. unfold Spec.from_lanes. rewrite length_map, length_seq. reflexivity. Qed.

Lemma length_round rot rc s : length (Spec.round rot rc s) = 25%nat.
Proof. apply length_from_lanes. Qed.

(** The body of the loop is four rounds of the specification, taken with the
    rotation of the code. *)
Lemma KeccakF1600_body_rounds i s :
  length s = 25%nat ->
  KeccakF1600_body i s =
  Spec.rounds rol [RC_at i; RC_at (i + 1); RC_at (i + 2); RC_at (i + 3)] s.
Proof.
  intros H. unfold KeccakF1600_body, Spec.rounds. cbn [fold_left].
  pose proof (arrange_round0 i s H) as E0.
  rewrite (arrange_identity s H) in E0. rewrite E0; clear E0.
  rewrite arrange_round1 by apply length_round.
  rewrite arrange_round2 by apply length_round.
  rewrite arrange_round3 by apply length_round.
  apply (arrange_identity _ (length_round _ _ _)).
Qed.

Lemma rounds_app rot l1 l2 s :
  Spec.rounds rot (l1 ++ l2) s = Spec.rounds rot l2 (Spec.rounds rot l1 s).
Proof. apply fold_left_app. Qed.

Lemma length_rounds rot rcs s :
  length s = 25%nat -> length (Spec.rounds rot rcs s) = 25%nat.
Proof.
  revert s. induction rcs as [|rc rcs IH]; intros s H; [exact H|].
  apply IH, length_round.
Qed.

Lemma KeccakF1600_for_step fuel i s :
  (i < 24)%nat ->
  KeccakF1600_for (S fuel) i s = KeccakF1600_for fuel (i + 4) (KeccakF1600_body i s).
Proof.
  intros H. cbn [KeccakF1600_for].
  apply Nat.ltb_lt in H. rewrite H. reflexivity.
Qed.

Lemma KeccakF1600_for_done fuel i s :
  (24 <= i)%nat -> KeccakF1600_for fuel i s = s.
Proof.
  intros H. destruct fuel; cbn [KeccakF1600_for]; [reflexivity|].
  apply Nat.ltb_ge in H. rewrite H. reflexivity.
Qed.

Lemma KeccakF1600_body_after i rcs s :
  length s = 25%nat ->
  KeccakF1600_body i (Spec.rounds rol rcs s) =
  Spec.rounds rol
    (rcs ++ [RC_at i; RC_at (i + 1); RC_at (i + 2); RC_at (i + 3)]) s.
Proof.
  intros H. rewrite KeccakF1600_body_rounds by (apply length_rounds; exact H).
  symmetry. apply rounds_app.
Qed.

(** The loop runs its body for [i = 0, 4, ..., 20]: 24 rounds with the
    constants [RC[0..23]] in order. *)
Lemma KeccakF1600_lanes_rounds s :
  length s = 25%nat -> KeccakF1600_lanes s = Spec.rounds rol RC s.
Proof.
  intros H. unfold KeccakF1600_lanes.
  do 6 (rewrite KeccakF1600_for_step by (cbn [Nat.add]; lia); cbn [Nat.add]).
  rewrite KeccakF1600_for_done by lia.
  rewrite (KeccakF1600_body_rounds 0 s H).
  rewrite (KeccakF1600_body_after 4 _ s H).
  rewrite (KeccakF1600_body_after 8 _ s H).
  rewrite (KeccakF1600_body_after 12 _ s H).
  rewrite (KeccakF1600_body_after 16 _ s H).
  rewrite (KeccakF1600_body_after 20 _ s H).
  f_equal.
Qed.

(** *** The rounds keep 64-bit lanes, where both rotations agree *)

Lemma nth_Forall {A} (P : A -> Prop) l d n :
  Forall P l -> P d -> P (nth n l d).
Proof.
  intros Hl Hd. destruct (nth_in_or_default n l d) as [Hin | ->]; [|exact Hd].
  rewrite Forall_forall in Hl. apply Hl, Hin.
Qed.

Lemma lane_in_range s x y : Forall in_range s -> in_range (Spec.lane s x y).
Proof.
  intros H. unfold Spec.lane.
  apply (nth_Forall in_range); [exact H | exact in_range_0].
Qed.

Create HintDb u64 discriminated.
#[local] Hint Resolve in_range_0 in_range_lxor in_range_land in_range_not64
  lane_in_range : u64.

Lemma from_lanes_ext f g :
  (forall x y, (x < 5)%nat -> (y < 5)%nat -> f x y = g x y) ->
  Spec.from_lanes f = Spec.from_lanes g.
Proof.
  intros H. apply map_ext_in. intros k Hk. apply in_seq in Hk.
  apply H; [apply Nat.mod_upper_bound; lia | apply Nat.Div0.div_lt_upper_bound; lia].
Qed.

Lemma from_lanes_in_range f :
  (forall x y, (x < 5)%nat -> (y < 5)%nat -> in_range (f x y)) ->
  Forall in_range (Spec.from_lanes f).
Proof.
  intros H. apply Forall_forall. intros a Ha.
  apply in_map_iff in Ha. destruct Ha as (k & <- & Hk). apply in_seq in Hk.
  apply H; [apply Nat.mod_upper_bound; lia | apply Nat.Div0.div_lt_upper_bound; lia].
Qed.

Lemma offsets_bound n : 0 <= nth n Spec.offsets 0 < 64.
Proof.
  apply (nth_Forall (fun r => 0 <= r < 64)); [|lia].
  unfold Spec.offsets. repeat constructor; lia.
Qed.

Lemma RC_in_range : Forall in_range RC.
Proof. unfold RC, in_range, modulus. repeat constructor; lia. Qed.

Lemma parity_in_range s x : Forall in_range s -> in_range (Spec.parity s x).
Proof. intros H. unfold Spec.parity. auto 8 with u64. Qed.

#[local] Hint Resolve parity_in_range : u64.

Lemma theta_agree s :
  Forall in_range s -> Spec.theta Spec.rotateLeft s = Spec.theta rol s.
Proof.
  intros H. apply from_lanes_ext. intros x y _ _. unfold Spec.theta_D.
  rewrite rotateLeft_rol; [reflexivity | apply parity_in_range, H | lia].
Qed.

Lemma theta_in_range s : Forall in_range s -> Forall in_range (Spec.theta rol s).
Proof.
  intros H. apply from_lanes_in_range. intros x y _ _.
  apply in_range_lxor; [apply lane_in_range, H|].
  apply in_range_lxor; [apply parity_in_range, H|].
  apply in_range_rol; [apply parity_in_range, H | lia].
Qed.

Lemma rho_agree s :
  Forall in_range s -> Spec.rho Spec.rotateLeft s = Spec.rho rol s.
Proof.
  intros H. apply from_lanes_ext. intros x y _ _.
  apply rotateLeft_rol; [apply lane_in_range, H | apply offsets_bound].
Qed.

Lemma rho_in_range s : Forall in_range s -> Forall in_range (Spec.rho rol s).
Proof.
  intros H. apply from_lanes_in_range. intros x y _ _.
  apply in_range_rol; [apply lane_in_range, H | apply offsets_bound].
Qed.

Lemma pi_in_range s : Forall in_range s -> Forall in_range (Spec.pi s).
Proof.
  intros H. apply from_lanes_in_range. intros x y _ _. apply lane_in_range, H.
Qed.

Lemma chi_in_range s : Forall in_range s -> Forall in_range (Spec.chi s).
Proof.
  intros H. apply from_lanes_in_range. intros x y _ _. auto with u64.
Qed.

Lemma iota_in_range rc s :
  in_range rc -> Forall in_range s -> Forall in_range (Spec.iota rc s).
Proof.
  intros Hrc H. apply from_lanes_in_range. intros x y _ _.
  destruct x, y; auto with u64.
Qed.

Lemma round_agree rc s :
  Forall in_range s -> Spec.round Spec.rotateLeft rc s = Spec.round rol rc s.
Proof.
  intros H. unfold Spec.round.
  rewrite theta_agree by exact H.
  rewrite rho_agree by (apply theta_in_range, H). reflexivity.
Qed.

Lemma round_in_range rc s :
  in_range rc -> Forall in_range s -> Forall in_range (Spec.round rol rc s).
Proof.
  intros Hrc H. unfold Spec.round.
  apply iota_in_range; [exact Hrc|].
  apply chi_in_range, pi_in_range, rho_in_range, theta_in_range, H.
Qed.

Lemma rounds_agree rcs s :
  Forall in_range rcs -> Forall in_range s ->
  Spec.rounds Spec.rotateLeft rcs s = Spec.rounds rol rcs s.
Proof.
  revert s. induction rcs as [|rc rcs IH]; intros s Hrcs H; [reflexivity|].
  inversion Hrcs as [|? ? Hrc Hrcs']; subst.
  unfold Spec.rounds. cbn [fold_left]. rewrite round_agree by exact H.
  apply IH; [exact Hrcs' | apply round_in_range; assumption].
Qed.

Lemma rounds_in_range rcs s :
  Forall in_range rcs -> Forall in_range s ->
  Forall in_range (Spec.rounds rol rcs s).
Proof.
  revert s. induction rcs as [|rc rcs IH]; intros s Hrcs H; [exact H|].
  inversion Hrcs as [|? ? Hrc Hrcs']; subst.
  unfold Spec.rounds. cbn [fold_left].
  apply IH; [exact Hrcs' | apply round_in_range; assumption].
Qed.

Lemma RC_round_constants : RC = Spec.round_constants.
Proof. reflexivity. Qed.

(** The unrolled loop is the 24 rounds of the specification. *)
Lemma KeccakF1600_lanes_correct (s : list Z) :
  state_ok s -> KeccakF1600_lanes s = Spec.keccak_f s.
Proof.
  intros [Hlen Hrange]. unfold Spec.keccak_f.
  rewrite KeccakF1600_lanes_rounds by exact Hlen.
  rewrite <- RC_round_constants.
  symmetry. apply rounds_agree; [exact RC_in_range | exact Hrange].
Qed.

(** C1. On every context whose state is 1600 bits (25 lanes of 64 bits),
    [KeccakF1600Step] leaves in the state exactly the 24 rounds of
    Keccak-f[1600] as the specification defines them (Theta, Rho with its
    table of offsets, Pi, Chi, and Iota with the 24 round constants in round
    order) and changes nothing else of the context. *)
Theorem KeccakF1600Step_correct (p : SHA3Context) :
  state_ok (u_s p) ->
  u_s (KeccakF1600Step p) = Spec.keccak_f (u_s p) /\
  u_x_hi (KeccakF1600Step p) = u_x_hi p /\
  nRate (KeccakF1600Step p) = nRate p /\
  nLoaded (KeccakF1600Step p) = nLoaded p /\
  ixMask (KeccakF1600Step p) = ixMask p.
Proof.
  intros H. cbn [KeccakF1600Step u_s u_x_hi nRate nLoaded ixMask].
  rewrite (KeccakF1600_lanes_correct _ H). repeat split.
Qed.

(** The specification on the state of zeros gives the published value of
    the permutation. *)
Lemma keccak_f_zero_state :
  Spec.keccak_f (repeat 0 25) =
  [ 0xF1258F7940E1DDE7; 0x84D5CCF933C0478A; 0xD598261EA65AA9EE;
    0xBD1547306F80494D; 0x8B284E056253D057; 0xFF97A42D7F8E6FD4;
    0x90FEE5A0A44647C4; 0x8C5BDA0CD6192E76; 0xAD30A6F71B19059C;
    0x30935AB7D08FFC64; 0xEB5AA93F2317D635; 0xA9A6E6260D712103;
    0x81A57C16DBCF555F; 0x43B831CD0347C826; 0x01F22F1A11A5569F;
    0x05E5635A21D9AE61; 0x64BEFEF28CC970F2; 0x613670957BC46611;
    0xB87C5A554FD00ECB; 0x8C3EE88A1CCF32C8; 0x940C7922AE3A2614;
    0x1841F924A2C509E4; 0x16F53526E70465C2; 0x75F644E97F30A13B;
    0xEAF1FF7B5CECA249 ].
Proof. vm_compute. reflexivity. Qed.

Lemma KeccakF1600_lanes_state_ok s :
  state_ok s -> state_ok (KeccakF1600_lanes s).
Proof.
  intros [Hlen Hrange]. rewrite KeccakF1600_lanes_rounds by exact Hlen. split.
  - apply length_rounds, Hlen.
  - apply rounds_in_range; [exact RC_in_range | exact Hrange].
Qed.

(** ** Lanes and bytes *)

(** Bit-blasting, with the bits at negative positions read as 0. *)
Ltac bits :=
  Z.bitblast;
  repeat match goal with
         | |- context [Z.testbit ?a ?l] => rewrite (Z.testbit_neg_r a l) by lia
         end;
  try reflexivity; try btauto.

Lemma length_st {A} (s : list A) k v : length (st s k v) = length s.
Proof.
  revert k. induction s as [|a s IH]; intros [|k]; cbn; try reflexivity.
  rewrite IH. reflexivity.
Qed.

Lemma ld_st_same s k v : (k < length s)%nat -> ld (st s k v) k = v.
Proof.
  unfold ld. revert k. induction s as [|a s IH]; intros [|k] H; cbn in *; try lia.
  apply IH. lia.
Qed.

Lemma ld_st_other s k k' v : k <> k' -> ld (st s k v) k' = ld s k'.
Proof.
  unfold ld. revert k k'.
  induction s as [|a s IH]; intros [|k] [|k'] H; cbn; try reflexivity; try lia.
  apply IH. lia.
Qed.

Lemma st_st_same {A} (s : list A) k v v' : st (st s k v) k v' = st s k v'.
Proof.
  revert k. induction s as [|a s IH]; intros [|k]; cbn; try reflexivity.
  rewrite IH. reflexivity.
Qed.

Lemma Forall_st (P : Z -> Prop) s k v : Forall P s -> P v -> Forall P (st s k v).
Proof.
  intros Hs Hv. revert k.
  induction Hs as [|a s Ha Hs IH]; intros [|k]; cbn; constructor; auto.
Qed.

Lemma state_ok_st s k v : state_ok s -> in_range v -> state_ok (st s k v).
Proof.
  intros [Hlen Hs] Hv. split; [rewrite length_st; exact Hlen | apply Forall_st; assumption].
Qed.

Lemma is_byte_mod b : is_byte b <-> b mod 2 ^ 8 = b.
Proof.
  unfold is_byte. change (2 ^ 8) with 256. split; intros H.
  - apply Z.mod_small; exact H.
  - rewrite <- H. apply Z.mod_pos_bound. reflexivity.
Qed.

Lemma is_byte_byte_val b : is_byte (byte_val b).
Proof.
  unfold is_byte, byte_val. pose proof (Byte.to_N_bounded b). lia.
Qed.

Lemma is_byte_deref a i : is_byte (deref a i).
Proof. apply is_byte_byte_val. Qed.

Lemma is_byte_lane_byte w j : 0 <= j -> is_byte (lane_byte w j).
Proof.
  intros Hj. apply is_byte_mod. unfold lane_byte.
  change 0xff with (Z.ones 8). rewrite Z.land_ones by lia.
  apply Z.mod_mod. lia.
Qed.

Lemma is_byte_lxor a b : is_byte a -> is_byte b -> is_byte (a .^ b).
Proof.
  rewrite !is_byte_mod. intros Ha Hb. rewrite <- Ha, <- Hb. Z.bitblast.
Qed.

(** XOR-ing a byte into a lane through the byte view of the union is
    XOR-ing the shifted byte into the lane. *)
Lemma lane_xor_byte w j b :
  0 <= j -> is_byte b ->
  lane_set_byte w j (lane_byte w j .^ b) = w .^ Z.shiftl b (8 * j).
Proof.
  intros Hj Hb. apply is_byte_mod in Hb. rewrite <- Hb.
  unfold lane_set_byte, lane_byte. change 0xff with (Z.ones 8). bits.
Qed.

Lemma lane_byte_set_same w j v :
  0 <= j -> is_byte v -> lane_byte (lane_set_byte w j v) j = v.
Proof.
  intros Hj Hv. apply is_byte_mod in Hv. rewrite <- Hv.
  unfold lane_set_byte, lane_byte. change 0xff with (Z.ones 8). bits.
Qed.

Lemma lane_byte_set_other w j j' v :
  0 <= j -> 0 <= j' -> j <> j' -> is_byte v ->
  lane_byte (lane_set_byte w j v) j' = lane_byte w j'.
Proof.
  intros Hj Hj' Hne Hv. apply is_byte_mod in Hv. rewrite <- Hv.
  unfold lane_set_byte, lane_byte. change 0xff with (Z.ones 8). bits.
Qed.

Lemma in_range_lane_set_byte w j v :
  in_range w -> 0 <= j < 8 -> is_byte v -> in_range (lane_set_byte w j v).
Proof.
  intros Hw Hj Hv. apply is_byte_mod in Hv. rewrite <- Hv.
  apply in_range_mod in Hw. unfold modulus in *. rewrite <- Hw.
  apply in_range_mod. unfold modulus.
  unfold lane_set_byte. change 0xff with (Z.ones 8). bits.
Qed.

Lemma in_range_shifted_byte b j :
  is_byte b -> 0 <= j < 8 -> in_range (Z.shiftl b (8 * j)).
Proof.
  intros Hb Hj. apply is_byte_mod in Hb. rewrite <- Hb.
  apply in_range_mod. unfold modulus. bits.
Qed.

(** *** Indices under the byte-order mask *)

Lemma lxor_7_div n : 0 <= n -> Z.lxor n 7 / 8 = n / 8.
Proof.
  intros Hn. change 8 with (2 ^ 3). rewrite <- !Z.shiftr_div_pow2 by lia.
  change 7 with (Z.ones 3). bits.
Qed.

Lemma lxor_7_mod n : 0 <= n -> Z.lxor n 7 mod 8 = 7 - n mod 8.
Proof.
  intros Hn. change 8 with (2 ^ 3). rewrite <- !Z.land_ones by lia.
  replace (Z.lxor n 7 .& Z.ones 3) with (Z.lxor (n .& Z.ones 3) 7)
    by (change 7 with (Z.ones 3); bits).
  rewrite Z.land_ones by lia. change (2 ^ 3) with 8.
  pose proof (Z.mod_pos_bound n 8 eq_refl) as Hr.
  assert (n mod 8 = 0 \/ n mod 8 = 1 \/ n mod 8 = 2 \/ n mod 8 = 3 \/
          n mod 8 = 4 \/ n mod 8 = 5 \/ n mod 8 = 6 \/ n mod 8 = 7) as H by lia.
  repeat (destruct H as [-> | H]; [reflexivity|]). rewrite H. reflexivity.
Qed.

Lemma lxor_7_bound n r : 0 <= n < r -> r mod 8 = 0 -> 0 <= Z.lxor n 7 < r.
Proof.
  intros Hn Hr.
  pose proof (lxor_7_div n (proj1 Hn)) as Hd.
  pose proof (lxor_7_mod n (proj1 Hn)) as Hm.
  pose proof (Z.div_mod (Z.lxor n 7) 8 ltac:(lia)) as E.
  pose proof (Z.div_mod n 8 ltac:(lia)) as En.
  pose proof (Z.div_mod r 8 ltac:(lia)) as Er.
  pose proof (Z.mod_pos_bound n 8 eq_refl).
  lia.
Qed.

Section Platform.

Variable pf : platform.

Lemma mask_div n : 0 <= n -> Z.lxor n (host_mask pf) / 8 = n / 8.
Proof.
  intros Hn. unfold host_mask. destruct (big_endian pf);
    [apply lxor_7_div, Hn | rewrite Z.lxor_0_r; reflexivity].
Qed.

Lemma mask_bound n r : 0 <= n < r -> r mod 8 = 0 -> 0 <= Z.lxor n (host_mask pf) < r.
Proof.
  intros Hn Hr. unfold host_mask. destruct (big_endian pf);
    [apply lxor_7_bound; assumption | rewrite Z.lxor_0_r; exact Hn].
Qed.

(** The byte at address [n ^ ixMask] is byte [n mod 8] of its lane, counted
    from the least significant one, whatever the byte order of the host. *)
Lemma byte_pos_mask n : 0 <= n -> byte_pos pf (Z.lxor n (host_mask pf)) = n mod 8.
Proof.
  intros Hn. unfold byte_pos, host_mask. destruct (big_endian pf).
  - rewrite lxor_7_mod by exact Hn. lia.
  - rewrite Z.lxor_0_r. reflexivity.
Qed.

Lemma byte_pos_bound k : 0 <= byte_pos pf k < 8.
Proof.
  unfold byte_pos. pose proof (Z.mod_pos_bound k 8 eq_refl).
  destruct (big_endian pf); lia.
Qed.

Lemma next_index_mask p :
  ctx_ok pf p -> next_index pf p = Z.lxor (nLoaded p) (host_mask pf).
Proof.
  intros (_ & _ & _ & _ & Hm). unfold next_index, host_mask.
  destruct pf; cbn in *; rewrite ?Hm, ?Z.lxor_0_r; reflexivity.
Qed.

(** One turn of the byte loop is one byte absorbed. *)
Lemma SHA3Update_byte_absorb p b :
  ctx_ok pf p -> is_byte b -> SHA3Update_byte pf p b = Sponge.absorb_byte p b.
Proof.
  intros Hok Hb. pose proof Hok as (Hs & Hhi & (Hr & Hr8) & Hn & Hm).
  unfold SHA3Update_byte, Sponge.absorb_byte, Sponge.xor_byte.
  rewrite (next_index_mask p Hok).
  pose proof (mask_bound (nLoaded p) (nRate p) Hn Hr8) as Hk.
  unfold x_set, x_get.
  replace (Z.lxor (nLoaded p) (host_mask pf) <? 200) with true
    by (symmetry; apply Z.ltb_lt; lia).
  rewrite mask_div, byte_pos_mask by lia.
  rewrite lane_xor_byte by (try apply Z.mod_pos_bound; lia || assumption).
  cbn [nLoaded nRate set_nLoaded set_u_s u_s u_x_hi ixMask nStep].
  unfold u32. rewrite Z.mod_small by lia.
  destruct (nLoaded p + 1 =? nRate p); reflexivity.
Qed.

End Platform.

(** ** Absorbing *)

Opaque KeccakF1600_lanes.

Section Absorb.

Variable pf : platform.

Lemma is_byte_in_range b : is_byte b -> in_range b.
Proof. unfold is_byte, in_range, modulus. lia. Qed.

Lemma ld_in_range s k : Forall in_range s -> in_range (ld s k).
Proof. intros H. apply (nth_Forall in_range); [exact H | exact in_range_0]. Qed.

Lemma xor_byte_state_ok s n b :
  state_ok s -> is_byte b -> state_ok (Sponge.xor_byte s n b).
Proof.
  intros Hs Hb. unfold Sponge.xor_byte. apply state_ok_st; [exact Hs|].
  apply in_range_lxor; [apply ld_in_range, Hs|].
  apply in_range_shifted_byte; [exact Hb | apply Z.mod_pos_bound; lia].
Qed.

Lemma absorb_byte_ok p b :
  ctx_ok pf p -> is_byte b -> ctx_ok pf (Sponge.absorb_byte p b).
Proof.
  intros (Hs & Hhi & Hr & Hn & Hm) Hb. unfold Sponge.absorb_byte.
  pose proof (xor_byte_state_ok _ (nLoaded p) _ Hs Hb) as Hs'.
  destruct Hr as (Hr & Hr8).
  destruct (Z.eqb_spec (nLoaded p + 1) (nRate p)); unfold ctx_ok, rate_ok; cbn.
  - apply KeccakF1600_lanes_state_ok in Hs'. destruct Hs'.
    repeat split; assumption || lia.
  - destruct Hs'. repeat split; assumption || lia.
Qed.

Lemma absorb_ok p data : ctx_ok pf p -> ctx_ok pf (Sponge.absorb p data).
Proof.
  revert p. induction data as [|b data IH]; intros p Hp; [exact Hp|].
  apply IH, absorb_byte_ok; [exact Hp | apply is_byte_byte_val].
Qed.

Lemma absorb_app p d1 d2 :
  Sponge.absorb p (d1 ++ d2) = Sponge.absorb (Sponge.absorb p d1) d2.
Proof. apply fold_left_app. Qed.

Lemma nRate_absorb_byte p b : nRate (Sponge.absorb_byte p b) = nRate p.
Proof. unfold Sponge.absorb_byte. destruct (_ =? _); reflexivity. Qed.

Lemma nRate_absorb p data : nRate (Sponge.absorb p data) = nRate p.
Proof.
  revert p. induction data as [|b data IH]; intros p; [reflexivity|].
  cbn. unfold Sponge.absorb in IH. rewrite IH. apply nRate_absorb_byte.
Qed.

(** The second loop absorbs the bytes from [a[i]] on, one by one. *)
Lemma SHA3Update_bytes_absorb al data fuel : forall p (k : nat),
  ctx_ok pf p ->
  Z.of_nat (length data) < 2 ^ 32 ->
  (length data <= k + fuel)%nat ->
  SHA3Update_bytes pf fuel p (Ptr al data) (Z.of_nat (length data)) (Z.of_nat k)
  = Sponge.absorb p (skipn k data).
Proof.
  induction fuel as [|fuel IH]; intros p k Hp Hlen Hfuel.
  - rewrite skipn_all2 by lia. reflexivity.
  - cbn [SHA3Update_bytes].
    destruct (Z.ltb_spec (Z.of_nat k) (Z.of_nat (length data))) as [Hlt|Hge].
    + assert (Hk : (k < length data)%nat) by lia.
      rewrite (SHA3Update_byte_absorb pf p _ Hp (is_byte_deref _ _)).
      unfold u32. rewrite Z.mod_small by lia.
      replace (Z.of_nat k + 1) with (Z.of_nat (S k)) by lia.
      rewrite IH; [|apply absorb_byte_ok; [exact Hp | apply is_byte_deref]|exact Hlen|lia].
      unfold deref. cbn [bytes_of]. rewrite Nat2Z.id.
      destruct (skipn k data) as [|b rest] eqn:E.
      * apply (f_equal (@length _)) in E. rewrite length_skipn in E. cbn in E. lia.
      * pose proof (nth_skipn k data 0 x00) as Hn0. rewrite E in Hn0. cbn in Hn0.
        rewrite Nat.add_0_r in Hn0. subst b.
        assert (Es : skipn (S k) data = rest).
        { change (S k) with (1 + k)%nat. rewrite <- skipn_skipn, E. reflexivity. }
        rewrite Es. reflexivity.
    + rewrite skipn_all2 by lia. reflexivity.
Qed.

End Absorb.

(** *** The word loop *)

Lemma skipn_cons {A} (d : A) k l :
  (k < length l)%nat -> skipn k l = nth k l d :: skipn (S k) l.
Proof.
  revert k. induction l as [|a l IH]; intros [|k] H; cbn in *; try lia.
  - reflexivity.
  - apply IH. lia.
Qed.

Lemma shifted_byte_bit_out b j l :
  is_byte b -> 0 <= j -> ~ (8 * j <= l < 8 * j + 8) ->
  Z.testbit (Z.shiftl b (8 * j)) l = false.
Proof.
  intros Hb Hj Hl. apply is_byte_mod in Hb. rewrite <- Hb.
  destruct (Z.lt_ge_cases l 0) as [Hneg|Hpos]; [apply Z.testbit_neg_r, Hneg|].
  rewrite Z.shiftl_spec by lia.
  destruct (Z.lt_ge_cases (l - 8 * j) 0) as [Hlow|Hhigh];
    [apply Z.testbit_neg_r, Hlow|].
  rewrite Z.testbit_mod_pow2 by lia.
  replace (l - 8 * j <? 8) with false by (symmetry; apply Z.ltb_ge; lia).
  reflexivity.
Qed.

Ltac clear_other_bytes l :=
  repeat match goal with
         | |- context [Z.testbit (Z.shiftl ?b (8 * ?j)) l] =>
             rewrite (shifted_byte_bit_out b j l) by (assumption || lia)
         end.

(** XOR-ing eight bytes into the bytes of a lane, one after the other, is
    XOR-ing the little-endian word they form into the lane. *)
Lemma xor_word w b0 b1 b2 b3 b4 b5 b6 b7 :
  is_byte b0 -> is_byte b1 -> is_byte b2 -> is_byte b3 ->
  is_byte b4 -> is_byte b5 -> is_byte b6 -> is_byte b7 ->
  w .^ Z.shiftl b0 (8 * 0) .^ Z.shiftl b1 (8 * 1) .^ Z.shiftl b2 (8 * 2)
    .^ Z.shiftl b3 (8 * 3) .^ Z.shiftl b4 (8 * 4) .^ Z.shiftl b5 (8 * 5)
    .^ Z.shiftl b6 (8 * 6) .^ Z.shiftl b7 (8 * 7)
  = w .^ Z.lor (Z.shiftl b0 (8 * 0)) (Z.lor (Z.shiftl b1 (8 * 1))
         (Z.lor (Z.shiftl b2 (8 * 2)) (Z.lor (Z.shiftl b3 (8 * 3))
         (Z.lor (Z.shiftl b4 (8 * 4)) (Z.lor (Z.shiftl b5 (8 * 5))
         (Z.lor (Z.shiftl b6 (8 * 6)) (Z.lor (Z.shiftl b7 (8 * 7)) 0))))))).
Proof.
  intros H0 H1 H2 H3 H4 H5 H6 H7.
  apply Z.bits_inj'. intros l Hl.
  rewrite ?Z.lxor_spec, ?Z.lor_spec, ?Z.testbit_0_l.
  assert (l < 8 * 0 + 8 \/ 8 * 1 <= l < 8 * 1 + 8 \/ 8 * 2 <= l < 8 * 2 + 8 \/
          8 * 3 <= l < 8 * 3 + 8 \/ 8 * 4 <= l < 8 * 4 + 8 \/
          8 * 5 <= l < 8 * 5 + 8 \/ 8 * 6 <= l < 8 * 6 + 8 \/
          8 * 7 <= l < 8 * 7 + 8 \/ 8 * 7 + 8 <= l) as Hcase by lia.
  repeat (destruct Hcase as [Hcase|Hcase]; [clear_other_bytes l; btauto|]).
  clear_other_bytes l. btauto.
Qed.

Lemma xor_byte_at s m q j b :
  m = 8 * q + j -> 0 <= j < 8 ->
  Sponge.xor_byte s m b =
  st s (Z.to_nat q) (ld s (Z.to_nat q) .^ Z.shiftl b (8 * j)).
Proof.
  intros -> Hj. unfold Sponge.xor_byte.
  replace ((8 * q + j) / 8) with q
    by (apply Z.div_unique with (r := j); lia).
  replace ((8 * q + j) mod 8) with j
    by (apply Z.mod_unique with (q := q); lia).
  reflexivity.
Qed.

Lemma absorb_byte_inner s hi r n m c b :
  n + 1 <> r ->
  Sponge.absorb_byte (mkSHA3Context s hi r n m c) b =
  mkSHA3Context (Sponge.xor_byte s n b) hi r (n + 1) m c.
Proof.
  intros H. unfold Sponge.absorb_byte. cbn.
  apply Z.eqb_neq in H. rewrite H. reflexivity.
Qed.

Section Words.

Variable pf : platform.
Hypothesis little : big_endian pf = false.

Lemma load_u64_little a i :
  load_u64 pf a i =
  Z.lor (Z.shiftl (deref a (i + 0)) (8 * 0)) (Z.lor (Z.shiftl (deref a (i + 1)) (8 * 1))
 (Z.lor (Z.shiftl (deref a (i + 2)) (8 * 2)) (Z.lor (Z.shiftl (deref a (i + 3)) (8 * 3))
 (Z.lor (Z.shiftl (deref a (i + 4)) (8 * 4)) (Z.lor (Z.shiftl (deref a (i + 5)) (8 * 5))
 (Z.lor (Z.shiftl (deref a (i + 6)) (8 * 6)) (Z.lor (Z.shiftl (deref a (i + 7)) (8 * 7)) 0))))))).
Proof. unfold load_u64, byte_pos. rewrite little. reflexivity. Qed.

(** One turn of the word loop absorbs the eight bytes of the word. *)
Lemma SHA3Update_word_absorb p b0 b1 b2 b3 b4 b5 b6 b7 :
  ctx_ok pf p -> nLoaded p mod 8 = 0 ->
  is_byte b0 -> is_byte b1 -> is_byte b2 -> is_byte b3 ->
  is_byte b4 -> is_byte b5 -> is_byte b6 -> is_byte b7 ->
  SHA3Update_word p
    (Z.lor (Z.shiftl b0 (8 * 0)) (Z.lor (Z.shiftl b1 (8 * 1))
    (Z.lor (Z.shiftl b2 (8 * 2)) (Z.lor (Z.shiftl b3 (8 * 3))
    (Z.lor (Z.shiftl b4 (8 * 4)) (Z.lor (Z.shiftl b5 (8 * 5))
    (Z.lor (Z.shiftl b6 (8 * 6)) (Z.lor (Z.shiftl b7 (8 * 7)) 0))))))))
  = Sponge.absorb_byte (Sponge.absorb_byte (Sponge.absorb_byte (Sponge.absorb_byte
     (Sponge.absorb_byte (Sponge.absorb_byte (Sponge.absorb_byte (Sponge.absorb_byte
       p b0) b1) b2) b3) b4) b5) b6) b7.
Proof.
  intros (Hs & Hhi & (Hr & Hr8) & Hn & Hm) Hn8 H0 H1 H2 H3 H4 H5 H6 H7.
  destruct p as [s hi r n m c]. cbn [u_s u_x_hi nRate nLoaded ixMask nStep] in *.
  pose proof (Z.div_mod n 8 ltac:(lia)) as En.
  pose proof (Z.div_mod r 8 ltac:(lia)) as Er.
  set (q := n / 8) in *.
  assert (Hq : 0 <= q < 25) by lia.
  assert (Hk : (Z.to_nat q < length s)%nat) by (destruct Hs as [-> _]; lia).
  do 7 (rewrite absorb_byte_inner by lia).
  unfold Sponge.absorb_byte. cbn [u_s u_x_hi nRate nLoaded ixMask nStep].
  rewrite (xor_byte_at _ n q 0), (xor_byte_at _ (n + 1) q 1),
    (xor_byte_at _ (n + 1 + 1) q 2), (xor_byte_at _ (n + 1 + 1 + 1) q 3),
    (xor_byte_at _ (n + 1 + 1 + 1 + 1) q 4),
    (xor_byte_at _ (n + 1 + 1 + 1 + 1 + 1) q 5),
    (xor_byte_at _ (n + 1 + 1 + 1 + 1 + 1 + 1) q 6),
    (xor_byte_at _ (n + 1 + 1 + 1 + 1 + 1 + 1 + 1) q 7) by lia.
  repeat (rewrite ld_st_same by (rewrite ?length_st; exact Hk);
          rewrite st_st_same).
  rewrite xor_word by assumption.
  unfold SHA3Update_word, KeccakF1600Step, set_nLoaded, set_u_s.
  cbn [u_s u_x_hi nRate nLoaded ixMask nStep]. fold q.
  unfold u32. rewrite Z.mod_small by lia.
  destruct (Z.leb_spec r (n + 8)), (Z.eqb_spec (n + 1 + 1 + 1 + 1 + 1 + 1 + 1 + 1) r);
    try lia; [reflexivity | f_equal; lia].
Qed.

End Words.

Lemma absorb_skipn_8 p data (k : nat) :
  (k + 7 < length data)%nat ->
  Sponge.absorb p (skipn k data) =
  Sponge.absorb
    (Sponge.absorb_byte (Sponge.absorb_byte (Sponge.absorb_byte (Sponge.absorb_byte
      (Sponge.absorb_byte (Sponge.absorb_byte (Sponge.absorb_byte (Sponge.absorb_byte
        p (byte_val (nth (k + Z.to_nat 0) data x00)))
          (byte_val (nth (k + Z.to_nat 1) data x00)))
          (byte_val (nth (k + Z.to_nat 2) data x00)))
          (byte_val (nth (k + Z.to_nat 3) data x00)))
          (byte_val (nth (k + Z.to_nat 4) data x00)))
          (byte_val (nth (k + Z.to_nat 5) data x00)))
          (byte_val (nth (k + Z.to_nat 6) data x00)))
          (byte_val (nth (k + Z.to_nat 7) data x00)))
    (skipn (k + 8) data).
Proof.
  intros H.
  change (Z.to_nat 0) with 0%nat. change (Z.to_nat 1) with 1%nat.
  change (Z.to_nat 2) with 2%nat. change (Z.to_nat 3) with 3%nat.
  change (Z.to_nat 4) with 4%nat. change (Z.to_nat 5) with 5%nat.
  change (Z.to_nat 6) with 6%nat. change (Z.to_nat 7) with 7%nat.
  rewrite (skipn_cons x00 k) by lia.
  rewrite (skipn_cons x00 (S k)) by lia.
  rewrite (skipn_cons x00 (S (S k))) by lia.
  rewrite (skipn_cons x00 (S (S (S k)))) by lia.
  rewrite (skipn_cons x00 (S (S (S (S k))))) by lia.
  rewrite (skipn_cons x00 (S (S (S (S (S k)))))) by lia.
  rewrite (skipn_cons x00 (S (S (S (S (S (S k))))))) by lia.
  rewrite (skipn_cons x00 (S (S (S (S (S (S (S k)))))))) by lia.
  replace (k + 0)%nat with k by lia.
  replace (k + 1)%nat with (S k) by lia.
  replace (k + 2)%nat with (S (S k)) by lia.
  replace (k + 3)%nat with (S (S (S k))) by lia.
  replace (k + 4)%nat with (S (S (S (S k)))) by lia.
  replace (k + 5)%nat with (S (S (S (S (S k))))) by lia.
  replace (k + 6)%nat with (S (S (S (S (S (S k)))))) by lia.
  replace (k + 7)%nat with (S (S (S (S (S (S (S k))))))) by lia.
  replace (k + 8)%nat with (S (S (S (S (S (S (S (S k)))))))) by lia.
  reflexivity.
Qed.

Section WordLoop.

Variable pf : platform.
Hypothesis little : big_endian pf = false.

Lemma deref_nth al data (k : nat) j :
  0 <= j ->
  deref (Ptr al data) (Z.of_nat k + j) = byte_val (nth (k + Z.to_nat j) data x00).
Proof.
  intros Hj. unfold deref. cbn [bytes_of]. do 2 f_equal. lia.
Qed.

Lemma nLoaded_SHA3Update_word p w :
  ctx_ok pf p -> nLoaded p mod 8 = 0 -> nLoaded (SHA3Update_word p w) mod 8 = 0.
Proof.
  intros (_ & _ & (Hr & Hr8) & Hn & _) Hn8. unfold SHA3Update_word.
  cbn [nRate nLoaded set_nLoaded set_u_s].
  destruct (_ <=? _); cbn [nLoaded set_nLoaded]; [reflexivity|].
  unfold u32. rewrite (Z.mod_small (nLoaded p + 8) (2 ^ 32)) by lia.
  rewrite <- Zplus_mod_idemp_l, Hn8. reflexivity.
Qed.

(** The first loop absorbs the bytes it passes over and stops at a multiple
    of 8 with fewer than 8 bytes left. *)
Lemma SHA3Update_words_absorb al data fuel : forall p (k : nat),
  ctx_ok pf p -> nLoaded p mod 8 = 0 ->
  Z.of_nat (length data) < 2 ^ 32 ->
  Z.of_nat k mod 8 = 0 -> (k <= length data)%nat ->
  exists p' (k' : nat),
    SHA3Update_words pf fuel p (Ptr al data) (Z.of_nat (length data)) (Z.of_nat k)
      = (p', Z.of_nat k') /\
    (k <= k' <= length data)%nat /\
    ctx_ok pf p' /\
    Sponge.absorb p (skipn k data) = Sponge.absorb p' (skipn k' data) /\
    ((length data <= k + fuel)%nat -> ~ (k' + 7 < length data)%nat).
Proof.
  induction fuel as [|fuel IH]; intros p k Hp Hn8 Hlen Hk8 Hk.
  - exists p, k.
      split; [reflexivity|]. split; [lia|]. split; [exact Hp|].
      split; [reflexivity | intros; lia].
  - cbn [SHA3Update_words].
    pose proof (Z.div_mod (Z.of_nat k) 8 ltac:(lia)) as Ek.
    unfold u32. rewrite (Z.mod_small (Z.of_nat k + 7)) by lia.
    destruct (Z.ltb_spec (Z.of_nat k + 7) (Z.of_nat (length data))) as [Hlt|Hge].
    + rewrite (Z.mod_small (Z.of_nat k + 8)) by lia.
      rewrite (load_u64_little pf little).
      rewrite !deref_nth by lia.
      rewrite (SHA3Update_word_absorb pf)
        by (assumption || apply is_byte_byte_val).
      match goal with
      | |- context [SHA3Update_words pf fuel ?q _ _ _] => set (p1 := q)
      end.
      assert (Hp1 : ctx_ok pf p1)
        by (subst p1; repeat apply absorb_byte_ok;
            assumption || apply is_byte_byte_val).
      assert (Hp1n : nLoaded p1 mod 8 = 0).
      { subst p1.
        rewrite <- (SHA3Update_word_absorb pf)
          by (assumption || apply is_byte_byte_val).
        apply nLoaded_SHA3Update_word; assumption. }
      replace (Z.of_nat k + 8) with (Z.of_nat (k + 8)) by lia.
      destruct (IH p1 (k + 8)%nat Hp1 Hp1n Hlen) as (p' & k' & E & Hk' & Hp' & Ha & Hf);
        [rewrite Nat2Z.inj_add, <- Zplus_mod_idemp_l, Hk8; reflexivity | lia |].
      exists p', k'. rewrite E.
      split; [reflexivity|]. split; [lia|]. split; [exact Hp'|].
      split; [|intros; apply Hf; lia].
      rewrite <- Ha.
      apply absorb_skipn_8. lia.
    + exists p, k.
      split; [reflexivity|]. split; [lia|]. split; [exact Hp|].
      split; [reflexivity | intros; lia].
Qed.

End WordLoop.

(** [SHA3Update] absorbs its input byte by byte, whatever the platform and
    whether or not the word loop runs. *)
Lemma SHA3Update_absorb pf p al data :
  ctx_ok pf p -> Z.of_nat (length data) < 2 ^ 32 ->
  SHA3Update pf p (Ptr al data) (Z.of_nat (length data)) = Sponge.absorb p data.
Proof.
  intros Hp Hlen. unfold SHA3Update.
  assert (Hbytes : SHA3Update_bytes pf (Z.to_nat (Z.of_nat (length data))) p
            (Ptr al data) (Z.of_nat (length data)) 0 = Sponge.absorb p data).
  { rewrite Nat2Z.id. change 0 with (Z.of_nat 0).
    rewrite SHA3Update_bytes_absorb by (assumption || lia). reflexivity. }
  destruct (SHA3_BYTEORDER pf =? 1234) eqn:Ebo; [|exact Hbytes].
  destruct (nLoaded p mod 8 =? 0) eqn:En8; [|exact Hbytes].
  destruct (aligned8 (Ptr al data)); [|exact Hbytes].
  cbn [andb]. apply Z.eqb_eq in En8.
  assert (little : big_endian pf = false) by (destruct pf; try discriminate; reflexivity).
  destruct (SHA3Update_words_absorb pf little al data
              (Z.to_nat (Z.of_nat (length data))) p 0%nat Hp En8 Hlen eq_refl
              ltac:(lia)) as (p' & k' & E & Hk' & Hp' & Ha & _).
  change (Z.of_nat 0) with 0 in E. rewrite E.
  rewrite Nat2Z.id.
  rewrite SHA3Update_bytes_absorb by (assumption || lia).
  rewrite <- Ha. reflexivity.
Qed.

(** ** Initialisation and the invariant of the context *)

Lemma state_ok_zero : state_ok (repeat 0 25).
Proof.
  split; [reflexivity|]. cbn. repeat constructor; unfold modulus; lia.
Qed.

Lemma SHA3Init_ok pf iSize : valid_size iSize -> ctx_ok pf (SHA3Init pf iSize).
Proof.
  intros [-> | [-> | [-> | ->]]]; destruct pf;
    (split; [exact state_ok_zero|]); cbn;
    (split; [reflexivity|]); unfold rate_ok;
    repeat split; try reflexivity; try discriminate.
Qed.

Lemma SHA3Init_rate pf iSize :
  valid_size iSize -> nRate (SHA3Init pf iSize) = Sponge.rate iSize.
Proof. intros [-> | [-> | [-> | ->]]]; destruct pf; reflexivity. Qed.

Lemma ctx_ok_loaded pf p : ctx_ok pf p -> loaded_ok p.
Proof.
  intros (_ & _ & (Hr & _) & Hn & _). unfold loaded_ok. split; [exact Hn | lia].
Qed.

Section Invariant.

Variable pf : platform.

Lemma x_set_fields p k v :
  nRate (x_set pf p k v) = nRate p /\ nLoaded (x_set pf p k v) = nLoaded p /\
  ixMask (x_set pf p k v) = ixMask p /\ nStep (x_set pf p k v) = nStep p.
Proof. unfold x_set. destruct (k <? 200); repeat split; reflexivity. Qed.

(** Each turn of the byte loop counts one byte; at the rate it permutes
    once and starts again from 0. *)
Lemma SHA3Update_byte_turn p b :
  loaded_ok p ->
  nRate (SHA3Update_byte pf p b) = nRate p /\
  (nLoaded p + 1 = nRate p ->
     nLoaded (SHA3Update_byte pf p b) = 0 /\
     nStep (SHA3Update_byte pf p b) = S (nStep p)) /\
  (nLoaded p + 1 <> nRate p ->
     nLoaded (SHA3Update_byte pf p b) = nLoaded p + 1 /\
     nStep (SHA3Update_byte pf p b) = nStep p).
Proof.
  intros (Hn & Hr). unfold SHA3Update_byte.
  set (p1 := x_set pf p _ _).
  destruct (x_set_fields p (next_index pf p) (x_get pf p (next_index pf p) .^ b))
    as (E1 & E2 & E3 & E4). fold p1 in E1, E2, E3, E4.
  cbn [nLoaded nRate set_nLoaded nStep]. rewrite E1, E2.
  unfold u32. rewrite Z.mod_small by lia.
  destruct (Z.eqb_spec (nLoaded p + 1) (nRate p)) as [E|E];
    cbn [nLoaded nRate set_nLoaded nStep KeccakF1600Step];
    rewrite ?E1, ?E2, ?E4; repeat split; intros; try reflexivity; lia.
Qed.

(** Each turn of the word loop counts eight bytes; at the rate or beyond
    it permutes once and starts again from 0. *)
Lemma SHA3Update_word_turn p w :
  loaded_ok p -> nLoaded p + 8 < 2 ^ 32 ->
  nRate (SHA3Update_word p w) = nRate p /\
  (nRate p <= nLoaded p + 8 ->
     nLoaded (SHA3Update_word p w) = 0 /\
     nStep (SHA3Update_word p w) = S (nStep p)) /\
  (nLoaded p + 8 < nRate p ->
     nLoaded (SHA3Update_word p w) = nLoaded p + 8 /\
     nStep (SHA3Update_word p w) = nStep p).
Proof.
  intros (Hn & Hr) H8. unfold SHA3Update_word.
  cbn [nLoaded nRate set_nLoaded set_u_s nStep].
  unfold u32. rewrite Z.mod_small by lia.
  destruct (Z.leb_spec (nRate p) (nLoaded p + 8));
    cbn [nLoaded nRate set_nLoaded nStep KeccakF1600Step set_u_s];
    repeat split; intros; try reflexivity; lia.
Qed.

Lemma SHA3Update_byte_loaded p b :
  loaded_ok p -> loaded_ok (SHA3Update_byte pf p b).
Proof.
  intros H. pose proof H as (Hn & Hr).
  destruct (SHA3Update_byte_turn p b H) as (E & Hat & Hbelow).
  unfold loaded_ok. rewrite E.
  destruct (Z.eq_dec (nLoaded p + 1) (nRate p)) as [Heq|Hne].
  - destruct (Hat Heq) as [-> _]. lia.
  - destruct (Hbelow Hne) as [-> _]. lia.
Qed.

Lemma SHA3Update_word_loaded p w :
  loaded_ok p -> loaded_ok (SHA3Update_word p w).
Proof.
  intros (Hn & Hr). unfold SHA3Update_word, loaded_ok.
  cbn [nLoaded nRate set_nLoaded set_u_s].
  pose proof (Z.mod_pos_bound (nLoaded p + 8) (2 ^ 32) eq_refl) as Hu.
  unfold u32.
  destruct (Z.leb_spec (nRate p) ((nLoaded p + 8) mod 2 ^ 32));
    cbn [nLoaded nRate set_nLoaded KeccakF1600Step set_u_s]; lia.
Qed.

Lemma SHA3Update_bytes_loaded fuel : forall p a n i,
  loaded_ok p -> loaded_ok (SHA3Update_bytes pf fuel p a n i).
Proof.
  induction fuel as [|fuel IH]; intros p a n i Hp; cbn [SHA3Update_bytes];
    [exact Hp|].
  destruct (i <? n); [|exact Hp]. apply IH, SHA3Update_byte_loaded, Hp.
Qed.

Lemma SHA3Update_words_loaded fuel : forall p a n i,
  loaded_ok p -> loaded_ok (fst (SHA3Update_words pf fuel p a n i)).
Proof.
  induction fuel as [|fuel IH]; intros p a n i Hp; cbn [SHA3Update_words];
    [exact Hp|].
  destruct (u32 (i + 7) <? n); [|exact Hp]. apply IH, SHA3Update_word_loaded, Hp.
Qed.

Lemma SHA3Update_loaded p a n :
  loaded_ok p -> loaded_ok (SHA3Update pf p a n).
Proof.
  intros Hp. unfold SHA3Update.
  destruct (SHA3_BYTEORDER pf =? 1234);
    [destruct (_ && _)|]; try (apply SHA3Update_bytes_loaded, Hp).
  pose proof (SHA3Update_words_loaded (Z.to_nat n) p a n 0 Hp) as H.
  destruct (SHA3Update_words pf (Z.to_nat n) p a n 0) as [p' i'].
  apply SHA3Update_bytes_loaded, H.
Qed.

Lemma nRate_SHA3Update_byte p b : nRate (SHA3Update_byte pf p b) = nRate p.
Proof.
  unfold SHA3Update_byte.
  destruct (x_set_fields p (next_index pf p) (x_get pf p (next_index pf p) .^ b))
    as (E & _).
  destruct (_ =? _); cbn [nRate set_nLoaded KeccakF1600Step]; exact E.
Qed.

Lemma nRate_SHA3Update_word p w : nRate (SHA3Update_word p w) = nRate p.
Proof. unfold SHA3Update_word. destruct (_ <=? _); reflexivity. Qed.

Lemma nRate_SHA3Update_bytes fuel : forall p a n i,
  nRate (SHA3Update_bytes pf fuel p a n i) = nRate p.
Proof.
  induction fuel as [|fuel IH]; intros p a n i; cbn [SHA3Update_bytes];
    [reflexivity|].
  destruct (i <? n); [|reflexivity]. rewrite IH. apply nRate_SHA3Update_byte.
Qed.

Lemma nRate_SHA3Update_words fuel : forall p a n i,
  nRate (fst (SHA3Update_words pf fuel p a n i)) = nRate p.
Proof.
  induction fuel as [|fuel IH]; intros p a n i; cbn [SHA3Update_words];
    [reflexivity|].
  destruct (u32 (i + 7) <? n); [|reflexivity]. rewrite IH.
  apply nRate_SHA3Update_word.
Qed.

Lemma nRate_SHA3Update p a n : nRate (SHA3Update pf p a n) = nRate p.
Proof.
  unfold SHA3Update.
  destruct (SHA3_BYTEORDER pf =? 1234);
    [destruct (_ && _)|]; try apply nRate_SHA3Update_bytes.
  pose proof (nRate_SHA3Update_words (Z.to_nat n) p a n 0) as H.
  destruct (SHA3Update_words pf (Z.to_nat n) p a n 0) as [p' i'].
  rewrite nRate_SHA3Update_bytes. exact H.
Qed.

End Invariant.

(** ** The byte view of the union *)

Section Memory.

Variable pf : platform.

Lemma ctx_ok_mem p : ctx_ok pf p -> mem_ok p.
Proof. intros ((Hs & _) & Hhi & _). split; assumption. Qed.

Lemma x_set_mem_ok p k v : mem_ok p -> mem_ok (x_set pf p k v).
Proof.
  intros (Hs & Hhi). unfold x_set, mem_ok.
  destruct (k <? 200); cbn [u_s u_x_hi set_u_s set_u_x_hi];
    rewrite length_st; split; assumption.
Qed.

Lemma is_byte_x_get p k : k < 200 -> is_byte (x_get pf p k).
Proof.
  intros Hk. unfold x_get.
  replace (k <? 200) with true by (symmetry; apply Z.ltb_lt, Hk).
  apply is_byte_lane_byte. pose proof (byte_pos_bound pf k). lia.
Qed.

Lemma x_get_set_same p k v :
  mem_ok p -> 0 <= k < 1600 -> is_byte v -> x_get pf (x_set pf p k v) k = v.
Proof.
  intros (Hs & Hhi) Hk Hv. unfold x_get, x_set.
  destruct (Z.ltb_spec k 200) as [Hlo|Hhigh];
    cbn [u_s u_x_hi set_u_s set_u_x_hi].
  - assert (0 <= k / 8 < 25) by (split; [apply Z.div_pos|apply Z.div_lt_upper_bound]; lia).
    rewrite ld_st_same by lia.
    apply lane_byte_set_same; [apply byte_pos_bound | exact Hv].
  - apply (ld_st_same (u_x_hi p)). lia.
Qed.

Lemma byte_pos_inj k k' :
  k / 8 = k' / 8 -> byte_pos pf k = byte_pos pf k' -> k = k'.
Proof.
  unfold byte_pos. intros Hd Hm.
  pose proof (Z.div_mod k 8 ltac:(lia)). pose proof (Z.div_mod k' 8 ltac:(lia)).
  destruct (big_endian pf); lia.
Qed.

Lemma x_get_set_other p k k' v :
  mem_ok p -> 0 <= k < 1600 -> 0 <= k' -> k <> k' -> is_byte v ->
  x_get pf (x_set pf p k v) k' = x_get pf p k'.
Proof.
  intros (Hs & Hhi) Hk Hk' Hne Hv. unfold x_get, x_set.
  destruct (Z.ltb_spec k 200) as [Hlo|Hhigh], (Z.ltb_spec k' 200) as [Hlo'|Hhigh'];
    cbn [u_s u_x_hi set_u_s set_u_x_hi]; try reflexivity.
  - assert (0 <= k / 8 < 25) by (split; [apply Z.div_pos|apply Z.div_lt_upper_bound]; lia).
    assert (0 <= k' / 8) by (apply Z.div_pos; lia).
    destruct (Z.eq_dec (k / 8) (k' / 8)) as [Heq|Hd].
    + rewrite <- Heq. rewrite ld_st_same by lia.
      apply lane_byte_set_other; try apply byte_pos_bound; [|exact Hv].
      intros Hp. apply Hne, byte_pos_inj; assumption.
    + rewrite ld_st_other by lia. reflexivity.
  - apply (ld_st_other (u_x_hi p)). lia.
Qed.

(** The copy loop of [SHA3Final] leaves, behind the rate, the bytes of the
    rate in the order of the hash, and leaves the bytes of the rate as they
    were. *)
Lemma SHA3Final_copy_spec fuel : forall p i,
  mem_ok p -> rate_ok (nRate p) -> ixMask p = host_mask pf ->
  0 <= i <= nRate p -> (Z.to_nat (nRate p - i) <= fuel)%nat ->
  nRate (SHA3Final_copy pf fuel p i) = nRate p /\
  nStep (SHA3Final_copy pf fuel p i) = nStep p /\
  (forall j, i <= j < nRate p ->
     x_get pf (SHA3Final_copy pf fuel p i) (j + nRate p)
     = x_get pf p (Z.lxor j (host_mask pf))) /\
  (forall k, 0 <= k < i + nRate p ->
     x_get pf (SHA3Final_copy pf fuel p i) k = x_get pf p k).
Proof.
  induction fuel as [|fuel IH]; intros p i Hmem Hr Hm Hi Hfuel.
  - cbn. repeat split; intros; try reflexivity. lia.
  - cbn [SHA3Final_copy]. destruct Hr as ((Hr0 & Hr200) & Hr8).
    destruct (Z.ltb_spec i (nRate p)) as [Hlt|Hge];
      [|repeat split; intros; try reflexivity; lia].
    rewrite Hm. unfold u32. rewrite Z.mod_small by lia.
    set (v := x_get pf p (Z.lxor i (host_mask pf))).
    set (p1 := x_set pf p (i + nRate p) v).
    pose proof (mask_bound pf i (nRate p) ltac:(lia) Hr8) as Hsrc.
    assert (Hv : is_byte v) by (apply is_byte_x_get; lia).
    destruct (x_set_fields pf p (i + nRate p) v) as (E1 & _ & E3 & E4).
    fold p1 in E1, E3, E4.
    destruct (IH p1 (i + 1)) as (F1 & F2 & F3 & F4);
      [apply x_set_mem_ok, Hmem | rewrite E1; repeat split; assumption
      | rewrite E3; exact Hm | rewrite E1; lia | rewrite E1; lia |].
    rewrite E1 in *.
    split; [exact F1|]. split; [rewrite F2; exact E4|]. split.
    + intros j Hj. destruct (Z.eq_dec j i) as [->|Hne].
      * rewrite F4 by lia. apply x_get_set_same; [exact Hmem | lia | exact Hv].
      * rewrite F3 by lia.
        pose proof (mask_bound pf j (nRate p) ltac:(lia) Hr8).
        apply x_get_set_other; try assumption; lia.
    + intros k Hk. rewrite F4 by lia.
      apply x_get_set_other; try assumption; lia.
Qed.

(** A byte of the rate, read through the mask, is the byte of that index in
    the order of the hash. *)
Lemma x_get_mask p j :
  0 <= j < 200 ->
  x_get pf p (Z.lxor j (host_mask pf)) = Sponge.state_byte (u_s p) j.
Proof.
  intros Hj. unfold x_get, Sponge.state_byte.
  pose proof (mask_bound pf j 200 Hj eq_refl) as Hb.
  replace (Z.lxor j (host_mask pf) <? 200) with true
    by (symmetry; apply Z.ltb_lt; lia).
  rewrite mask_div, byte_pos_mask by lia. reflexivity.
Qed.

End Memory.

(** ** Finalisation *)

Section Final.

Variable pf : platform.
Variable local_aligned : string -> bool.

Lemma SHA3Update_one p al b :
  ctx_ok pf p ->
  SHA3Update pf p (Ptr al [b]) 1 = Sponge.absorb_byte p (byte_val b).
Proof.
  intros Hp. change 1 with (Z.of_nat (length [b])).
  rewrite SHA3Update_absorb by (assumption || (cbn; lia)). reflexivity.
Qed.

Lemma set_nLoaded_ok p n :
  ctx_ok pf p -> 0 <= n < nRate p -> ctx_ok pf (set_nLoaded p n).
Proof.
  intros (Hs & Hhi & Hr & _ & Hm) Hn. unfold ctx_ok. cbn. tauto.
Qed.

(** The head of [SHA3Final] is the padding of the specification. *)
Lemma SHA3Final_pad_spec p :
  ctx_ok pf p -> SHA3Final_pad pf local_aligned p = Sponge.pad p.
Proof.
  intros Hp. pose proof Hp as (_ & _ & (Hr & _) & Hn & _).
  unfold SHA3Final_pad, Sponge.pad, u32.
  rewrite !(Z.mod_small (nRate p - 1)) by lia.
  destruct (nLoaded p =? nRate p - 1).
  - apply SHA3Update_one, Hp.
  - rewrite (SHA3Update_one p _ x06 Hp).
    rewrite nRate_absorb_byte. unfold u32. rewrite Z.mod_small by lia.
    apply SHA3Update_one. apply set_nLoaded_ok.
    + apply absorb_byte_ok; [exact Hp | unfold is_byte; lia].
    + rewrite nRate_absorb_byte. lia.
Qed.

Lemma absorb_byte_at_rate p b :
  nLoaded p + 1 = nRate p ->
  nLoaded (Sponge.absorb_byte p b) = 0 /\
  nStep (Sponge.absorb_byte p b) = S (nStep p).
Proof.
  intros H. unfold Sponge.absorb_byte. apply Z.eqb_eq in H. rewrite H.
  split; reflexivity.
Qed.

Lemma absorb_byte_below p b :
  nLoaded p + 1 <> nRate p ->
  nLoaded (Sponge.absorb_byte p b) = nLoaded p + 1 /\
  nStep (Sponge.absorb_byte p b) = nStep p.
Proof.
  intros H. unfold Sponge.absorb_byte. apply Z.eqb_neq in H. rewrite H.
  split; reflexivity.
Qed.

(** The padding permutes exactly once and leaves the buffer empty. *)
Lemma pad_once p :
  ctx_ok pf p ->
  ctx_ok pf (Sponge.pad p) /\ nRate (Sponge.pad p) = nRate p /\
  nLoaded (Sponge.pad p) = 0 /\ nStep (Sponge.pad p) = S (nStep p).
Proof.
  intros Hp. pose proof Hp as (_ & _ & (Hr & _) & Hn & _).
  unfold Sponge.pad.
  destruct (Z.eqb_spec (nLoaded p) (nRate p - 1)) as [E|E].
  - split; [apply absorb_byte_ok; [exact Hp | unfold is_byte; lia]|].
    split; [apply nRate_absorb_byte|].
    apply absorb_byte_at_rate. lia.
  - set (p1 := Sponge.absorb_byte p 6).
    assert (H1 : ctx_ok pf p1)
      by (apply absorb_byte_ok; [exact Hp | unfold is_byte; lia]).
    assert (E1 : nRate p1 = nRate p) by apply nRate_absorb_byte.
    destruct (absorb_byte_below p 6 ltac:(lia)) as (_ & S1). fold p1 in S1.
    set (p2 := set_nLoaded p1 (nRate p - 1)).
    assert (H2 : ctx_ok pf p2) by (apply set_nLoaded_ok; [exact H1 | lia]).
    assert (E2 : nRate p2 = nRate p) by exact E1.
    assert (S2 : nStep p2 = nStep p) by exact S1.
    assert (L2 : nLoaded p2 + 1 = nRate p2) by (rewrite E2; cbn; lia).
    split; [apply absorb_byte_ok; [exact H2 | unfold is_byte; lia]|].
    split; [rewrite nRate_absorb_byte; exact E2|].
    destruct (absorb_byte_at_rate p2 128 L2) as (-> & ->).
    rewrite S2. split; reflexivity.
Qed.

Lemma SHA3Final_result p :
  ctx_ok pf p ->
  snd (SHA3Final pf local_aligned p) = nRate p /\
  nStep (fst (SHA3Final pf local_aligned p)) = S (nStep p) /\
  forall j, 0 <= j < nRate p ->
    x_get pf (fst (SHA3Final pf local_aligned p)) (nRate p + j)
    = x_get pf (Sponge.pad p) (Z.lxor j (ixMask (Sponge.pad p))).
Proof.
  intros Hp. unfold SHA3Final. rewrite (SHA3Final_pad_spec p Hp).
  destruct (pad_once p Hp) as (Hpp & Er & _ & Es).
  pose proof Hpp as (_ & _ & Hrate & _ & Hm).
  destruct (SHA3Final_copy_spec pf (Z.to_nat (nRate (Sponge.pad p))) (Sponge.pad p) 0)
    as (F1 & F2 & F3 & _);
    [eapply ctx_ok_mem; exact Hpp | exact Hrate | exact Hm
    | destruct Hrate; lia | lia |].
  cbn [fst snd]. rewrite F1, F2, Er, Es, Hm.
  repeat split. intros j Hj.
  rewrite (Z.add_comm (nRate p) j), <- Er. apply F3. lia.
Qed.

(** The bytes handed back are the head of the rate read through the mask,
    that is the head of the state in the order of the hash. *)
Lemma SHA3Final_bytes_spec p n :
  ctx_ok pf p -> 0 <= n <= nRate p ->
  SHA3Final_bytes pf local_aligned p n
    = map (fun i => x_get pf (Sponge.pad p)
                      (Z.lxor (Z.of_nat i) (ixMask (Sponge.pad p))))
          (seq 0 (Z.to_nat n)) /\
  SHA3Final_bytes pf local_aligned p n = Sponge.squeeze (u_s (Sponge.pad p)) n.
Proof.
  intros Hp Hn. destruct (SHA3Final_result p Hp) as (R1 & _ & R3).
  destruct (pad_once p Hp) as (Hpp & _).
  pose proof Hp as (_ & _ & (Hr & _) & _).
  assert (E : SHA3Final_bytes pf local_aligned p n
            = map (fun i => x_get pf (Sponge.pad p)
                              (Z.lxor (Z.of_nat i) (ixMask (Sponge.pad p))))
                  (seq 0 (Z.to_nat n))).
  { unfold SHA3Final_bytes, x_read.
    destruct (SHA3Final pf local_aligned p) as [p' h]. cbn [fst snd] in *.
    subst h. apply map_ext_in. intros j Hj. apply in_seq in Hj.
    apply R3. lia. }
  split; [exact E|]. rewrite E. unfold Sponge.squeeze. apply map_ext_in.
  intros j Hj. apply in_seq in Hj.
  pose proof Hpp as (_ & _ & _ & _ & Hm). rewrite Hm.
  apply x_get_mask. lia.
Qed.

End Final.

Lemma firstn_seq n : forall a m, firstn n (seq a m) = seq a (Nat.min n m).
Proof.
  induction n as [|n IH]; intros a [|m]; cbn; try reflexivity.
  rewrite IH. reflexivity.
Qed.

(** C2. [SHA3Final] on a context of a hash of [size] bits in progress: its
    padding absorbs the single byte 0x86 when [nLoaded = nRate - 1], and
    otherwise absorbs 0x06, sets [nLoaded] to [nRate - 1] and absorbs 0x80;
    [KeccakF1600Step] is called exactly once; the hash handed back is the
    first [size/8] of the first [nRate] bytes of the state read through
    [ixMask], which are the first [size/8] bytes of the state in the order of
    the hash, so it is [size/8] bytes long. *)
Theorem SHA3Final_correct pf local_aligned size (p : SHA3Context) :
  valid_size size -> ctx_ok pf p -> nRate p = Sponge.rate size ->
  let padded := SHA3Final_pad pf local_aligned p in
  (nLoaded p = nRate p - 1 -> padded = Sponge.absorb_byte p 0x86) /\
  (nLoaded p <> nRate p - 1 ->
     padded = Sponge.absorb_byte
                (set_nLoaded (Sponge.absorb_byte p 0x06) (nRate p - 1)) 0x80) /\
  nStep padded = S (nStep p) /\
  nStep (fst (SHA3Final pf local_aligned p)) = S (nStep p) /\
  SHA3Final_bytes pf local_aligned p (size / 8)
    = firstn (Z.to_nat (size / 8))
        (map (fun i => x_get pf padded (Z.lxor (Z.of_nat i) (ixMask padded)))
             (seq 0 (Z.to_nat (nRate padded)))) /\
  SHA3Final_bytes pf local_aligned p (size / 8)
    = Sponge.squeeze (u_s padded) (size / 8) /\
  Z.of_nat (length (SHA3Final_bytes pf local_aligned p (size / 8))) = size / 8.
Proof.
  intros Hsize Hp Hrate padded.
  assert (Epad : padded = Sponge.pad p) by apply (SHA3Final_pad_spec _ _ _ Hp).
  destruct (pad_once pf p Hp) as (Hpp & Er & _ & Es).
  destruct (SHA3Final_result pf local_aligned p Hp) as (_ & R2 & _).
  assert (Hn : 0 <= size / 8 <= nRate p).
  { rewrite Hrate. destruct Hsize as [-> | [-> | [-> | ->]]]; cbv; intuition discriminate. }
  destruct (SHA3Final_bytes_spec pf local_aligned p (size / 8) Hp Hn) as (E1 & E2).
  rewrite Epad.
  split; [intros E; unfold Sponge.pad; apply Z.eqb_eq in E; rewrite E; reflexivity|].
  split; [intros E; unfold Sponge.pad; apply Z.eqb_neq in E; rewrite E; reflexivity|].
  split; [exact Es|]. split; [exact R2|]. split; [|split; [exact E2|]].
  - rewrite E1, firstn_map, firstn_seq. do 2 f_equal. rewrite Er. lia.
  - rewrite E1, length_map, length_seq. lia.
Qed.

(** ** Hashes *)

Section Hashes.

Variable pf : platform.
Variable local_aligned : string -> bool.

Lemma SHA3Update_all_absorb chunks : forall p,
  ctx_ok pf p -> Forall chunk_ok chunks ->
  SHA3Update_all pf p chunks = Sponge.absorb p (concat (map snd chunks)).
Proof.
  induction chunks as [|[al data] chunks IH]; intros p Hp Hc; [reflexivity|].
  inversion Hc as [|? ? Hc1 Hc2]; subst. unfold chunk_ok in Hc1. cbn [snd] in Hc1.
  cbn [SHA3Update_all fold_left map concat fst snd].
  rewrite SHA3Update_absorb by assumption.
  rewrite absorb_app. apply IH; [apply absorb_ok, Hp | exact Hc2].
Qed.

Lemma SHA3Update_all_ok chunks p :
  ctx_ok pf p -> Forall chunk_ok chunks -> ctx_ok pf (SHA3Update_all pf p chunks).
Proof.
  intros Hp Hc. rewrite SHA3Update_all_absorb by assumption.
  apply absorb_ok, Hp.
Qed.

(** A hash is the squeeze of the padded state that absorbed the input. *)
Lemma sha3_of_chunks_spec size chunks :
  valid_size size -> Forall chunk_ok chunks ->
  sha3_of_chunks pf local_aligned size chunks =
  Sponge.squeeze
    (u_s (Sponge.pad (Sponge.absorb (SHA3Init pf size) (concat (map snd chunks)))))
    (size / 8).
Proof.
  intros Hsize Hc. unfold sha3_of_chunks.
  pose proof (SHA3Update_all_ok chunks _ (SHA3Init_ok pf size Hsize) Hc) as Hp.
  destruct (SHA3Final_bytes_spec pf local_aligned _ (size / 8) Hp) as (_ & E).
  - rewrite SHA3Update_all_absorb, nRate_absorb
      by (try apply SHA3Init_ok; assumption).
    rewrite SHA3Init_rate by exact Hsize.
    destruct Hsize as [-> | [-> | [-> | ->]]]; cbv; intuition discriminate.
  - rewrite E.
    rewrite SHA3Update_all_absorb by (try apply SHA3Init_ok; assumption).
    reflexivity.
Qed.

Lemma absorb_byte_set_ixMask p m b :
  Sponge.absorb_byte (set_ixMask p m) b = set_ixMask (Sponge.absorb_byte p b) m.
Proof.
  unfold Sponge.absorb_byte. cbn [set_ixMask u_s u_x_hi nRate nLoaded ixMask nStep].
  destruct (_ =? _); reflexivity.
Qed.

Lemma absorb_set_ixMask m data : forall p,
  Sponge.absorb (set_ixMask p m) data = set_ixMask (Sponge.absorb p data) m.
Proof.
  induction data as [|b data IH]; intros p; [reflexivity|].
  cbn [Sponge.absorb fold_left]. rewrite absorb_byte_set_ixMask. apply IH.
Qed.

Lemma pad_set_ixMask p m :
  Sponge.pad (set_ixMask p m) = set_ixMask (Sponge.pad p) m.
Proof.
  unfold Sponge.pad. cbn [set_ixMask nRate nLoaded].
  destruct (_ =? _); rewrite !absorb_byte_set_ixMask; [reflexivity|].
  change (set_nLoaded (set_ixMask ?q m) ?n) with (set_ixMask (set_nLoaded q n) m).
  apply absorb_byte_set_ixMask.
Qed.

Lemma SHA3Init_set_ixMask size :
  SHA3Init pf size = set_ixMask (SHA3Init Static_1234 size) (host_mask pf).
Proof.
  unfold SHA3Init. destruct ((128 <=? size) && (size <=? 512)), pf; reflexivity.
Qed.

(** The state a hash is squeezed from does not depend on the platform. *)
Lemma padded_state_platform size data :
  u_s (Sponge.pad (Sponge.absorb (SHA3Init pf size) data)) =
  u_s (Sponge.pad (Sponge.absorb (SHA3Init Static_1234 size) data)).
Proof.
  rewrite SHA3Init_set_ixMask, absorb_set_ixMask, pad_set_ixMask. reflexivity.
Qed.

End Hashes.

(** C3. Whatever the way an input is cut into buffers, and whether or not a
    buffer lies on an 8-byte boundary, so that the word loop of [SHA3Update]
    runs or not: [SHA3Init], one [SHA3Update] per buffer and [SHA3Final]
    give the same hash, the context after the updates being the one that
    absorbed the whole input byte by byte. *)
Theorem chunk_independence pf local_aligned size
    (chunks1 chunks2 : list (bool * list byte)) :
  valid_size size ->
  Forall chunk_ok chunks1 -> Forall chunk_ok chunks2 ->
  concat (map snd chunks1) = concat (map snd chunks2) ->
  SHA3Update_all pf (SHA3Init pf size) chunks1
    = Sponge.absorb (SHA3Init pf size) (concat (map snd chunks1)) /\
  SHA3Update_all pf (SHA3Init pf size) chunks1
    = SHA3Update_all pf (SHA3Init pf size) chunks2 /\
  sha3_of_chunks pf local_aligned size chunks1
    = sha3_of_chunks pf local_aligned size chunks2.
Proof.
  intros Hsize H1 H2 E.
  pose proof (SHA3Init_ok pf size Hsize) as H0.
  rewrite !sha3_of_chunks_spec by assumption.
  rewrite !SHA3Update_all_absorb by assumption.
  rewrite E. repeat split.
Qed.

(** C4. [SHA3Init] with a size of 224, 256, 384 or 512 sets [nRate] to
    [(1600 - 2*iSize)/8], that is 144, 136, 104 or 72, zeroes the state and
    sets [nLoaded] to 0.  Every call of [SHA3Update], whatever its input,
    keeps [nRate] and [0 <= nLoaded < nRate]: in each turn of its loops, as
    soon as
    [nLoaded] reaches [nRate] the permutation is called, once, and
    [nLoaded] is back to 0. *)
Theorem SHA3_invariant pf :
  (forall iSize, valid_size iSize ->
     nRate (SHA3Init pf iSize) = (1600 - 2 * iSize) / 8 /\
     (iSize = 224 -> nRate (SHA3Init pf iSize) = 144) /\
     (iSize = 256 -> nRate (SHA3Init pf iSize) = 136) /\
     (iSize = 384 -> nRate (SHA3Init pf iSize) = 104) /\
     (iSize = 512 -> nRate (SHA3Init pf iSize) = 72) /\
     u_s (SHA3Init pf iSize) = repeat 0 25 /\
     u_x_hi (SHA3Init pf iSize) = repeat 0 1400 /\
     nLoaded (SHA3Init pf iSize) = 0 /\
     loaded_ok (SHA3Init pf iSize)) /\
  (forall p aData nData,
     loaded_ok p ->
     nRate (SHA3Update pf p aData nData) = nRate p /\
     0 <= nLoaded (SHA3Update pf p aData nData) < nRate p) /\
  (forall p b,
     loaded_ok p ->
     (nLoaded p + 1 = nRate p ->
        nLoaded (SHA3Update_byte pf p b) = 0 /\
        nStep (SHA3Update_byte pf p b) = S (nStep p)) /\
     (nLoaded p + 1 <> nRate p ->
        nLoaded (SHA3Update_byte pf p b) = nLoaded p + 1 /\
        nStep (SHA3Update_byte pf p b) = nStep p)) /\
  (forall p w,
     loaded_ok p -> nLoaded p + 8 < 2 ^ 32 ->
     (nRate p <= nLoaded p + 8 ->
        nLoaded (SHA3Update_word p w) = 0 /\
        nStep (SHA3Update_word p w) = S (nStep p)) /\
     (nLoaded p + 8 < nRate p ->
        nLoaded (SHA3Update_word p w) = nLoaded p + 8 /\
        nStep (SHA3Update_word p w) = nStep p)).
Proof.
  split; [|split; [|split]].
  - intros iSize Hsize.
    pose proof (ctx_ok_loaded pf _ (SHA3Init_ok pf iSize Hsize)) as Hl.
    destruct Hsize as [-> | [-> | [-> | ->]]]; destruct pf;
      repeat split; intros; try reflexivity; try discriminate; apply Hl.
  - intros p aData nData Hp.
    pose proof (SHA3Update_loaded pf p aData nData Hp) as (Hn & _).
    rewrite nRate_SHA3Update in Hn. split; [apply nRate_SHA3Update | exact Hn].
  - intros p b Hp. apply (SHA3Update_byte_turn pf p b Hp).
  - intros p w Hp H8. apply (SHA3Update_word_turn p w Hp H8).
Qed.

Lemma bad_size_iff iSize : bad_size iSize = false <-> valid_size iSize.
Proof.
  unfold bad_size, valid_size.
  destruct (Z.eqb_spec iSize 224), (Z.eqb_spec iSize 256),
    (Z.eqb_spec iSize 384), (Z.eqb_spec iSize 512); cbn;
    intuition (congruence || lia).
Qed.

(** The published digests, from the sponge of the specification. *)
Lemma known_answers_sponge :
  Sponge.squeeze
    (u_s (Sponge.pad (Sponge.absorb (SHA3Init Static_1234 224) []))) (224 / 8)
    = Digest.sha3_224_empty /\
  Sponge.squeeze
    (u_s (Sponge.pad (Sponge.absorb (SHA3Init Static_1234 224) [x61; x62; x63]))) (224 / 8)
    = Digest.sha3_224_abc /\
  Sponge.squeeze
    (u_s (Sponge.pad (Sponge.absorb (SHA3Init Static_1234 256) []))) (256 / 8)
    = Digest.sha3_256_empty /\
  Sponge.squeeze
    (u_s (Sponge.pad (Sponge.absorb (SHA3Init Static_1234 256) [x61; x62; x63]))) (256 / 8)
    = Digest.sha3_256_abc /\
  Sponge.squeeze
    (u_s (Sponge.pad (Sponge.absorb (SHA3Init Static_1234 384) []))) (384 / 8)
    = Digest.sha3_384_empty /\
  Sponge.squeeze
    (u_s (Sponge.pad (Sponge.absorb (SHA3Init Static_1234 384) [x61; x62; x63]))) (384 / 8)
    = Digest.sha3_384_abc /\
  Sponge.squeeze
    (u_s (Sponge.pad (Sponge.absorb (SHA3Init Static_1234 512) []))) (512 / 8)
    = Digest.sha3_512_empty /\
  Sponge.squeeze
    (u_s (Sponge.pad (Sponge.absorb (SHA3Init Static_1234 512) [x61; x62; x63]))) (512 / 8)
    = Digest.sha3_512_abc.
Proof. repeat split; vm_compute; reflexivity. Qed.

(** [sha3Func] on a text or a blob hashes its bytes. *)
Lemma sha3Func_hash pf local_aligned argc argv al data :
  argc = 1 \/ valid_size (value_int (nth 1 argv null_value)) ->
  nth 0 argv null_value = text_value al data
  \/ nth 0 argv null_value = blob_value al data ->
  Z.of_nat (length data) < 2 ^ 32 ->
  res (sha3Func pf local_aligned argc argv)
  = ResultBlob
      (sha3_of_chunks pf local_aligned
         (if argc =? 1 then 256 else value_int (nth 1 argv null_value))
         [(al, data)]).
Proof.
  intros Hs Hv Hlen. unfold sha3Func.
  assert (Hsize : valid_size (if argc =? 1 then 256
                              else value_int (nth 1 argv null_value))).
  { destruct (Z.eqb_spec argc 1); [right; left; reflexivity|].
    destruct Hs; [contradiction | assumption]. }
  assert (E : negb (argc =? 1)
              && bad_size (if argc =? 1 then 256
                           else value_int (nth 1 argv null_value)) = false).
  { destruct (argc =? 1); [reflexivity|]. cbn [negb andb].
    apply bad_size_iff, Hsize. }
  rewrite E. set (iSize := if argc =? 1 then 256 else _) in *.
  assert (Eq : Z.quot iSize 8 = iSize / 8)
    by (destruct Hsize as [-> | [-> | [-> | ->]]]; reflexivity).
  unfold sha3_of_chunks, SHA3Final_bytes, SHA3Update_all. cbn [fold_left fst snd].
  destruct Hv as [-> | ->]; cbn [value_type value_bytes value_text value_blob
    text_value blob_value]; unfold u32; rewrite Z.mod_small by lia;
    destruct (SHA3Final _ _ _) as [cx h]; cbn [res]; rewrite Eq; reflexivity.
Qed.

(** C5. For each of the four sizes, on every platform and whatever the
    alignment of the buffers, [SHA3Init], [SHA3Update] and [SHA3Final] give
    for the empty input and for the three bytes of "abc" the published
    SHA3-224, SHA3-256, SHA3-384 and SHA3-512 digests, and so does
    [sha3Func] on arguments that hold these inputs. *)
Theorem known_answers pf local_aligned al :
  sha3_of_chunks pf local_aligned 224 [(al, [])]
    = Digest.sha3_224_empty /\
  sha3_of_chunks pf local_aligned 224 [(al, [x61; x62; x63])]
    = Digest.sha3_224_abc /\
  sha3_of_chunks pf local_aligned 256 [(al, [])]
    = Digest.sha3_256_empty /\
  sha3_of_chunks pf local_aligned 256 [(al, [x61; x62; x63])]
    = Digest.sha3_256_abc /\
  sha3_of_chunks pf local_aligned 384 [(al, [])]
    = Digest.sha3_384_empty /\
  sha3_of_chunks pf local_aligned 384 [(al, [x61; x62; x63])]
    = Digest.sha3_384_abc /\
  sha3_of_chunks pf local_aligned 512 [(al, [])]
    = Digest.sha3_512_empty /\
  sha3_of_chunks pf local_aligned 512 [(al, [x61; x62; x63])]
    = Digest.sha3_512_abc /\
  res (sha3Func pf local_aligned 2 [text_value al [x61; x62; x63]; int_value 224])
    = ResultBlob (Digest.sha3_224_abc) /\
  res (sha3Func pf local_aligned 2 [text_value al [x61; x62; x63]; int_value 256])
    = ResultBlob (Digest.sha3_256_abc) /\
  res (sha3Func pf local_aligned 2 [text_value al [x61; x62; x63]; int_value 384])
    = ResultBlob (Digest.sha3_384_abc) /\
  res (sha3Func pf local_aligned 2 [text_value al [x61; x62; x63]; int_value 512])
    = ResultBlob (Digest.sha3_512_abc) /\
  res (sha3Func pf local_aligned 1 [blob_value al [x61; x62; x63]])
    = ResultBlob (Digest.sha3_256_abc) /\
  res (sha3Func pf local_aligned 1 [text_value al []])
    = ResultBlob (Digest.sha3_256_empty).
Proof.
  rewrite
    (sha3Func_hash pf local_aligned 2
       [text_value al [x61; x62; x63]; int_value 224] al [x61; x62; x63]),
    (sha3Func_hash pf local_aligned 2
       [text_value al [x61; x62; x63]; int_value 256] al [x61; x62; x63]),
    (sha3Func_hash pf local_aligned 2
       [text_value al [x61; x62; x63]; int_value 384] al [x61; x62; x63]),
    (sha3Func_hash pf local_aligned 2
       [text_value al [x61; x62; x63]; int_value 512] al [x61; x62; x63]),
    (sha3Func_hash pf local_aligned 1 [blob_value al [x61; x62; x63]] al
       [x61; x62; x63]),
    (sha3Func_hash pf local_aligned 1 [text_value al []] al [])
    by (first [ left; reflexivity | right; reflexivity
              | cbn; unfold valid_size; lia ]).
  cbn [Z.eqb int_value value_int nth].
  rewrite !sha3_of_chunks_spec
    by (unfold valid_size, chunk_ok; repeat constructor; cbn; lia || tauto).
  rewrite !(padded_state_platform pf).
  cbn [map snd concat app].
  destruct known_answers_sponge as (K1 & K2 & K3 & K4 & K5 & K6 & K7 & K8).
  rewrite K1, K2, K3, K4, K5, K6, K7, K8. repeat split.
Qed.

(** ** The SQL functions *)

Lemma byte_val_byte_of_Z z : byte_val (byte_of_Z z) = z mod 256.
Proof.
  unfold byte_val, byte_of_Z.
  pose proof (Z.mod_pos_bound z 256 eq_refl) as Hz.
  destruct (Byte.of_N (Z.to_N (z mod 256))) as [b|] eqn:E.
  - apply Byte.to_of_N in E. rewrite E. lia.
  - apply Byte.of_N_None_iff in E. lia.
Qed.

(** The bytes of a 64-bit pattern, most significant first. *)
Lemma segment_x_bytes letter v :
  segment_x letter v =
  letter :: map (fun k => byte_of_Z (Z.shiftr (v mod modulus) (8 * k) .& 0xff))
                [7; 6; 5; 4; 3; 2; 1; 0].
Proof.
  unfold segment_x. cbn [fill_x repeat Z.leb Z.compare Pos.compare
    Pos.compare_cont Z.to_nat Pos.to_nat Pos.iter_op Nat.add st Z.sub Z.add
    Z.opp Z.pos_sub Z.succ_double Z.pred_double Z.double Pos.pred_double map].
  rewrite !Z.shiftr_shiftr by lia. reflexivity.
Qed.

Lemma big_endian_value_segment letter v :
  big_endian_value (tl (segment_x letter v)) = v mod modulus.
Proof.
  rewrite segment_x_bytes. cbn [tl map]. unfold big_endian_value.
  cbn [fold_left]. rewrite !byte_val_byte_of_Z.
  change 0xff with (Z.ones 8). rewrite !Z.land_ones by lia.
  rewrite !Z.shiftr_div_pow2 by lia.
  pose proof (Z.mod_pos_bound v modulus eq_refl) as Hu.
  set (u := v mod modulus) in *. unfold modulus in Hu.
  change (2 ^ (8 * 0)) with 1. change (2 ^ (8 * 1)) with 256.
  change (2 ^ (8 * 2)) with (256 * 256).
  change (2 ^ (8 * 3)) with (256 * 256 * 256).
  change (2 ^ (8 * 4)) with (256 * 256 * 256 * 256).
  change (2 ^ (8 * 5)) with (256 * 256 * 256 * 256 * 256).
  change (2 ^ (8 * 6)) with (256 * 256 * 256 * 256 * 256 * 256).
  change (2 ^ (8 * 7)) with (256 * 256 * 256 * 256 * 256 * 256 * 256).
  change (2 ^ 8) with 256. change (2 ^ 64) with
    (256 * 256 * 256 * 256 * 256 * 256 * 256 * 256) in Hu.
  rewrite <- !Z.div_div by lia. rewrite Z.div_1_r.
  assert (Hq8 : u / 256 / 256 / 256 / 256 / 256 / 256 / 256 / 256 = 0)
    by (rewrite !Z.div_div by lia; apply Z.div_small; lia).
  set (q1 := u / 256) in *. set (q2 := q1 / 256) in *. set (q3 := q2 / 256) in *.
  set (q4 := q3 / 256) in *. set (q5 := q4 / 256) in *. set (q6 := q5 / 256) in *.
  set (q7 := q6 / 256) in *.
  rewrite !Z.mod_mod by lia.
  pose proof (Z.div_mod u 256 ltac:(lia)) as D0. fold q1 in D0.
  pose proof (Z.div_mod q1 256 ltac:(lia)) as D1. fold q2 in D1.
  pose proof (Z.div_mod q2 256 ltac:(lia)) as D2. fold q3 in D2.
  pose proof (Z.div_mod q3 256 ltac:(lia)) as D3. fold q4 in D3.
  pose proof (Z.div_mod q4 256 ltac:(lia)) as D4. fold q5 in D4.
  pose proof (Z.div_mod q5 256 ltac:(lia)) as D5. fold q6 in D5.
  pose proof (Z.div_mod q6 256 ltac:(lia)) as D6. fold q7 in D6.
  pose proof (Z.div_mod q7 256 ltac:(lia)) as D7. rewrite Hq8 in D7.
  lia.
Qed.

(** C6. In the stream that [sha3QueryFunc] hashes, a column of type
    INTEGER is the 9 bytes of [x]: the letter I, then the 8 bytes of the
    64-bit two's complement pattern of the value, the most significant
    first. *)
Theorem integer_segment pf local_aligned cx (col : sqlite3_value) :
  value_type col = SQLITE_INTEGER ->
  - 2 ^ 63 <= value_int64 col < 2 ^ 63 ->
  let v := value_int64 col in
  let x := segment_x "I"%byte v in
  hash_column pf local_aligned cx col
    = SHA3Update pf cx (Ptr (local_aligned "x"%string) x) 9 /\
  length x = 9%nat /\
  nth 0 x x00 = "I"%byte /\
  (forall k, (k < 8)%nat ->
     byte_val (nth (S k) x x00)
     = (v mod 2 ^ 64) / 2 ^ (8 * (7 - Z.of_nat k)) mod 256) /\
  big_endian_value (tl x) = v mod 2 ^ 64 /\
  (0 <= v -> big_endian_value (tl x) = v) /\
  (v < 0 -> big_endian_value (tl x) = v + 2 ^ 64).
Proof.
  intros Ht Hv v x. subst x.
  split; [unfold hash_column; rewrite Ht; reflexivity|].
  pose proof (big_endian_value_segment "I"%byte v) as Hbe.
  unfold modulus in Hbe.
  rewrite segment_x_bytes in *. cbn [map length nth tl] in *.
  split; [reflexivity|]. split; [reflexivity|]. split; [|split; [exact Hbe|split]].
  - intros k Hk. unfold modulus.
    do 8 (destruct k as [|k]; [rewrite byte_val_byte_of_Z;
      change 0xff with (Z.ones 8); rewrite Z.land_ones by lia;
      rewrite Z.shiftr_div_pow2 by lia; change (2 ^ 8) with 256;
      rewrite Z.mod_mod by lia; reflexivity|]).
    lia.
  - intros Hpos. rewrite Hbe. apply Z.mod_small. subst v. lia.
  - intros Hneg. rewrite Hbe. symmetry.
    apply Z.mod_unique with (q := -1); subst v; lia.
Qed.

Lemma size_accepted argc (argv : list sqlite3_value) :
  argc = 1 \/ valid_size (value_int (nth 1 argv null_value)) ->
  negb (argc =? 1)
  && bad_size (if argc =? 1 then 256 else value_int (nth 1 argv null_value))
  = false.
Proof.
  intros Hs. destruct (Z.eqb_spec argc 1) as [E|E]; [reflexivity|].
  destruct Hs as [Hs|Hs]; [contradiction|].
  apply bad_size_iff in Hs. rewrite Hs. reflexivity.
Qed.

Lemma size_refused argc (iSize : Z) :
  argc <> 1 -> ~ valid_size iSize -> negb (argc =? 1) && bad_size iSize = true.
Proof.
  intros Hc H. apply Z.eqb_neq in Hc. rewrite Hc.
  destruct (bad_size iSize) eqn:E; [reflexivity|].
  apply bad_size_iff in E. contradiction.
Qed.

(** C7, amended. When a size is given and the [int] that
    [sqlite3_value_int] returns for it, the low 32 bits of an integer, is
    none of 224, 256, 384 and 512, [sha3Func] and [sha3QueryFunc] answer
    with the error "SHA3 size should be one of: 224 256 384 512" whatever
    the first argument; [SHA3Init] is not called, so that nothing is hashed
    and the permutation does not run. *)
Theorem size_error_reported pf local_aligned fuel db argc
    (argv : list sqlite3_value) :
  argc <> 1 ->
  ~ valid_size (value_int (nth 1 argv null_value)) ->
  sha3Func pf local_aligned argc argv
    = mk_outcome (ResultError size_error) None /\
  sha3QueryFunc pf local_aligned fuel db argc argv
    = Some (mk_outcome (ResultError size_error) None) /\
  size_error
    = list_byte_of_string "SHA3 size should be one of: 224 256 384 512" /\
  permutations (sha3Func pf local_aligned argc argv) = 0%nat.
Proof.
  intros Hc Hs. pose proof (size_refused argc _ Hc Hs) as E.
  unfold sha3Func, sha3QueryFunc. apply Z.eqb_neq in Hc. rewrite Hc in *.
  rewrite E. repeat split.
Qed.

(** C8. With no size or with one of the four sizes, [sha3Func] on a value of
    type NULL sets no result, which is the SQL value NULL; [SHA3Init] is not
    called, so that nothing is hashed and the permutation does not run. *)
Theorem sha3_of_null pf local_aligned argc (argv : list sqlite3_value) :
  value_type (nth 0 argv null_value) = SQLITE_NULL ->
  argc = 1 \/ valid_size (value_int (nth 1 argv null_value)) ->
  sha3Func pf local_aligned argc argv = mk_outcome ResultNull None /\
  permutations (sha3Func pf local_aligned argc argv) = 0%nat.
Proof.
  intros Ht Hs. unfold sha3Func.
  pose proof (size_accepted argc argv Hs) as E.
  rewrite E, Ht. split; reflexivity.
Qed.

Section Query.

Variable pf : platform.
Variable local_aligned : string -> bool.
Variable db : sqlite3.

(** The loop stops at the first statement that is not read-only, however
    many statements it hashed before. *)
Lemma sha3Query_loop_non_query bad rest zTail earlier : forall cx zSql fuel,
  prepares db zSql earlier rest ->
  Forall (fun pStmt => stmt_readonly pStmt = true) earlier ->
  bytes_of rest <> [] ->
  sqlite3_prepare_v2 db (bytes_of rest) = PrepareOk bad zTail ->
  stmt_readonly bad = false ->
  (length earlier < fuel)%nat ->
  sha3Query_loop pf local_aligned fuel db cx zSql
  = Some (inl (ResultError (non_query (stmt_sql bad)),
               fold_left (hash_statement pf local_aligned) earlier cx)).
Proof.
  induction earlier as [|pStmt earlier IH]; intros cx zSql fuel Hp Hro Hne Hbad Hnro Hfuel;
    (destruct fuel as [|fuel]; [cbn in Hfuel; lia|]);
    cbn [sha3Query_loop fold_left].
  - cbn in Hp. subst zSql.
    destruct (bytes_of rest) as [|c more] eqn:E; [contradiction|].
    rewrite Hbad, Hnro. reflexivity.
  - destruct Hp as (Hz & zTail' & Hprep & Hp).
    inversion Hro as [|? ? Hro1 Hro2]; subst.
    destruct (bytes_of zSql) as [|c more] eqn:E; [contradiction|].
    rewrite Hprep, Hro1. cbn [negb].
    apply (IH _ _ fuel Hp Hro2 Hne Hbad Hnro). cbn in Hfuel. lia.
Qed.

End Query.

(** C9. When the text given to [sha3QueryFunc] yields some read-only
    statements and then a statement that is not read-only, the call ends
    with the error "non-query: [" followed by the text of that statement and
    "]": the result is an error and no hash, however many statements were
    hashed into the context before. *)
Theorem non_query_aborts pf local_aligned db argc (argv : list sqlite3_value)
    (earlier : list sqlite3_stmt) (bad : sqlite3_stmt) (rest zTail : cptr) :
  argc = 1 \/ valid_size (value_int (nth 1 argv null_value)) ->
  value_text (nth 0 argv null_value) <> NULL ->
  prepares db (value_text (nth 0 argv null_value)) earlier rest ->
  Forall (fun pStmt => stmt_readonly pStmt = true) earlier ->
  bytes_of rest <> [] ->
  sqlite3_prepare_v2 db (bytes_of rest) = PrepareOk bad zTail ->
  stmt_readonly bad = false ->
  forall fuel, (length earlier < fuel)%nat ->
  sha3QueryFunc pf local_aligned fuel db argc argv
  = Some (mk_outcome
            (ResultError
               (list_byte_of_string "non-query: [" ++ bytes_of (stmt_sql bad)
                ++ list_byte_of_string "]"))
            (Some (fold_left (hash_statement pf local_aligned) earlier
                     (SHA3Init pf (if argc =? 1 then 256
                                   else value_int (nth 1 argv null_value)))))).
Proof.
  intros Hs Hnull Hp Hro Hne Hbad Hnro fuel Hfuel. unfold sha3QueryFunc.
  pose proof (size_accepted argc argv Hs) as E.
  rewrite E.
  destruct (value_text (nth 0 argv null_value)) as [|al zSql] eqn:Ez;
    [contradiction|].
  rewrite (sha3Query_loop_non_query pf local_aligned db bad rest zTail earlier
             (SHA3Init pf (if argc =? 1 then 256
                           else value_int (nth 1 argv null_value)))
             (Ptr al zSql) fuel Hp Hro Hne Hbad Hnro Hfuel).
  reflexivity.
Qed.


(** ** The theorems at concrete inputs *)

Lemma KeccakF1600Step_correct_witness :
  state_ok (u_s (SHA3Init Static_1234 256)) /\
  u_s (KeccakF1600Step (SHA3Init Static_1234 256))
    = Spec.keccak_f (u_s (SHA3Init Static_1234 256)).
Proof.
  assert (H : state_ok (u_s (SHA3Init Static_1234 256))).
  { split; [reflexivity|]. cbn. repeat constructor; unfold modulus; lia. }
  split; [exact H|].
  apply (KeccakF1600Step_correct (SHA3Init Static_1234 256) H).
Defined.

Lemma ctx_ok_example : ctx_ok Static_1234 (SHA3Init Static_1234 256).
Proof.
  split; [split; [reflexivity | cbn; repeat constructor; unfold modulus; lia]|].
  cbn. unfold rate_ok. repeat split; try reflexivity; lia.
Defined.

Lemma SHA3Final_correct_witness :
  valid_size 256 /\ ctx_ok Static_1234 (SHA3Init Static_1234 256) /\
  nRate (SHA3Init Static_1234 256) = Sponge.rate 256 /\
  nStep (fst (SHA3Final Static_1234 (fun _ => false) (SHA3Init Static_1234 256)))
    = 1%nat /\
  Z.of_nat (length (SHA3Final_bytes Static_1234 (fun _ => false)
                      (SHA3Init Static_1234 256) (256 / 8))) = 256 / 8.
Proof.
  assert (Hs : valid_size 256) by (right; left; reflexivity).
  assert (Hr : nRate (SHA3Init Static_1234 256) = Sponge.rate 256) by reflexivity.
  split; [exact Hs|]. split; [exact ctx_ok_example|]. split; [exact Hr|].
  destruct (SHA3Final_correct Static_1234 (fun _ => false) 256
              (SHA3Init Static_1234 256) Hs ctx_ok_example Hr)
    as (_ & _ & _ & H1 & _ & _ & H2).
  split; [exact H1 | exact H2].
Defined.

Lemma chunk_independence_witness :
  valid_size 256 /\
  Forall chunk_ok [(true, [x61; x62]); (false, [x63])] /\
  Forall chunk_ok [(false, [x61; x62; x63])] /\
  sha3_of_chunks Static_1234 (fun _ => false) 256
    [(true, [x61; x62]); (false, [x63])]
  = sha3_of_chunks Static_1234 (fun _ => false) 256 [(false, [x61; x62; x63])].
Proof.
  assert (Hs : valid_size 256) by (right; left; reflexivity).
  assert (H1 : Forall chunk_ok [(true, [x61; x62]); (false, [x63])])
    by (repeat constructor; unfold chunk_ok; cbn; lia).
  assert (H2 : Forall chunk_ok [(false, [x61; x62; x63])])
    by (repeat constructor; unfold chunk_ok; cbn; lia).
  split; [exact Hs|]. split; [exact H1|]. split; [exact H2|].
  apply (chunk_independence Static_1234 (fun _ => false) 256 _ _ Hs H1 H2 eq_refl).
Defined.

Lemma SHA3_invariant_witness :
  valid_size 256 /\
  nRate (SHA3Init Static_1234 256) = 136 /\
  loaded_ok (SHA3Init Static_1234 256) /\
  0 <= nLoaded (SHA3Update Static_1234 (SHA3Init Static_1234 256)
                  (Ptr true [x61; x62; x63]) 3)
    < nRate (SHA3Update Static_1234 (SHA3Init Static_1234 256)
               (Ptr true [x61; x62; x63]) 3).
Proof.
  assert (Hs : valid_size 256) by (right; left; reflexivity).
  destruct (SHA3_invariant Static_1234) as (Hinit & Hupd & _).
  destruct (Hinit 256 Hs) as (_ & _ & H136 & _ & _ & _ & _ & _ & Hl).
  split; [exact Hs|]. split; [exact (H136 eq_refl)|]. split; [exact Hl|].
  destruct (Hupd (SHA3Init Static_1234 256) (Ptr true [x61; x62; x63]) 3 Hl)
    as (Er & Hn).
  rewrite Er. exact Hn.
Defined.

Lemma integer_segment_witness :
  let col := mk_value SQLITE_INTEGER 0 0 (-2) 0 NULL NULL in
  value_type col = SQLITE_INTEGER /\
  - 2 ^ 63 <= value_int64 col < 2 ^ 63 /\
  big_endian_value (tl (segment_x "I"%byte (value_int64 col))) = -2 + 2 ^ 64.
Proof.
  intros col.
  assert (Hv : - 2 ^ 63 <= value_int64 col < 2 ^ 63) by (cbn; lia).
  split; [reflexivity|]. split; [exact Hv|].
  destruct (integer_segment Static_1234 (fun _ => false)
              (SHA3Init Static_1234 256) col eq_refl Hv)
    as (_ & _ & _ & _ & _ & _ & H).
  apply H. cbn. lia.
Defined.

Lemma size_error_reported_witness :
  let argv := [null_value; mk_value SQLITE_INTEGER 0 128 128 0 NULL NULL] in
  2 <> 1 /\ ~ valid_size (value_int (nth 1 argv null_value)) /\
  sha3Func Static_1234 (fun _ => false) 2 argv
    = mk_outcome (ResultError size_error) None.
Proof.
  intros argv.
  assert (Hc : 2 <> 1) by lia.
  assert (Hs : ~ valid_size (value_int (nth 1 argv null_value)))
    by (unfold valid_size; cbn; lia).
  split; [exact Hc|]. split; [exact Hs|].
  apply (size_error_reported Static_1234 (fun _ => false) 0 example_db 2 argv Hc Hs).
Defined.

Lemma sha3_of_null_witness :
  value_type (nth 0 [null_value] null_value) = SQLITE_NULL /\
  sha3Func Static_1234 (fun _ => false) 1 [null_value]
    = mk_outcome ResultNull None.
Proof.
  split; [reflexivity|].
  apply (sha3_of_null Static_1234 (fun _ => false) 1 [null_value] eq_refl
           (or_introl eq_refl)).
Defined.

Lemma non_query_aborts_witness :
  let argv := [mk_value SQLITE_TEXT 3 0 0 0 NULL (Ptr false ["S"; "S"; "I"]%byte)] in
  let select := mk_stmt (Ptr false ["S"%byte]) true 0 [] in
  let insert := mk_stmt (Ptr false ["I"%byte]) false 0 [] in
  prepares example_db (value_text (nth 0 argv null_value)) [select; select]
    (Ptr false ["I"%byte]) /\
  res_of (sha3QueryFunc Static_1234 (fun _ => false) 3 example_db 1 argv)
  = Some (ResultError (list_byte_of_string "non-query: [I]")).
Proof.
  intros argv select insert.
  assert (Hp : prepares example_db (value_text (nth 0 argv null_value))
                 [select; select] (Ptr false ["I"%byte])).
  { cbn. split; [discriminate|]. eexists. split; [reflexivity|].
    cbn. split; [discriminate|]. eexists. split; reflexivity. }
  split; [exact Hp|].
  rewrite (non_query_aborts Static_1234 (fun _ => false) example_db 1 argv
             [select; select] insert (Ptr false ["I"%byte]) (Ptr false [])
             (or_introl eq_refl)).
  - reflexivity.
  - discriminate.
  - exact Hp.
  - repeat constructor.
  - discriminate.
  - reflexivity.
  - reflexivity.
  - cbn. lia.
Defined.


(** C7 as the claim words it fails: the integer 4294967552 is none of the
    four sizes, but [sqlite3_value_int] makes 256 of it, and [sha3Func]
    returns the SHA3-256 digest of its first argument, [sha3QueryFunc] that
    of the empty stream, instead of the error. *)
Lemma size_error_reported_counterexample :
  ~ valid_size 4294967552 /\
  value_int64 (integer_value 4294967552) = 4294967552 /\
  value_int (integer_value 4294967552) = 256 /\
  res (sha3Func Static_1234 (fun _ => false) 2
         [text_value false [x61; x62; x63]; integer_value 4294967552])
    = ResultBlob Digest.sha3_256_abc /\
  res (sha3Func Static_1234 (fun _ => false) 2
         [text_value false [x61; x62; x63]; integer_value 4294967552])
    <> ResultError size_error /\
  res_of (sha3QueryFunc Static_1234 (fun _ => false) 1 example_db 2
            [text_value false []; integer_value 4294967552])
    = Some (ResultBlob Digest.sha3_256_empty).
Proof.
  assert (E : res (sha3Func Static_1234 (fun _ => false) 2
                     [text_value false [x61; x62; x63];
                      integer_value 4294967552])
              = ResultBlob Digest.sha3_256_abc) by (vm_compute; reflexivity).
  split; [unfold valid_size; lia |].
  split; [reflexivity |]. split; [reflexivity |].
  split; [exact E |].
  split; [rewrite E; discriminate |].
  vm_compute. reflexivity.
Qed.

(** ** Further properties of the hash engine *)

(** The rounding of [SHA3Init], [(iSize + 31) & ~31], is the next multiple
    of 32. *)
Lemma round_up_32 n : (n + 31) .& Z.lnot 31 = 32 * ((n + 31) / 32).
Proof.
  change 31 with (Z.ones 5) at 2.
  rewrite <- Z.ldiff_land, Z.ldiff_ones_r by lia.
  rewrite Z.shiftl_mul_pow2, Z.shiftr_div_pow2 by lia.
  change (2 ^ 5) with 32. lia.
Qed.

Lemma round_up_32_bounds n :
  128 <= n <= 512 -> 4 <= (n + 31) / 32 <= 16.
Proof.
  intros H. split.
  - apply Z.div_le_lower_bound; lia.
  - assert ((n + 31) / 32 < 17); [| lia].
    apply Z.div_lt_upper_bound; lia.
Qed.

Lemma SHA3Init_fields pf iSize :
  u_s (SHA3Init pf iSize) = repeat 0 25 /\
  u_x_hi (SHA3Init pf iSize) = repeat 0 1400 /\
  nLoaded (SHA3Init pf iSize) = 0 /\
  ixMask (SHA3Init pf iSize) = host_mask pf /\
  nStep (SHA3Init pf iSize) = 0%nat /\
  nRate (SHA3Init pf iSize) =
    if (128 <=? iSize) && (iSize <=? 512)
    then u32 (Z.quot (1600 - ((iSize + 31) .& Z.lnot 31) * 2) 8)
    else 136.
Proof.
  unfold SHA3Init.
  destruct ((128 <=? iSize) && (iSize <=? 512)); destruct pf;
    repeat split; reflexivity.
Qed.

Lemma SHA3Init_rate_in_range iSize :
  128 <= iSize <= 512 ->
  u32 (Z.quot (1600 - ((iSize + 31) .& Z.lnot 31) * 2) 8)
  = 200 - 8 * ((iSize + 31) / 32).
Proof.
  intros H. rewrite round_up_32.
  pose proof (round_up_32_bounds iSize H) as Hq.
  set (q := (iSize + 31) / 32) in *.
  rewrite Z.quot_div_nonneg by lia.
  replace (1600 - 32 * q * 2) with ((200 - 8 * q) * 8) by lia.
  rewrite Z.div_mul by lia.
  unfold u32. apply Z.mod_small. lia.
Qed.

Lemma SHA3Init_rate_any pf iSize :
  72 <= nRate (SHA3Init pf iSize) <= 168 /\ nRate (SHA3Init pf iSize) mod 8 = 0.
Proof.
  destruct (SHA3Init_fields pf iSize) as (_ & _ & _ & _ & _ & ->).
  destruct ((128 <=? iSize) && (iSize <=? 512)) eqn:E.
  - apply andb_true_iff in E. destruct E as [E1 E2].
    apply Z.leb_le in E1. apply Z.leb_le in E2.
    rewrite SHA3Init_rate_in_range by lia.
    assert (128 <= iSize <= 512) as H by lia.
    pose proof (round_up_32_bounds iSize H) as Hq.
    split; [lia |].
    replace (200 - 8 * ((iSize + 31) / 32))
      with ((25 - (iSize + 31) / 32) * 8) by lia.
    apply Z.mod_mul. lia.
  - split; [lia | reflexivity].
Qed.

Lemma SHA3Init_ctx_ok pf iSize : ctx_ok pf (SHA3Init pf iSize).
Proof.
  destruct (SHA3Init_rate_any pf iSize) as [Hr Hm].
  destruct (SHA3Init_fields pf iSize) as (Hs & Hx & Hl & Hi & _ & _).
  unfold ctx_ok, rate_ok. rewrite Hs, Hx, Hl, Hi.
  split; [exact state_ok_zero |].
  split; [reflexivity |].
  split; [split; [lia | exact Hm] |].
  split; [lia | reflexivity].
Qed.

(** X1.  [SHA3Init] leaves a context ready for [SHA3Update] whatever the
    size it is given: the state is zero, nothing is loaded, no permutation
    has run, and the rate is a whole number of lanes between 72 and 168
    bytes. *)
Theorem SHA3Init_any_size pf iSize :
  ctx_ok pf (SHA3Init pf iSize) /\
  u_s (SHA3Init pf iSize) = repeat 0 25 /\
  nLoaded (SHA3Init pf iSize) = 0 /\
  nStep (SHA3Init pf iSize) = 0%nat /\
  72 <= nRate (SHA3Init pf iSize) <= 168 /\
  nRate (SHA3Init pf iSize) mod 8 = 0.
Proof.
  destruct (SHA3Init_fields pf iSize) as (Hs & _ & Hl & _ & Hn & _).
  destruct (SHA3Init_rate_any pf iSize) as [Hr Hm].
  split; [apply SHA3Init_ctx_ok |].
  split; [exact Hs |]. split; [exact Hl |]. split; [exact Hn |].
  split; [exact Hr | exact Hm].
Qed.

(** X2.  A size below 128 or above 512, such as the 0 of the comment on
    [SHA3Init], gives the context of the size 256. *)
Theorem SHA3Init_default_size pf iSize :
  iSize < 128 \/ 512 < iSize ->
  SHA3Init pf iSize = SHA3Init pf 256.
Proof.
  intros H. unfold SHA3Init.
  replace ((128 <=? iSize) && (iSize <=? 512)) with false.
  - reflexivity.
  - symmetry. apply andb_false_iff.
    destruct H; [left; apply Z.leb_gt | right; apply Z.leb_gt]; lia.
Qed.

(** X3.  From 128 to 512, [SHA3Init] rounds the size up to a multiple of 32
    bits: the context is that of the rounded size, and its rate falls by 8
    bytes for each 32 bits. *)
Theorem SHA3Init_size_rounded_up pf iSize :
  128 <= iSize <= 512 ->
  SHA3Init pf iSize = SHA3Init pf (32 * ((iSize + 31) / 32)) /\
  nRate (SHA3Init pf iSize) = 200 - 8 * ((iSize + 31) / 32).
Proof.
  intros H.
  pose proof (round_up_32_bounds iSize H) as Hq.
  split.
  - unfold SHA3Init.
    replace ((128 <=? iSize) && (iSize <=? 512)) with true
      by (symmetry; apply andb_true_iff; split; apply Z.leb_le; lia).
    replace ((128 <=? 32 * ((iSize + 31) / 32))
             && (32 * ((iSize + 31) / 32) <=? 512)) with true
      by (symmetry; apply andb_true_iff; split; apply Z.leb_le; lia).
    rewrite !round_up_32.
    replace ((32 * ((iSize + 31) / 32) + 31) / 32) with ((iSize + 31) / 32).
    + reflexivity.
    + apply Z.div_unique with (r := 31); lia.
  - destruct (SHA3Init_fields pf iSize) as (_ & _ & _ & _ & _ & ->).
    replace ((128 <=? iSize) && (iSize <=? 512)) with true
      by (symmetry; apply andb_true_iff; split; apply Z.leb_le; lia).
    apply SHA3Init_rate_in_range. exact H.
Qed.

(** ** Further properties of [SHA3Update] *)

(** [SHA3Update] of all the bytes at a pointer; the null pointer comes with
    no bytes. *)
Lemma SHA3Update_absorb_ptr pf p a :
  ctx_ok pf p ->
  Z.of_nat (length (bytes_of a)) < 2 ^ 32 ->
  SHA3Update pf p a (Z.of_nat (length (bytes_of a))) = Sponge.absorb p (bytes_of a).
Proof.
  intros H L. destruct a as [| al data].
  - unfold SHA3Update. simpl.
    destruct (SHA3_BYTEORDER pf =? 1234); [destruct (_ && _) |]; reflexivity.
  - apply SHA3Update_absorb; assumption.
Qed.

(** The bytes loaded and the permutations made while absorbing. *)
Lemma absorb_count data : forall p,
  0 <= nLoaded p < nRate p ->
  nLoaded (Sponge.absorb p data)
  = (nLoaded p + Z.of_nat (length data)) mod nRate p /\
  Z.of_nat (nStep (Sponge.absorb p data))
  = Z.of_nat (nStep p) + (nLoaded p + Z.of_nat (length data)) / nRate p.
Proof.
  induction data as [| b data IH]; intros p H.
  - simpl. rewrite Z.add_0_r, Z.mod_small, Z.div_small by lia. lia.
  - change (Sponge.absorb p (b :: data))
      with (Sponge.absorb (Sponge.absorb_byte p (byte_val b)) data).
    pose proof (nRate_absorb_byte p (byte_val b)) as Hr.
    destruct (Z.eq_dec (nLoaded p + 1) (nRate p)) as [E | E].
    + destruct (absorb_byte_at_rate p (byte_val b) E) as [Hl Hs].
      destruct (IH (Sponge.absorb_byte p (byte_val b))) as [I1 I2].
      { rewrite Hl, Hr. lia. }
      rewrite I1, I2, Hl, Hs, Hr.
      replace (nLoaded p + Z.of_nat (length (b :: data)))
        with (0 + Z.of_nat (length data) + 1 * nRate p)
        by (simpl length; lia).
      rewrite Z.mod_add, Z.div_add by lia. lia.
    + destruct (absorb_byte_below p (byte_val b) E) as [Hl Hs].
      destruct (IH (Sponge.absorb_byte p (byte_val b))) as [I1 I2].
      { rewrite Hl, Hr. lia. }
      rewrite I1, I2, Hl, Hs, Hr.
      replace (nLoaded p + Z.of_nat (length (b :: data)))
        with (nLoaded p + 1 + Z.of_nat (length data))
        by (simpl length; lia).
      split; reflexivity.
Qed.

(** X4.  [SHA3Update] keeps the context valid, leaves loaded the bytes that
    do not fill a block, and calls [KeccakF1600Step] once for every block of
    [nRate] bytes completed. *)
Theorem SHA3Update_blocks pf p (aData : cptr) :
  ctx_ok pf p ->
  Z.of_nat (length (bytes_of aData)) < 2 ^ 32 ->
  let nData := Z.of_nat (length (bytes_of aData)) in
  let p' := SHA3Update pf p aData nData in
  ctx_ok pf p' /\
  nRate p' = nRate p /\
  nLoaded p' = (nLoaded p + nData) mod nRate p /\
  Z.of_nat (nStep p') = Z.of_nat (nStep p) + (nLoaded p + nData) / nRate p.
Proof.
  intros H L nData p'. subst p' nData.
  rewrite (SHA3Update_absorb_ptr pf p aData H L).
  assert (0 <= nLoaded p < nRate p) as Hl by apply H.
  destruct (absorb_count (bytes_of aData) p Hl) as [C1 C2].
  split; [apply absorb_ok; exact H |].
  split; [apply nRate_absorb |].
  split; [exact C1 | exact C2].
Qed.

(** X5.  Two calls of [SHA3Update] in a row leave the context that one call
    on the two buffers joined leaves, from any valid context and whatever
    the alignment of the three buffers. *)
Theorem SHA3Update_append pf p al1 al2 al (data1 data2 : list byte) :
  ctx_ok pf p ->
  Z.of_nat (length (data1 ++ data2)) < 2 ^ 32 ->
  SHA3Update pf
    (SHA3Update pf p (Ptr al1 data1) (Z.of_nat (length data1)))
    (Ptr al2 data2) (Z.of_nat (length data2))
  = SHA3Update pf p (Ptr al (data1 ++ data2))
      (Z.of_nat (length (data1 ++ data2))).
Proof.
  intros H L.
  assert (Z.of_nat (length data1) < 2 ^ 32 /\ Z.of_nat (length data2) < 2 ^ 32)
    as [L1 L2] by (rewrite length_app in L; lia).
  rewrite (SHA3Update_absorb pf p al1 data1 H L1).
  rewrite (SHA3Update_absorb pf _ al2 data2 (absorb_ok pf p data1 H) L2).
  rewrite (SHA3Update_absorb pf p al (data1 ++ data2) H L).
  symmetry. apply absorb_app.
Qed.

(** A byte of the state after one byte is XOR-ed in. *)
Lemma state_byte_xor_byte s n b j :
  length s = 25%nat -> 0 <= n < 200 -> 0 <= j -> is_byte b ->
  Sponge.state_byte (Sponge.xor_byte s n b) j
  = if j =? n then Sponge.state_byte s j .^ b else Sponge.state_byte s j.
Proof.
  intros Hs Hn Hj Hb. unfold Sponge.state_byte, Sponge.xor_byte.
  assert (0 <= n mod 8 < 8) as Hm by (apply Z.mod_pos_bound; lia).
  assert (0 <= j mod 8 < 8) as Hm' by (apply Z.mod_pos_bound; lia).
  assert (0 <= n / 8 < 25) as Hd
    by (split; [apply Z.div_pos; lia | apply Z.div_lt_upper_bound; lia]).
  assert (0 <= j / 8) as Hd' by (apply Z.div_pos; lia).
  rewrite <- (lane_xor_byte (ld s (Z.to_nat (n / 8))) (n mod 8) b) by lia || assumption.
  assert (is_byte (lane_byte (ld s (Z.to_nat (n / 8))) (n mod 8) .^ b)) as Hx
    by (apply is_byte_lxor; [apply is_byte_lane_byte; lia | exact Hb]).
  destruct (Z.eq_dec (j / 8) (n / 8)) as [E | E].
  - rewrite E, ld_st_same by lia.
    destruct (Z.eq_dec (j mod 8) (n mod 8)) as [E' | E'].
    + assert (j = n) as ->
        by (rewrite (Z.div_mod j 8), (Z.div_mod n 8) by lia; lia).
      rewrite Z.eqb_refl. apply lane_byte_set_same; [lia | exact Hx].
    + replace (j =? n) with false
        by (symmetry; apply Z.eqb_neq; intros ->; apply E'; reflexivity).
      apply lane_byte_set_other; [lia | lia | congruence | exact Hx].
  - replace (j =? n) with false
      by (symmetry; apply Z.eqb_neq; intros ->; apply E; reflexivity).
    rewrite ld_st_other by lia. reflexivity.
Qed.

Lemma length_xor_byte s n b : length (Sponge.xor_byte s n b) = length s.
Proof. apply length_st. Qed.

(** Absorbing bytes that do not fill the block XORs them into the state
    from the loaded count on and touches nothing else. *)
Lemma absorb_within_block data : forall p,
  length (u_s p) = 25%nat ->
  0 <= nLoaded p ->
  nLoaded p + Z.of_nat (length data) < nRate p ->
  nRate p <= 200 ->
  nLoaded (Sponge.absorb p data) = nLoaded p + Z.of_nat (length data) /\
  nStep (Sponge.absorb p data) = nStep p /\
  u_x_hi (Sponge.absorb p data) = u_x_hi p /\
  forall j, 0 <= j ->
    Sponge.state_byte (u_s (Sponge.absorb p data)) j
    = if (nLoaded p <=? j) && (j <? nLoaded p + Z.of_nat (length data))
      then Sponge.state_byte (u_s p) j
           .^ byte_val (nth (Z.to_nat (j - nLoaded p)) data x00)
      else Sponge.state_byte (u_s p) j.
Proof.
  induction data as [| b data IH]; intros p Hs H0 Hl Hr.
  - simpl. split; [lia |]. split; [reflexivity |]. split; [reflexivity |].
    intros j Hj.
    replace ((nLoaded p <=? j) && (j <? nLoaded p + 0)) with false;
      [reflexivity |].
    symmetry. apply andb_false_iff.
    destruct (Z.leb_spec (nLoaded p) j); [right; apply Z.ltb_ge; lia | left; reflexivity].
  - change (Sponge.absorb p (b :: data))
      with (Sponge.absorb (Sponge.absorb_byte p (byte_val b)) data).
    simpl length in *.
    assert (nLoaded p + 1 <> nRate p) as E by lia.
    set (q := Sponge.absorb_byte p (byte_val b)).
    assert (q = mkSHA3Context (Sponge.xor_byte (u_s p) (nLoaded p) (byte_val b))
                  (u_x_hi p) (nRate p) (nLoaded p + 1) (ixMask p) (nStep p))
      as Hq.
    { subst q. destruct p as [s hi r n m c]. apply absorb_byte_inner. exact E. }
    assert (u_s q = Sponge.xor_byte (u_s p) (nLoaded p) (byte_val b)) as Q1
      by (rewrite Hq; reflexivity).
    assert (nLoaded q = nLoaded p + 1) as Q2 by (rewrite Hq; reflexivity).
    assert (nRate q = nRate p) as Q3 by (rewrite Hq; reflexivity).
    assert (nStep q = nStep p) as Q4 by (rewrite Hq; reflexivity).
    assert (u_x_hi q = u_x_hi p) as Q5 by (rewrite Hq; reflexivity).
    destruct (IH q) as (I1 & I2 & I3 & I4).
    { rewrite Q1, length_xor_byte. exact Hs. }
    { lia. }
    { lia. }
    { lia. }
    split; [lia |]. split; [congruence |]. split; [congruence |].
    intros j Hj. rewrite (I4 j Hj), Q1, Q2.
    rewrite (state_byte_xor_byte (u_s p) (nLoaded p) (byte_val b) j Hs)
      by (lia || apply is_byte_byte_val).
    destruct (Z.eq_dec j (nLoaded p)) as [-> | N].
    + rewrite Z.eqb_refl, Z.leb_refl.
      replace (nLoaded p + 1 <=? nLoaded p) with false
        by (symmetry; apply Z.leb_gt; lia).
      replace (nLoaded p <? nLoaded p + Z.of_nat (S (length data))) with true
        by (symmetry; apply Z.ltb_lt; lia).
      rewrite Z.sub_diag. reflexivity.
    + replace (j =? nLoaded p) with false by (symmetry; apply Z.eqb_neq; exact N).
      replace (nLoaded p + 1 + Z.of_nat (length data))
        with (nLoaded p + Z.of_nat (S (length data))) by lia.
      destruct (Z.leb_spec (nLoaded p + 1) j) as [G | G].
      * replace (nLoaded p <=? j) with true by (symmetry; apply Z.leb_le; lia).
        rewrite !andb_true_l.
        destruct (j <? nLoaded p + Z.of_nat (S (length data))); [| reflexivity].
        replace (Z.to_nat (j - nLoaded p)) with (S (Z.to_nat (j - (nLoaded p + 1))))
          by lia.
        reflexivity.
      * replace (nLoaded p <=? j) with false by (symmetry; apply Z.leb_gt; lia).
        reflexivity.
Qed.

(** X6.  While the block is not full, [SHA3Update] XORs byte [i] of the
    input into the byte of [u.x] at [(nLoaded + i) ^ ixMask], changes no
    other byte of the state, and does not call [KeccakF1600Step]. *)
Theorem SHA3Update_within_block pf p (aData : cptr) :
  ctx_ok pf p ->
  nLoaded p + Z.of_nat (length (bytes_of aData)) < nRate p ->
  let nData := Z.of_nat (length (bytes_of aData)) in
  let p' := SHA3Update pf p aData nData in
  nStep p' = nStep p /\
  nLoaded p' = nLoaded p + nData /\
  u_x_hi p' = u_x_hi p /\
  forall j, 0 <= j < 200 ->
    x_get pf p' (Z.lxor j (ixMask p))
    = if (nLoaded p <=? j) && (j <? nLoaded p + nData)
      then x_get pf p (Z.lxor j (ixMask p)) .^ deref aData (j - nLoaded p)
      else x_get pf p (Z.lxor j (ixMask p)).
Proof.
  intros H L nData p'. subst p' nData.
  assert (H' := H).
  destruct H' as ((Hs & _) & _ & ((_ & Hr) & _) & (Hl & _) & Hm).
  rewrite (SHA3Update_absorb_ptr pf p aData H) by lia.
  destruct (absorb_within_block (bytes_of aData) p Hs Hl L Hr)
    as (A1 & A2 & A3 & A4).
  split; [exact A2 |]. split; [exact A1 |]. split; [exact A3 |].
  intros j Hj. rewrite Hm, !x_get_mask by exact Hj.
  rewrite (A4 j) by lia. reflexivity.
Qed.

(** ** The hash as a function of the size and of the bytes *)

Section ReferenceSponge.

Variable pf : platform.

Lemma absorb_byte_reference p b :
  ctx_ok pf p -> is_byte b ->
  Reference.absorb_byte (nRate p) (u_s p, nLoaded p) b
  = (u_s (Sponge.absorb_byte p b), nLoaded (Sponge.absorb_byte p b)).
Proof.
  intros H Hb. unfold Reference.absorb_byte, Sponge.absorb_byte.
  cbn [fst snd].
  destruct (nLoaded p + 1 =? nRate p); cbn [u_s nLoaded]; [| reflexivity].
  rewrite KeccakF1600_lanes_correct; [reflexivity |].
  apply xor_byte_state_ok; [apply H | exact Hb].
Qed.

Lemma absorb_reference data : forall p,
  ctx_ok pf p ->
  Reference.absorb (nRate p) (u_s p, nLoaded p) data
  = (u_s (Sponge.absorb p data), nLoaded (Sponge.absorb p data)).
Proof.
  induction data as [| b data IH]; intros p H; [reflexivity |].
  cbn [Reference.absorb Sponge.absorb fold_left].
  rewrite (absorb_byte_reference p (byte_val b) H (is_byte_byte_val b)).
  pose proof (IH (Sponge.absorb_byte p (byte_val b))
                (absorb_byte_ok pf p (byte_val b) H (is_byte_byte_val b))) as I.
  rewrite nRate_absorb_byte in I. exact I.
Qed.

Lemma pad_reference p :
  ctx_ok pf p ->
  Reference.pad (nRate p) (u_s p, nLoaded p)
  = (u_s (Sponge.pad p), nLoaded (Sponge.pad p)).
Proof.
  intros H. unfold Reference.pad, Sponge.pad. cbn [fst snd].
  assert (is_byte 0x86 /\ is_byte 0x06 /\ is_byte 0x80) as (B1 & B2 & B3)
    by (unfold is_byte; lia).
  destruct (nLoaded p =? nRate p - 1) eqn:E.
  - apply absorb_byte_reference; assumption.
  - rewrite (absorb_byte_reference p 0x06 H B2). cbn [fst].
    apply Z.eqb_neq in E.
    set (q := set_nLoaded (Sponge.absorb_byte p 0x06) (nRate p - 1)).
    assert (ctx_ok pf q) as Hq.
    { apply set_nLoaded_ok; [apply absorb_byte_ok; assumption |].
      rewrite nRate_absorb_byte.
      destruct H as (_ & _ & ((Hr & _) & _) & _). lia. }
    pose proof (absorb_byte_reference q 0x80 Hq B3) as R.
    replace (nRate q) with (nRate p) in R
      by (subst q; cbn [set_nLoaded nRate]; symmetry; apply nRate_absorb_byte).
    exact R.
Qed.

Lemma padded_state_reference size data :
  valid_size size ->
  u_s (Sponge.pad (Sponge.absorb (SHA3Init pf size) data))
  = fst (Reference.pad (Sponge.rate size)
           (Reference.absorb (Sponge.rate size) Reference.init data)).
Proof.
  intros Hs.
  pose proof (SHA3Init_ok pf size Hs) as H0.
  pose proof (absorb_reference data _ H0) as A.
  rewrite (SHA3Init_rate pf size Hs) in A.
  destruct (SHA3Init_fields pf size) as (F1 & _ & F2 & _).
  rewrite F1, F2 in A. change (repeat 0 25, 0) with Reference.init in A.
  rewrite A.
  pose proof (pad_reference _ (absorb_ok pf _ data H0)) as P.
  rewrite nRate_absorb, (SHA3Init_rate pf size Hs) in P.
  rewrite P. reflexivity.
Qed.

End ReferenceSponge.

(** X7.  The hash of buffers fed one by one is the SHA3 sponge over the
    permutation of the specification applied to the bytes of the buffers
    taken together: it depends on the size and on the bytes alone, not on
    the platform, on the cut into buffers or on their alignment. *)
Theorem sha3_of_chunks_reference pf local_aligned size
    (chunks : list (bool * list byte)) :
  valid_size size ->
  Forall chunk_ok chunks ->
  sha3_of_chunks pf local_aligned size chunks
  = Reference.sha3 size (concat (map snd chunks)).
Proof.
  intros Hs Hc.
  rewrite (sha3_of_chunks_spec pf local_aligned size chunks Hs Hc).
  rewrite (padded_state_reference pf size _ Hs). reflexivity.
Qed.

(** The size both SQL functions use. *)
Lemma size_valid argc (argv : list sqlite3_value) :
  argc = 1 \/ valid_size (value_int (nth 1 argv null_value)) ->
  valid_size (if argc =? 1 then 256 else value_int (nth 1 argv null_value)).
Proof.
  intros Hs. destruct (Z.eqb_spec argc 1); [right; left; reflexivity |].
  destruct Hs; [contradiction | assumption].
Qed.

Lemma valid_size_facts size :
  valid_size size ->
  Z.quot size 8 = size / 8 /\ 0 <= size / 8 <= Sponge.rate size /\
  0 < Sponge.rate size.
Proof.
  intros [-> | [-> | [-> | ->]]]; cbv; intuition discriminate.
Qed.

(** What [SHA3Final] hands to [sqlite3_result_blob] after the bytes [data]
    were absorbed, and the permutations made. *)
Lemma finish_reference pf local_aligned size data :
  valid_size size ->
  let cx := Sponge.absorb (SHA3Init pf size) data in
  x_read pf (fst (SHA3Final pf local_aligned cx))
    (snd (SHA3Final pf local_aligned cx)) (Z.quot size 8)
  = Reference.sha3 size data /\
  Z.of_nat (nStep (fst (SHA3Final pf local_aligned cx)))
  = Z.of_nat (length data) / Sponge.rate size + 1.
Proof.
  intros Hs cx.
  destruct (valid_size_facts size Hs) as (Eq & Hn & Hr).
  pose proof (SHA3Init_ok pf size Hs) as H0.
  assert (ctx_ok pf cx) as Hc by (apply absorb_ok; exact H0).
  assert (nRate cx = Sponge.rate size) as Rc
    by (subst cx; rewrite nRate_absorb; apply SHA3Init_rate; exact Hs).
  split.
  - destruct (SHA3Final_bytes_spec pf local_aligned cx (size / 8) Hc) as (_ & E).
    { rewrite Rc. exact Hn. }
    unfold SHA3Final_bytes in E. rewrite Eq.
    destruct (SHA3Final pf local_aligned cx) as [c h]. cbn [fst snd].
    rewrite E. unfold Reference.sha3. subst cx.
    rewrite (padded_state_reference pf size data Hs). reflexivity.
  - destruct (SHA3Final_result pf local_aligned cx Hc) as (_ & S1 & _).
    rewrite S1.
    destruct (SHA3Init_fields pf size) as (_ & _ & F2 & _ & F3 & _).
    destruct (absorb_count data (SHA3Init pf size)) as (_ & C).
    { rewrite F2, (SHA3Init_rate pf size Hs). lia. }
    fold cx in C. rewrite F2, F3, (SHA3Init_rate pf size Hs) in C.
    rewrite Nat2Z.inj_succ, C. change (Z.of_nat 0) with 0.
    rewrite !Z.add_0_l. lia.
Qed.

(** X8.  [sha3Func] on a value that is not NULL returns the SHA3 of the
    bytes of the blob for a blob and of the text for every other type, and
    makes one permutation per block of the rate completed and one for the
    padding. *)
Theorem sha3Func_digest pf local_aligned argc (argv : list sqlite3_value) :
  let X := nth 0 argv null_value in
  let iSize := if argc =? 1 then 256 else value_int (nth 1 argv null_value) in
  argc = 1 \/ valid_size (value_int (nth 1 argv null_value)) ->
  value_type X <> SQLITE_NULL ->
  value_bytes X = Z.of_nat (length (bytes_of (hashed_bytes X))) ->
  value_bytes X < 2 ^ 31 ->
  res (sha3Func pf local_aligned argc argv)
  = ResultBlob (Reference.sha3 iSize (bytes_of (hashed_bytes X))) /\
  Z.of_nat (permutations (sha3Func pf local_aligned argc argv))
  = value_bytes X / Sponge.rate iSize + 1.
Proof.
  intros X iSize Hs Hn Hb Hi.
  pose proof (size_valid argc argv Hs) as Hv. fold iSize in Hv.
  pose proof (size_accepted argc argv Hs) as E. fold iSize in E.
  unfold sha3Func. fold X iSize. rewrite E.
  assert (u32 (value_bytes X) = Z.of_nat (length (bytes_of (hashed_bytes X))))
    as Hu by (unfold u32; rewrite Z.mod_small; lia).
  assert ((match value_type X with
           | SQLITE_BLOB => SHA3Update pf (SHA3Init pf iSize) (value_blob X)
                              (u32 (value_bytes X))
           | _ => SHA3Update pf (SHA3Init pf iSize) (value_text X)
                    (u32 (value_bytes X))
           end)
          = Sponge.absorb (SHA3Init pf iSize) (bytes_of (hashed_bytes X))) as A.
  { rewrite Hu. clear Hu. revert Hb. unfold hashed_bytes.
    destruct (value_type X); intros Hb; apply SHA3Update_absorb_ptr;
      try (apply SHA3Init_ok; exact Hv); lia. }
  destruct (finish_reference pf local_aligned iSize
              (bytes_of (hashed_bytes X)) Hv) as (R1 & R2).
  rewrite <- Hb in R2.
  revert A Hn.
  destruct (value_type X); intros A Hn; try contradiction; rewrite A;
    destruct (SHA3Final pf local_aligned _) as [c h];
    cbn [fst snd] in R1, R2; cbn [res permutations hash];
    rewrite R1; (split; [reflexivity | exact R2]).
Qed.

(** ** The numbers in the stream of a query *)

Lemma nb_digits_double d :
  (Decimal.nb_digits (Decimal.Little.double d) <= S (Decimal.nb_digits d))%nat /\
  (Decimal.nb_digits (Decimal.Little.succ_double d) <= S (Decimal.nb_digits d))%nat.
Proof.
  induction d as [| d [I1 I2] | d [I1 I2] | d [I1 I2] | d [I1 I2] | d [I1 I2]
                  | d [I1 I2] | d [I1 I2] | d [I1 I2] | d [I1 I2] | d [I1 I2]];
    simpl; lia.
Qed.

Lemma nb_digits_to_little_uint p :
  (Decimal.nb_digits (Pos.to_little_uint p) <= Pos.size_nat p)%nat.
Proof.
  induction p as [p IH | p IH |]; simpl.
  - pose proof (proj2 (nb_digits_double (Pos.to_little_uint p))). lia.
  - pose proof (proj1 (nb_digits_double (Pos.to_little_uint p))). lia.
  - lia.
Qed.

Lemma length_list_byte_of_string s :
  length (list_byte_of_string s) = String.length s.
Proof.
  unfold list_byte_of_string. rewrite length_map.
  induction s as [| c s IH]; simpl; [reflexivity | rewrite IH; reflexivity].
Qed.

Lemma length_string_of_uint d :
  String.length (NilEmpty.string_of_uint d) = Decimal.nb_digits d.
Proof. induction d; simpl; congruence. Qed.

Lemma length_to_uint p :
  Z.pos p < 2 ^ 32 ->
  (String.length (NilZero.string_of_uint (Pos.to_uint p)) <= 33)%nat.
Proof.
  intros H.
  assert (NilZero.string_of_uint (Pos.to_uint p)
          = NilEmpty.string_of_uint (Pos.to_uint p)) as ->.
  { pose proof (DecimalPos.Unsigned.to_uint_nonnil p) as N.
    destruct (Pos.to_uint p); [contradiction | reflexivity ..]. }
  rewrite length_string_of_uint. unfold Pos.to_uint.
  rewrite DecimalFacts.nb_digits_rev.
  pose proof (nb_digits_to_little_uint p) as D.
  assert (Pos.size_nat p <= Pos.size_nat (2 ^ 32))%nat as M
    by (apply Pos.size_nat_monotone; lia).
  change (Pos.size_nat (2 ^ 32)) with 33%nat in M. lia.
Qed.

(** The decimal text of an [int] has at most 34 characters, and spells the
    number. *)
Lemma length_decimal n :
  - 2 ^ 31 <= n < 2 ^ 31 -> (length (decimal n) <= 34)%nat.
Proof.
  intros H. unfold decimal. rewrite length_list_byte_of_string.
  destruct n as [| p | p]; simpl Z.to_int; cbn [NilZero.string_of_int].
  - simpl. lia.
  - pose proof (length_to_uint p). lia.
  - cbn [String.length]. pose proof (length_to_uint p). lia.
Qed.

Lemma parse_decimal_decimal n : parse_decimal (decimal n) = Some n.
Proof.
  unfold parse_decimal, decimal.
  rewrite string_of_list_byte_of_string, NilZero.isi.
  - simpl. rewrite DecimalZ.of_to. reflexivity.
  - destruct n; simpl; intros E; inversion E.
    + eapply DecimalPos.Unsigned.to_uint_nonnil; eassumption.
  - destruct n; simpl; intros E; inversion E.
    + eapply DecimalPos.Unsigned.to_uint_nonnil; eassumption.
Qed.

Lemma firstn_short {A} (l : list A) k : (length l <= k)%nat -> firstn k l = l.
Proof. apply firstn_all2. Qed.

(** The three formats of [sha3QueryFunc] fit the buffer of 50 bytes. *)
Lemma sqlite3_vsnprintf_counted n :
  - 2 ^ 31 <= n < 2 ^ 31 ->
  sqlite3_vsnprintf 50 "S%d:" n = Canonical.counted "S"%byte n /\
  sqlite3_vsnprintf 50 "T%d:" n = Canonical.counted "T"%byte n /\
  sqlite3_vsnprintf 50 "B%d:" n = Canonical.counted "B"%byte n.
Proof.
  intros H. pose proof (length_decimal n H) as L.
  assert (forall c, firstn 49 (Canonical.counted c n) = Canonical.counted c n) as F.
  { intros c. apply firstn_short. unfold Canonical.counted.
    cbn [length]. rewrite length_app. cbn [length]. lia. }
  split; [| split]; apply F.
Qed.

Section Stream.

Variable pf : platform.
Variable local_aligned : string -> bool.

Lemma hash_step_vformat_counted cx n :
  ctx_ok pf cx ->
  - 2 ^ 31 <= n < 2 ^ 31 ->
  hash_step_vformat pf local_aligned cx "S%d:" n
    = Sponge.absorb cx (Canonical.counted "S"%byte n) /\
  hash_step_vformat pf local_aligned cx "T%d:" n
    = Sponge.absorb cx (Canonical.counted "T"%byte n) /\
  hash_step_vformat pf local_aligned cx "B%d:" n
    = Sponge.absorb cx (Canonical.counted "B"%byte n).
Proof.
  intros H Hn. unfold hash_step_vformat.
  destruct (sqlite3_vsnprintf_counted n Hn) as (-> & -> & ->).
  pose proof (length_decimal n Hn) as L.
  assert (forall c, Z.of_nat (length (Canonical.counted c n)) < 2 ^ 32) as B.
  { intros c. unfold Canonical.counted. cbn [length]. rewrite length_app.
    cbn [length]. lia. }
  unfold strlen, u32. cbn [bytes_of].
  rewrite !Z.mod_small by (split; [lia | apply B]).
  split; [| split]; apply SHA3Update_absorb; (exact H || apply B).
Qed.

Lemma hash_column_stream cx col :
  ctx_ok pf cx -> value_wf col ->
  hash_column pf local_aligned cx col = Sponge.absorb cx (Canonical.value col).
Proof.
  intros H W. unfold hash_column, Canonical.value, value_wf in *.
  destruct (value_type col).
  - apply (SHA3Update_absorb pf cx _ (segment_x "I"%byte (value_int64 col)) H).
    rewrite segment_x_bytes. cbv. reflexivity.
  - apply (SHA3Update_absorb pf cx _ (segment_x "F"%byte (value_double col)) H).
    rewrite segment_x_bytes. cbv. reflexivity.
  - destruct W as [W1 W2].
    assert (- 2 ^ 31 <= value_bytes col < 2 ^ 31) as R by lia.
    destruct (hash_step_vformat_counted cx (value_bytes col) H R) as (_ & -> & _).
    rewrite absorb_app. unfold u32. rewrite Z.mod_small by lia. rewrite W1.
    apply SHA3Update_absorb_ptr; [apply absorb_ok; exact H | lia].
  - destruct W as [W1 W2].
    assert (- 2 ^ 31 <= value_bytes col < 2 ^ 31) as R by lia.
    destruct (hash_step_vformat_counted cx (value_bytes col) H R) as (_ & _ & ->).
    rewrite absorb_app. unfold u32. rewrite Z.mod_small by lia. rewrite W1.
    apply SHA3Update_absorb_ptr; [apply absorb_ok; exact H | lia].
  - apply (SHA3Update_one pf cx _ "N"%byte H).
Qed.

Lemma hash_columns_stream row cols : forall cx,
  ctx_ok pf cx -> Forall value_wf row ->
  fold_left (fun cx i => hash_column pf local_aligned cx (nth i row null_value))
    cols cx
  = Sponge.absorb cx
      (flat_map (fun i => Canonical.value (nth i row null_value)) cols).
Proof.
  induction cols as [| i cols IH]; intros cx H W; [reflexivity |].
  cbn [fold_left flat_map]. rewrite absorb_app.
  assert (value_wf (nth i row null_value)) as Wi
    by (apply nth_Forall; [exact W | exact I]).
  rewrite (hash_column_stream cx _ H Wi).
  apply IH; [apply absorb_ok; exact H | exact W].
Qed.

Lemma hash_row_stream nCol cx row :
  ctx_ok pf cx -> Forall value_wf row ->
  hash_row pf local_aligned nCol cx row
  = Sponge.absorb cx (Canonical.row nCol row).
Proof.
  intros H W. unfold hash_row, Canonical.row.
  rewrite (SHA3Update_one pf cx _ "R"%byte H).
  rewrite hash_columns_stream
    by (try apply absorb_byte_ok; try apply is_byte_byte_val; assumption).
  reflexivity.
Qed.

Lemma hash_rows_stream nCol rows : forall cx,
  ctx_ok pf cx -> Forall (Forall value_wf) rows ->
  fold_left (hash_row pf local_aligned nCol) rows cx
  = Sponge.absorb cx (flat_map (Canonical.row nCol) rows).
Proof.
  induction rows as [| r rows IH]; intros cx H W; [reflexivity |].
  inversion W as [| ? ? W1 W2]; subst.
  cbn [fold_left flat_map]. rewrite absorb_app, (hash_row_stream nCol cx r H W1).
  apply IH; [apply absorb_ok; exact H | exact W2].
Qed.

Lemma hash_statement_stream cx pStmt :
  ctx_ok pf cx -> stmt_wf pStmt ->
  hash_statement pf local_aligned cx pStmt
  = Sponge.absorb cx (Canonical.statement pStmt).
Proof.
  intros H [W1 W2]. unfold hash_statement, Canonical.statement.
  assert (0 <= strlen (stmt_sql pStmt)) as P by (unfold strlen; lia).
  assert (- 2 ^ 31 <= strlen (stmt_sql pStmt) < 2 ^ 31) as R by lia.
  destruct (hash_step_vformat_counted cx _ H R) as (-> & _ & _).
  rewrite !absorb_app. unfold u32. rewrite Z.mod_small by lia.
  unfold strlen at 1.
  rewrite SHA3Update_absorb_ptr
    by (try apply absorb_ok; try exact H; unfold strlen in W1; lia).
  apply hash_rows_stream; [do 2 apply absorb_ok; exact H | exact W2].
Qed.

Lemma hash_statements_stream stmts : forall cx,
  ctx_ok pf cx -> Forall stmt_wf stmts ->
  fold_left (hash_statement pf local_aligned) stmts cx
  = Sponge.absorb cx (Canonical.stream stmts).
Proof.
  induction stmts as [| s stmts IH]; intros cx H W; [reflexivity |].
  inversion W as [| ? ? W1 W2]; subst.
  unfold Canonical.stream. cbn [fold_left flat_map].
  rewrite absorb_app, (hash_statement_stream cx s H W1).
  apply IH; [apply absorb_ok; exact H | exact W2].
Qed.

Variable db : sqlite3.

(** The loop over statements that are all read-only, up to the end of the
    text. *)
Lemma sha3Query_loop_done stmts rest : forall cx zSql fuel,
  prepares db zSql stmts rest ->
  bytes_of rest = [] ->
  Forall (fun pStmt => stmt_readonly pStmt = true) stmts ->
  (length stmts < fuel)%nat ->
  sha3Query_loop pf local_aligned fuel db cx zSql
  = Some (inr (fold_left (hash_statement pf local_aligned) stmts cx)).
Proof.
  induction stmts as [| s stmts IH]; intros cx zSql fuel P E R F.
  - cbn [prepares] in P. subst zSql.
    destruct fuel as [| fuel]; [cbn [length] in F; lia |].
    cbn [sha3Query_loop]. rewrite E. reflexivity.
  - destruct P as (N & zTail & P1 & P2).
    inversion R as [| ? ? R1 R2]; subst.
    destruct fuel as [| fuel]; [cbn [length] in F; lia |].
    cbn [sha3Query_loop fold_left].
    destruct (bytes_of zSql) as [| c l] eqn:B; [contradiction |].
    rewrite P1, R1. cbn [negb].
    apply IH; try assumption. cbn [length] in F. lia.
Qed.

(** The loop when a statement does not compile. *)
Lemma sha3Query_loop_error earlier rest zTail errmsg : forall cx zSql fuel,
  prepares db zSql earlier rest ->
  Forall (fun pStmt => stmt_readonly pStmt = true) earlier ->
  bytes_of rest <> [] ->
  sqlite3_prepare_v2 db (bytes_of rest) = PrepareError zTail errmsg ->
  (length earlier < fuel)%nat ->
  sha3Query_loop pf local_aligned fuel db cx zSql
  = Some (inl (ResultError (error_sql_statement zTail errmsg),
               fold_left (hash_statement pf local_aligned) earlier cx)).
Proof.
  induction earlier as [| s stmts IH]; intros cx zSql fuel P R N E F.
  - cbn [prepares] in P. subst zSql.
    destruct fuel as [| fuel]; [cbn [length] in F; lia |].
    cbn [sha3Query_loop fold_left].
    destruct (bytes_of rest) as [| c l] eqn:B; [contradiction |].
    rewrite E. reflexivity.
  - destruct P as (N' & zTail' & P1 & P2).
    inversion R as [| ? ? R1 R2]; subst.
    destruct fuel as [| fuel]; [cbn [length] in F; lia |].
    cbn [sha3Query_loop fold_left].
    destruct (bytes_of zSql) as [| c l] eqn:B; [contradiction |].
    rewrite P1, R1. cbn [negb].
    apply IH; try assumption. cbn [length] in F. lia.
Qed.

(** The loop when the text left holds no statement. *)
Lemma sha3Query_loop_fault earlier rest zTail : forall cx zSql fuel,
  prepares db zSql earlier rest ->
  Forall (fun pStmt => stmt_readonly pStmt = true) earlier ->
  bytes_of rest <> [] ->
  sqlite3_prepare_v2 db (bytes_of rest) = PrepareNone zTail ->
  (length earlier < fuel)%nat ->
  sha3Query_loop pf local_aligned fuel db cx zSql
  = Some (inl (Fault, fold_left (hash_statement pf local_aligned) earlier cx)).
Proof.
  induction earlier as [| s stmts IH]; intros cx zSql fuel P R N E F.
  - cbn [prepares] in P. subst zSql.
    destruct fuel as [| fuel]; [cbn [length] in F; lia |].
    cbn [sha3Query_loop fold_left].
    destruct (bytes_of rest) as [| c l] eqn:B; [contradiction |].
    rewrite E. reflexivity.
  - destruct P as (N' & zTail' & P1 & P2).
    inversion R as [| ? ? R1 R2]; subst.
    destruct fuel as [| fuel]; [cbn [length] in F; lia |].
    cbn [sha3Query_loop fold_left].
    destruct (bytes_of zSql) as [| c l] eqn:B; [contradiction |].
    rewrite P1, R1. cbn [negb].
    apply IH; try assumption. cbn [length] in F. lia.
Qed.

(** The loop comes to an end when each statement uses up some of the
    text. *)
Lemma sha3Query_loop_ends : forall fuel cx zSql,
  consumes db ->
  (length (bytes_of zSql) < fuel)%nat ->
  sha3Query_loop pf local_aligned fuel db cx zSql <> None.
Proof.
  induction fuel as [| fuel IH]; intros cx zSql C F; [lia |].
  cbn [sha3Query_loop].
  destruct (bytes_of zSql) as [| c l] eqn:B; [discriminate |].
  destruct (sqlite3_prepare_v2 db (c :: l)) as [t e | s t | t] eqn:P;
    [discriminate | | discriminate].
  destruct (negb (stmt_readonly s)); [discriminate |].
  apply IH; [exact C |].
  pose proof (C (c :: l) s t P) as L. cbn [length] in *. lia.
Qed.

(** The loop faults only at a text that holds no statement, reached through
    read-only statements. *)
Lemma sha3Query_loop_fault_only : forall fuel cx zSql cx',
  sha3Query_loop pf local_aligned fuel db cx zSql = Some (inl (Fault, cx')) ->
  exists stmts rest zTail,
    prepares db zSql stmts rest /\
    Forall (fun pStmt => stmt_readonly pStmt = true) stmts /\
    bytes_of rest <> [] /\
    sqlite3_prepare_v2 db (bytes_of rest) = PrepareNone zTail.
Proof.
  induction fuel as [| fuel IH]; intros cx zSql cx' H; [discriminate H |].
  cbn [sha3Query_loop] in H.
  destruct (bytes_of zSql) as [| c l] eqn:B; [discriminate H |].
  destruct (sqlite3_prepare_v2 db (c :: l)) as [t e | s t | t] eqn:P.
  - discriminate H.
  - destruct (stmt_readonly s) eqn:R; cbn [negb] in H; [| discriminate H].
    destruct (IH _ _ _ H) as (stmts & rest & zTail & Q1 & Q2 & Q3 & Q4).
    exists (s :: stmts), rest, zTail.
    split; [| split; [constructor; assumption | split; assumption]].
    cbn [prepares]. rewrite B. split; [discriminate |].
    exists t. split; assumption.
  - exists [], zSql, t. rewrite B.
    split; [reflexivity |]. split; [constructor |].
    split; [discriminate | exact P].
Qed.

End Stream.

(** ** Further properties of the SQL functions *)

(** X9.  The buffer of 50 bytes of [hash_step_vformat] holds the letter, the
    number and the colon of every [int] in full: with each of the three
    formats in use the call absorbs the letter, the decimal digits, which
    spell the number, and the colon. *)
Theorem hash_step_vformat_decimal pf local_aligned cx n :
  ctx_ok pf cx ->
  - 2 ^ 31 <= n < 2 ^ 31 ->
  hash_step_vformat pf local_aligned cx "S%d:" n
    = Sponge.absorb cx ("S"%byte :: decimal n ++ [":"%byte]) /\
  hash_step_vformat pf local_aligned cx "T%d:" n
    = Sponge.absorb cx ("T"%byte :: decimal n ++ [":"%byte]) /\
  hash_step_vformat pf local_aligned cx "B%d:" n
    = Sponge.absorb cx ("B"%byte :: decimal n ++ [":"%byte]) /\
  parse_decimal (decimal n) = Some n.
Proof.
  intros H Hn.
  destruct (hash_step_vformat_counted pf local_aligned cx n H Hn) as (E1 & E2 & E3).
  split; [exact E1 |]. split; [exact E2 |]. split; [exact E3 |].
  apply parse_decimal_decimal.
Qed.

(** X10.  A column of type FLOAT goes into the hash as the 9 bytes of [x]:
    the letter F, then the 8 bytes of the IEEE pattern of the number, the
    most significant first. *)
Theorem float_segment pf local_aligned cx (col : sqlite3_value) :
  value_type col = SQLITE_FLOAT ->
  0 <= value_double col < 2 ^ 64 ->
  let r := value_double col in
  let x := segment_x "F"%byte r in
  hash_column pf local_aligned cx col
    = SHA3Update pf cx (Ptr (local_aligned "x"%string) x) 9 /\
  length x = 9%nat /\
  nth 0 x x00 = "F"%byte /\
  (forall k, (k < 8)%nat ->
     byte_val (nth (S k) x x00) = r / 2 ^ (8 * (7 - Z.of_nat k)) mod 256) /\
  big_endian_value (tl x) = r.
Proof.
  intros Ht Hv r x. subst x.
  split; [unfold hash_column; rewrite Ht; reflexivity |].
  pose proof (big_endian_value_segment "F"%byte r) as Hbe.
  assert (r mod modulus = r) as Hm by (apply Z.mod_small; exact Hv).
  rewrite Hm in Hbe.
  rewrite segment_x_bytes in *. rewrite Hm in *. cbn [map length nth tl] in *.
  split; [reflexivity |]. split; [reflexivity |]. split; [| exact Hbe].
  intros k Hk.
  do 8 (destruct k as [| k]; [rewrite byte_val_byte_of_Z;
    change 0xff with (Z.ones 8); rewrite Z.land_ones by lia;
    rewrite Z.shiftr_div_pow2 by lia; change (2 ^ 8) with 256;
    rewrite Z.mod_mod by lia; reflexivity |]).
  lia.
Qed.

(** X11.  A read-only statement adds to the hash exactly its segment of the
    stream: S, the length of its text in decimal, a colon and the text,
    then for each row an R and for each of its columns N, I or F with 8
    bytes, or T or B with the number of bytes in decimal, a colon and the
    bytes. *)
Theorem hash_statement_canonical pf local_aligned cx (pStmt : sqlite3_stmt) :
  ctx_ok pf cx ->
  stmt_wf pStmt ->
  hash_statement pf local_aligned cx pStmt
    = Sponge.absorb cx (Canonical.statement pStmt) /\
  ctx_ok pf (hash_statement pf local_aligned cx pStmt).
Proof.
  intros H W.
  rewrite (hash_statement_stream pf local_aligned cx pStmt H W).
  split; [reflexivity | apply absorb_ok; exact H].
Qed.

(** X12.  When the text given to [sha3QueryFunc] yields read-only
    statements one after the other: if the last of them leaves no text,
    the result is the SHA3 of the stream of these statements, one segment
    after the other with nothing in between, and the call makes one
    permutation for each block of the stream and one for the padding; if
    it leaves a text for which [sqlite3_prepare_v2] returns no statement
    (blanks, a comment, a semicolon), the call faults in
    [strlen(sqlite3_sql(pStmt))] and returns nothing. *)
Theorem sha3QueryFunc_digest pf local_aligned db argc
    (argv : list sqlite3_value) (stmts : list sqlite3_stmt) (rest : cptr) :
  let iSize := if argc =? 1 then 256 else value_int (nth 1 argv null_value) in
  argc = 1 \/ valid_size (value_int (nth 1 argv null_value)) ->
  value_text (nth 0 argv null_value) <> NULL ->
  prepares db (value_text (nth 0 argv null_value)) stmts rest ->
  Forall (fun pStmt => stmt_readonly pStmt = true) stmts ->
  Forall stmt_wf stmts ->
  forall fuel, (length stmts < fuel)%nat ->
  (bytes_of rest = [] ->
   exists o,
     sha3QueryFunc pf local_aligned fuel db argc argv = Some o /\
     res o = ResultBlob (Reference.sha3 iSize (Canonical.stream stmts)) /\
     Z.of_nat (permutations o)
     = Z.of_nat (length (Canonical.stream stmts)) / Sponge.rate iSize + 1) /\
  (forall zTail,
     bytes_of rest <> [] ->
     sqlite3_prepare_v2 db (bytes_of rest) = PrepareNone zTail ->
     res_of (sha3QueryFunc pf local_aligned fuel db argc argv) = Some Fault).
Proof.
  intros iSize Hs Hnull Hp Hro Hwf fuel Hfuel. unfold sha3QueryFunc.
  pose proof (size_accepted argc argv Hs) as E. rewrite E.
  pose proof (size_valid argc argv Hs) as Hv. fold iSize in Hv |- *.
  destruct (value_text (nth 0 argv null_value)) as [| al zSql] eqn:Ez;
    [contradiction |].
  split.
  - intros He.
    rewrite (sha3Query_loop_done pf local_aligned db stmts rest
               (SHA3Init pf iSize) (Ptr al zSql) fuel Hp He Hro Hfuel).
    rewrite (hash_statements_stream pf local_aligned stmts _
               (SHA3Init_ok pf iSize Hv) Hwf).
    destruct (finish_reference pf local_aligned iSize (Canonical.stream stmts) Hv)
      as (R1 & R2).
    destruct (SHA3Final pf local_aligned _) as [c h]. cbn [fst snd] in R1, R2.
    eexists. split; [reflexivity |].
    cbn [res permutations hash]. rewrite R1. split; [reflexivity | exact R2].
  - intros zTail Hne Hnone.
    rewrite (sha3Query_loop_fault pf local_aligned db stmts rest zTail
               (SHA3Init pf iSize) (Ptr al zSql) fuel Hp Hro Hne Hnone Hfuel).
    reflexivity.
Qed.

(** X13.  When a statement of the text does not compile, after read-only
    statements, [sha3QueryFunc] reports "error SQL statement [", the text
    that [sqlite3_prepare_v2] left in [zSql], "]: " and the message of the
    connection; no hash is returned. *)
Theorem compile_error_aborts pf local_aligned db argc
    (argv : list sqlite3_value) (earlier : list sqlite3_stmt)
    (rest zTail : cptr) (errmsg : list byte) :
  argc = 1 \/ valid_size (value_int (nth 1 argv null_value)) ->
  value_text (nth 0 argv null_value) <> NULL ->
  prepares db (value_text (nth 0 argv null_value)) earlier rest ->
  Forall (fun pStmt => stmt_readonly pStmt = true) earlier ->
  bytes_of rest <> [] ->
  sqlite3_prepare_v2 db (bytes_of rest) = PrepareError zTail errmsg ->
  forall fuel, (length earlier < fuel)%nat ->
  sha3QueryFunc pf local_aligned fuel db argc argv
  = Some (mk_outcome
            (ResultError
               (list_byte_of_string "error SQL statement [" ++ bytes_of zTail
                ++ list_byte_of_string "]: " ++ errmsg))
            (Some (fold_left (hash_statement pf local_aligned) earlier
                     (SHA3Init pf (if argc =? 1 then 256
                                   else value_int (nth 1 argv null_value)))))).
Proof.
  intros Hs Hnull Hp Hro Hne Hbad fuel Hfuel. unfold sha3QueryFunc.
  pose proof (size_accepted argc argv Hs) as E. rewrite E.
  destruct (value_text (nth 0 argv null_value)) as [| al zSql] eqn:Ez;
    [contradiction |].
  rewrite (sha3Query_loop_error pf local_aligned db earlier rest zTail errmsg
             _ (Ptr al zSql) fuel Hp Hro Hne Hbad Hfuel).
  reflexivity.
Qed.

(** X14.  The loop over the statements of [sha3QueryFunc] makes at most one
    turn for each byte of the text, provided each statement that
    [sqlite3_prepare_v2] compiles uses up at least one byte of it, the rows
    of a statement being finitely many: the call then ends, with a result
    or with the fault of [strlen] on the text of no statement, and it ends
    with that fault only when read-only statements are followed by a text
    for which [sqlite3_prepare_v2] returns no statement. *)
Theorem sha3QueryFunc_ends pf local_aligned db argc
    (argv : list sqlite3_value) :
  consumes db ->
  exists o,
    sha3QueryFunc pf local_aligned
      (S (length (bytes_of (value_text (nth 0 argv null_value))))) db argc argv
    = Some o /\
    (res o = Fault ->
     exists stmts rest zTail,
       prepares db (value_text (nth 0 argv null_value)) stmts rest /\
       Forall (fun pStmt => stmt_readonly pStmt = true) stmts /\
       bytes_of rest <> [] /\
       sqlite3_prepare_v2 db (bytes_of rest) = PrepareNone zTail).
Proof.
  intros C. unfold sha3QueryFunc.
  destruct (negb (argc =? 1) && bad_size _);
    [eexists; split; [reflexivity | discriminate] |].
  destruct (value_text (nth 0 argv null_value)) as [| al zSql] eqn:Ez;
    [eexists; split; [reflexivity | discriminate] |].
  pose proof (sha3Query_loop_ends pf local_aligned db
                (S (length (bytes_of (Ptr al zSql))))
                (SHA3Init pf (if argc =? 1 then 256
                              else value_int (nth 1 argv null_value)))
                (Ptr al zSql) C (Nat.lt_succ_diag_r _)) as N.
  destruct (sha3Query_loop _ _ _ _ _ _) as [[[r c] | c] |] eqn:L;
    [| | contradiction].
  - eexists. split; [reflexivity |]. cbn [res]. intros ->.
    exact (sha3Query_loop_fault_only pf local_aligned db _ _ _ _ L).
  - destruct (SHA3Final pf local_aligned c) as [c' h].
    eexists. split; [reflexivity | discriminate].
Qed.

(** X15.  [sqlite3_shathree_init] registers sha3 with 1 and 2 arguments and
    sha3_query with 1 and 2 arguments, in this order, and stops at the first
    registration that fails: the calls it makes are the first of the four,
    all but the last of them succeeded, it returns what the last call
    returned, and when it returns [SQLITE_OK] all four were made. *)
Theorem sqlite3_shathree_init_registers SQLITE_OK
    (sqlite3_create_function : string -> Z -> Z) :
  let rc := fst (sqlite3_shathree_init SQLITE_OK sqlite3_create_function) in
  let calls := snd (sqlite3_shathree_init SQLITE_OK sqlite3_create_function) in
  (exists k, (k < 4)%nat /\ calls = firstn (S k) registrations /\
     (forall j, (j < k)%nat ->
        sqlite3_create_function (fst (nth j registrations (EmptyString, 0)))
          (snd (nth j registrations (EmptyString, 0))) = SQLITE_OK) /\
     rc = sqlite3_create_function (fst (nth k registrations (EmptyString, 0)))
            (snd (nth k registrations (EmptyString, 0)))) /\
  (rc = SQLITE_OK -> calls = registrations).
Proof.
  intros rc calls. subst rc calls. unfold sqlite3_shathree_init.
  destruct (sqlite3_create_function "sha3"%string 1 =? SQLITE_OK) eqn:E1;
    cbv beta iota zeta; rewrite ?E1; cbv beta iota zeta.
  - apply Z.eqb_eq in E1.
    destruct (sqlite3_create_function "sha3"%string 2 =? SQLITE_OK) eqn:E2;
      cbv beta iota zeta; rewrite ?E2; cbv beta iota zeta.
    + apply Z.eqb_eq in E2.
      destruct (sqlite3_create_function "sha3_query"%string 1 =? SQLITE_OK)
        eqn:E3; cbv beta iota zeta; cbn [fst snd app].
      * apply Z.eqb_eq in E3. split; [| reflexivity].
        exists 3%nat. split; [lia |]. split; [reflexivity |].
        split; [| reflexivity].
        intros j Hj.
        destruct j as [| [| [| j]]]; cbn [nth registrations fst snd];
          [exact E1 | exact E2 | exact E3 | lia].
      * apply Z.eqb_neq in E3. split; [| intros; contradiction].
        exists 2%nat. split; [lia |]. split; [reflexivity |].
        split; [| reflexivity].
        intros j Hj.
        destruct j as [| [| j]]; cbn [nth registrations fst snd];
          [exact E1 | exact E2 | lia].
    + apply Z.eqb_neq in E2. cbn [fst snd app].
      split; [| intros; contradiction].
      exists 1%nat. split; [lia |]. split; [reflexivity |].
      split; [| reflexivity].
      intros j Hj.
      destruct j as [| j]; cbn [nth registrations fst snd]; [exact E1 | lia].
  - apply Z.eqb_neq in E1. cbn [fst snd app].
    split; [| intros; contradiction].
    exists 0%nat. split; [lia |]. split; [reflexivity |].
    split; [| reflexivity].
    intros j Hj. lia.
Qed.

(** X16.  [ROL64] loses no bit: rotating a 64-bit word left by [n] and then
    by [64 - n] gives the word back. *)
Theorem ROL64_inverse a n :
  in_range a -> 0 < n < 64 ->
  ROL64 (ROL64 a n) (64 - n) = a.
Proof.
  intros Ha Hn.
  assert (forall b m, in_range b -> 0 < m < 64 -> ROL64 b m = Spec.rotateLeft b m)
    as R.
  { intros b m Hb Hm. rewrite rotateLeft_rol by (exact Hb || lia).
    unfold rol. replace (m =? 0) with false; [reflexivity |].
    symmetry. apply Z.eqb_neq. lia. }
  pose proof (in_range_ROL64 a n Ha Hn) as H1.
  assert (0 < 64 - n < 64) as Hn' by lia.
  pose proof (in_range_ROL64 _ _ H1 Hn') as H2.
  rewrite (R _ _ H1 Hn') in H2 |- *.
  rewrite (R a n Ha Hn) in H1, H2 |- *.
  apply Z.bits_inj'. intros i Hi.
  destruct (Z.lt_ge_cases i 64) as [L | G].
  - rewrite rotateLeft_testbit by (assumption || lia).
    rewrite rotateLeft_testbit
      by (assumption || lia || (apply Z.mod_pos_bound; lia)).
    f_equal. rewrite Zminus_mod_idemp_l.
    replace (i - (64 - n) - n) with (i + (-1) * 64) by lia.
    rewrite Z.mod_add by lia. apply Z.mod_small. lia.
  - assert (forall b, in_range b -> Z.testbit b i = false) as High.
    { intros b Hb. apply in_range_mod in Hb. rewrite <- Hb.
      apply Z.mod_pow2_bits_high. lia. }
    rewrite (High _ H2), (High _ Ha). reflexivity.
Qed.

(** X17.  [KeccakF1600Step] keeps a context valid and touches the lanes
    only: the 25 lanes stay 25 words of 64 bits, and the rate, the count of
    loaded bytes, the mask and the bytes of [u.x] after the lanes are as
    before; it counts one permutation. *)
Theorem KeccakF1600Step_invariant pf p :
  ctx_ok pf p ->
  ctx_ok pf (KeccakF1600Step p) /\
  state_ok (u_s (KeccakF1600Step p)) /\
  u_x_hi (KeccakF1600Step p) = u_x_hi p /\
  nRate (KeccakF1600Step p) = nRate p /\
  nLoaded (KeccakF1600Step p) = nLoaded p /\
  ixMask (KeccakF1600Step p) = ixMask p /\
  nStep (KeccakF1600Step p) = S (nStep p).
Proof.
  intros (Hs & Hx & Hr & Hl & Hm).
  assert (state_ok (u_s (KeccakF1600Step p))) as Hs'
    by (apply KeccakF1600_lanes_state_ok; exact Hs).
  split; [| split; [exact Hs' | repeat split]].
  unfold ctx_ok.
  split; [exact Hs' |].
  split; [exact Hx |]. split; [exact Hr |]. split; [exact Hl | exact Hm].
Qed.

(** ** The further properties at concrete inputs *)

Lemma SHA3Init_default_size_witness :
  (0 < 128 \/ 512 < 0) /\
  SHA3Init Runtime_big 0 = SHA3Init Runtime_big 256.
Proof.
  assert (H : 0 < 128 \/ 512 < 0) by (left; lia).
  split; [exact H |].
  apply (SHA3Init_default_size Runtime_big 0 H).
Defined.

Lemma SHA3Init_size_rounded_up_witness :
  128 <= 225 <= 512 /\
  SHA3Init Static_1234 225 = SHA3Init Static_1234 256 /\
  nRate (SHA3Init Static_1234 225) = 136.
Proof.
  assert (H : 128 <= 225 <= 512) by lia.
  split; [exact H |].
  apply (SHA3Init_size_rounded_up Static_1234 225 H).
Defined.

Lemma SHA3Update_blocks_witness :
  ctx_ok Static_1234 (SHA3Init Static_1234 256) /\
  Z.of_nat (length (bytes_of (Ptr true (repeat x61 300)))) < 2 ^ 32 /\
  nLoaded (SHA3Update Static_1234 (SHA3Init Static_1234 256)
             (Ptr true (repeat x61 300)) 300) = 28 /\
  nStep (SHA3Update Static_1234 (SHA3Init Static_1234 256)
           (Ptr true (repeat x61 300)) 300) = 2%nat.
Proof.
  assert (L : Z.of_nat (length (bytes_of (Ptr true (repeat x61 300)))) < 2 ^ 32)
    by (cbn [bytes_of]; rewrite repeat_length; lia).
  split; [exact ctx_ok_example |]. split; [exact L |].
  destruct (SHA3Update_blocks Static_1234 (SHA3Init Static_1234 256)
              (Ptr true (repeat x61 300)) ctx_ok_example L)
    as (_ & _ & H1 & H2).
  cbn [bytes_of] in H1, H2. rewrite repeat_length in H1, H2.
  split; [exact H1 |]. apply Nat2Z.inj. exact H2.
Defined.

Lemma SHA3Update_append_witness :
  ctx_ok Static_1234 (SHA3Init Static_1234 256) /\
  Z.of_nat (length ([x61; x62] ++ [x63])) < 2 ^ 32 /\
  SHA3Update Static_1234
    (SHA3Update Static_1234 (SHA3Init Static_1234 256) (Ptr true [x61; x62]) 2)
    (Ptr false [x63]) 1
  = SHA3Update Static_1234 (SHA3Init Static_1234 256)
      (Ptr true [x61; x62; x63]) 3.
Proof.
  assert (L : Z.of_nat (length ([x61; x62] ++ [x63])) < 2 ^ 32) by (cbn; lia).
  split; [exact ctx_ok_example |]. split; [exact L |].
  apply (SHA3Update_append Static_1234 (SHA3Init Static_1234 256) true false
           true [x61; x62] [x63] ctx_ok_example L).
Defined.

Lemma SHA3Update_within_block_witness :
  ctx_ok Static_1234 (SHA3Init Static_1234 256) /\
  nLoaded (SHA3Init Static_1234 256)
    + Z.of_nat (length (bytes_of (Ptr false [x61; x62; x63])))
    < nRate (SHA3Init Static_1234 256) /\
  nStep (SHA3Update Static_1234 (SHA3Init Static_1234 256)
           (Ptr false [x61; x62; x63]) 3) = 0%nat /\
  nLoaded (SHA3Update Static_1234 (SHA3Init Static_1234 256)
             (Ptr false [x61; x62; x63]) 3) = 3.
Proof.
  assert (L : nLoaded (SHA3Init Static_1234 256)
              + Z.of_nat (length (bytes_of (Ptr false [x61; x62; x63])))
              < nRate (SHA3Init Static_1234 256)) by (cbn; lia).
  split; [exact ctx_ok_example |]. split; [exact L |].
  destruct (SHA3Update_within_block Static_1234 (SHA3Init Static_1234 256)
              (Ptr false [x61; x62; x63]) ctx_ok_example L) as (H1 & H2 & _).
  split; [exact H1 | exact H2].
Defined.

Lemma sha3_of_chunks_reference_witness :
  valid_size 256 /\
  Forall chunk_ok [(true, [x61; x62]); (false, [x63])] /\
  sha3_of_chunks Runtime_big (fun _ => false) 256
    [(true, [x61; x62]); (false, [x63])]
  = Reference.sha3 256 [x61; x62; x63].
Proof.
  assert (Hs : valid_size 256) by (right; left; reflexivity).
  assert (H1 : Forall chunk_ok [(true, [x61; x62]); (false, [x63])])
    by (repeat constructor; unfold chunk_ok; cbn; lia).
  split; [exact Hs |]. split; [exact H1 |].
  apply (sha3_of_chunks_reference Runtime_big (fun _ => false) 256 _ Hs H1).
Defined.

Lemma sha3Func_digest_witness :
  let argv := [text_value false [x61; x62; x63]] in
  value_type (nth 0 argv null_value) <> SQLITE_NULL /\
  value_bytes (nth 0 argv null_value)
    = Z.of_nat (length (bytes_of (hashed_bytes (nth 0 argv null_value)))) /\
  value_bytes (nth 0 argv null_value) < 2 ^ 31 /\
  res (sha3Func Static_1234 (fun _ => false) 1 argv)
    = ResultBlob (Reference.sha3 256 [x61; x62; x63]) /\
  Z.of_nat (permutations (sha3Func Static_1234 (fun _ => false) 1 argv)) = 1.
Proof.
  intros argv.
  assert (Hn : value_type (nth 0 argv null_value) <> SQLITE_NULL)
    by discriminate.
  assert (Hb : value_bytes (nth 0 argv null_value)
               = Z.of_nat (length (bytes_of (hashed_bytes (nth 0 argv null_value)))))
    by reflexivity.
  assert (Hi : value_bytes (nth 0 argv null_value) < 2 ^ 31) by (cbn; lia).
  split; [exact Hn |]. split; [exact Hb |]. split; [exact Hi |].
  apply (sha3Func_digest Static_1234 (fun _ => false) 1 argv
           (or_introl eq_refl) Hn Hb Hi).
Defined.

Lemma hash_step_vformat_decimal_witness :
  ctx_ok Static_1234 (SHA3Init Static_1234 256) /\
  - 2 ^ 31 <= 42 < 2 ^ 31 /\
  hash_step_vformat Static_1234 (fun _ => false) (SHA3Init Static_1234 256)
    "S%d:" 42
  = Sponge.absorb (SHA3Init Static_1234 256) ("S"%byte :: decimal 42 ++ [":"%byte]).
Proof.
  assert (Hn : - 2 ^ 31 <= 42 < 2 ^ 31) by lia.
  split; [exact ctx_ok_example |]. split; [exact Hn |].
  apply (hash_step_vformat_decimal Static_1234 (fun _ => false)
           (SHA3Init Static_1234 256) 42 ctx_ok_example Hn).
Defined.

Lemma float_segment_witness :
  let col := mk_value SQLITE_FLOAT 0 0 0 0x3FF0000000000000 NULL NULL in
  value_type col = SQLITE_FLOAT /\
  0 <= value_double col < 2 ^ 64 /\
  big_endian_value (tl (segment_x "F"%byte (value_double col)))
  = 0x3FF0000000000000.
Proof.
  intros col.
  assert (Hv : 0 <= value_double col < 2 ^ 64) by (cbn; lia).
  split; [reflexivity |]. split; [exact Hv |].
  apply (float_segment Static_1234 (fun _ => false) (SHA3Init Static_1234 256)
           col eq_refl Hv).
Defined.

Lemma hash_statement_canonical_witness :
  let pStmt :=
    mk_stmt (Ptr false ["S"%byte]) true 3
      [[int_value 1; text_value false ["x"%byte]; null_value]] in
  ctx_ok Static_1234 (SHA3Init Static_1234 256) /\
  stmt_wf pStmt /\
  hash_statement Static_1234 (fun _ => false) (SHA3Init Static_1234 256) pStmt
  = Sponge.absorb (SHA3Init Static_1234 256) (Canonical.statement pStmt).
Proof.
  intros pStmt.
  assert (W : stmt_wf pStmt).
  { split; [cbn; lia |]. repeat constructor. }
  split; [exact ctx_ok_example |]. split; [exact W |].
  apply (hash_statement_canonical Static_1234 (fun _ => false)
           (SHA3Init Static_1234 256) pStmt ctx_ok_example W).
Defined.

Lemma sha3QueryFunc_digest_witness :
  let stmt c :=
    mk_stmt (Ptr false [c]) true 3
      [[int_value 1; text_value false ["x"%byte]; null_value]] in
  let argv := [text_value false ["a"; "b"]%byte] in
  let blank := [text_value false ["a"; " "]%byte] in
  prepares example_rows_db (value_text (nth 0 argv null_value))
    [stmt "a"%byte; stmt "b"%byte] (Ptr false []) /\
  Forall stmt_wf [stmt "a"%byte; stmt "b"%byte] /\
  (exists o,
     sha3QueryFunc Static_1234 (fun _ => false) 3 example_rows_db 1 argv
     = Some o /\
     res o = ResultBlob
               (Reference.sha3 256
                  (Canonical.stream [stmt "a"%byte; stmt "b"%byte]))) /\
  prepares example_rows_db (value_text (nth 0 blank null_value))
    [stmt "a"%byte] (Ptr false [" "%byte]) /\
  sqlite3_prepare_v2 example_rows_db (bytes_of (Ptr false [" "%byte]))
    = PrepareNone (Ptr false []) /\
  res_of (sha3QueryFunc Static_1234 (fun _ => false) 2 example_rows_db 1 blank)
    = Some Fault.
Proof.
  intros stmt argv blank.
  assert (Hp : prepares example_rows_db (value_text (nth 0 argv null_value))
                 [stmt "a"%byte; stmt "b"%byte] (Ptr false [])).
  { cbn. split; [discriminate |]. eexists. split; [reflexivity |].
    cbn. split; [discriminate |]. eexists. split; reflexivity. }
  assert (Hw : Forall stmt_wf [stmt "a"%byte; stmt "b"%byte]).
  { repeat constructor; cbn; lia. }
  assert (Hr : Forall (fun pStmt => stmt_readonly pStmt = true)
                 [stmt "a"%byte; stmt "b"%byte]) by (repeat constructor).
  assert (Hz : value_text (nth 0 argv null_value) <> NULL) by discriminate.
  assert (Hf : (length [stmt "a"%byte; stmt "b"%byte] < 3)%nat) by (cbn; lia).
  assert (Hp' : prepares example_rows_db (value_text (nth 0 blank null_value))
                  [stmt "a"%byte] (Ptr false [" "%byte])).
  { cbn. split; [discriminate |]. eexists. split; reflexivity. }
  assert (Hw' : Forall stmt_wf [stmt "a"%byte]).
  { repeat constructor; cbn; lia. }
  assert (Hr' : Forall (fun pStmt => stmt_readonly pStmt = true)
                  [stmt "a"%byte]) by (repeat constructor).
  assert (Hz' : value_text (nth 0 blank null_value) <> NULL) by discriminate.
  assert (Hf' : (length [stmt "a"%byte] < 2)%nat) by (cbn; lia).
  assert (Hb : bytes_of (Ptr false [" "%byte]) <> []) by discriminate.
  split; [exact Hp |]. split; [exact Hw |].
  split.
  - destruct (sha3QueryFunc_digest Static_1234 (fun _ => false) example_rows_db
                1 argv [stmt "a"%byte; stmt "b"%byte] (Ptr false [])
                (or_introl eq_refl) Hz Hp Hr Hw 3%nat Hf) as (D & _).
    destruct (D eq_refl) as (o & H1 & H2 & _).
    exists o. split; [exact H1 | exact H2].
  - split; [exact Hp' |]. split; [reflexivity |].
    destruct (sha3QueryFunc_digest Static_1234 (fun _ => false) example_rows_db
                1 blank [stmt "a"%byte] (Ptr false [" "%byte])
                (or_introl eq_refl) Hz' Hp' Hr' Hw' 2%nat Hf') as (_ & F).
    exact (F (Ptr false []) Hb eq_refl).
Defined.

Lemma compile_error_aborts_witness :
  let argv := [text_value false ["a"; "E"]%byte] in
  let stmt :=
    mk_stmt (Ptr false ["a"%byte]) true 3
      [[int_value 1; text_value false ["x"%byte]; null_value]] in
  prepares example_rows_db (value_text (nth 0 argv null_value)) [stmt]
    (Ptr false ["E"%byte]) /\
  sqlite3_prepare_v2 example_rows_db (bytes_of (Ptr false ["E"%byte]))
    = PrepareError (Ptr false []) (list_byte_of_string "syntax error") /\
  res_of (sha3QueryFunc Static_1234 (fun _ => false) 2 example_rows_db 1 argv)
  = Some (ResultError
            (list_byte_of_string "error SQL statement []: syntax error")).
Proof.
  intros argv stmt.
  assert (Hp : prepares example_rows_db (value_text (nth 0 argv null_value))
                 [stmt] (Ptr false ["E"%byte])).
  { cbn. split; [discriminate |]. eexists. split; reflexivity. }
  split; [exact Hp |]. split; [reflexivity |].
  rewrite (compile_error_aborts Static_1234 (fun _ => false) example_rows_db 1
             argv [stmt] (Ptr false ["E"%byte]) (Ptr false [])
             (list_byte_of_string "syntax error") (or_introl eq_refl)).
  - reflexivity.
  - discriminate.
  - exact Hp.
  - repeat constructor.
  - discriminate.
  - reflexivity.
  - cbn. lia.
Defined.

Lemma sha3QueryFunc_ends_witness :
  consumes example_rows_db /\
  exists o,
    sha3QueryFunc Static_1234 (fun _ => false) 3 example_rows_db 1
      [text_value false ["a"; " "]%byte] = Some o.
Proof.
  assert (C : consumes example_rows_db).
  { intros zSql pStmt zTail H. destruct zSql as [| c rest]; [discriminate H |].
    cbn in H. destruct (Byte.eqb c "E"%byte); [discriminate H |].
    destruct (Byte.eqb c " "%byte); [discriminate H |].
    inversion H. cbn. lia. }
  split; [exact C |].
  destruct (sha3QueryFunc_ends Static_1234 (fun _ => false) example_rows_db 1
              [text_value false ["a"; " "]%byte] C) as (o & H & _).
  exists o. exact H.
Defined.

Lemma ROL64_inverse_witness :
  in_range 0x8000000000000001 /\ 0 < 3 < 64 /\
  ROL64 (ROL64 0x8000000000000001 3) (64 - 3) = 0x8000000000000001.
Proof.
  assert (Ha : in_range 0x8000000000000001) by (unfold in_range, modulus; lia).
  assert (Hn : 0 < 3 < 64) by lia.
  split; [exact Ha |]. split; [exact Hn |].
  apply (ROL64_inverse 0x8000000000000001 3 Ha Hn).
Defined.

Lemma KeccakF1600Step_invariant_witness :
  ctx_ok Static_1234 (SHA3Init Static_1234 256) /\
  ctx_ok Static_1234 (KeccakF1600Step (SHA3Init Static_1234 256)) /\
  nRate (KeccakF1600Step (SHA3Init Static_1234 256)) = 136.
Proof.
  split; [exact ctx_ok_example |].
  destruct (KeccakF1600Step_invariant Static_1234 (SHA3Init Static_1234 256)
              ctx_ok_example) as (H1 & _ & _ & H2 & _).
  split; [exact H1 | exact H2].
Defined.
